(** * Chunk streaming core of neuroglancer-mini: a shallow embedding

    The TypeScript functions are rendered as Rocq functions over the data
    they manipulate: JavaScript [Map]s are finite maps, arrays are lists,
    numbers that only ever hold integers are [Z] or [N], the delays of
    [pickDelay] are rationals with the rounding of doubles written out,
    thrown exceptions are the [Throw] constructor of a result type, and the
    asynchronous [fetchChunk] is a transition system whose events are the
    resumptions of its [await] points.

    Part I holds the definitions, one module per source file.  Part II holds
    the statements proved about them. *)

From Stdlib Require Import ZArith NArith QArith Qminmax Qpower Qround Lia Lqa.
From Stdlib Require Import String Ascii.
From Stdlib Require Floats.
From Stdlib Require Import Permutation Sorting.Sorted.
From stdpp Require Import gmap strings list pretty sorting.

Open Scope Z_scope.

(* ===================================================================== *)
(** * Part I: definitions                                                 *)
(* ===================================================================== *)

(** ** JavaScript building blocks shared by the modules *)

Module Js.

(** The outcome of running a function body: it returns or it throws. *)
Inductive Result (E A : Type) : Type :=
| Return (a : A)
| Throw (e : E).
Arguments Return {E A} a.
Arguments Throw {E A} e.

Definition bind {E A B} (m : Result E A) (k : A -> Result E B) : Result E B :=
  match m with
  | Return a => k a
  | Throw e => Throw e
  end.

#[export] Instance result_ret {E} : MRet (Result E) := fun _ a => Return a.
#[export] Instance result_bind {E} : MBind (Result E) :=
  fun _ _ k m => bind m k.

(** [xs.map(f)] where [f] may throw: elements are visited left to right and
    the first exception aborts the traversal. *)
Fixpoint mapM {E A B} (f : A -> Result E B) (xs : list A) : Result E (list B) :=
  match xs with
  | [] => Return []
  | x :: xs' =>
      y ← f x;
      ys ← mapM f xs';
      Return (y :: ys)
  end.

(** [arr[i]] for a number [i]: [None] is [undefined] (index negative or past
    the end). *)
Definition index {A} (arr : list A) (i : Z) : option A :=
  if i <? 0 then None else arr !! Z.to_nat i.

(** Template-literal rendering [`${v}`] of an integer or [undefined]. *)
Definition showNumber (v : option Z) : string :=
  match v with
  | Some z => pretty z
  | None => "undefined"
  end.

(** String concatenation in which a missing array entry prints as
    ["undefined"]. *)
Definition showString (v : option string) : string :=
  match v with
  | Some s => s
  | None => "undefined"
  end.

(** [Array.prototype.sort(compareFn)]: the language requires a stable sort.
    For a consistent comparator every stable sort returns the same array, so
    the embedding uses stable insertion: an element moves in front of the
    already sorted suffix as long as the comparator does not put it after. *)
Fixpoint sortInsert {A} (cmp : A -> A -> Z) (x : A) (l : list A) : list A :=
  match l with
  | [] => [x]
  | y :: l' => if cmp x y <=? 0 then x :: y :: l' else y :: sortInsert cmp x l'
  end.

Definition sort {A} (cmp : A -> A -> Z) (l : list A) : list A :=
  foldr (sortInsert cmp) [] l.

(** [arr.join(sep)] on strings. *)
Fixpoint join (sep : string) (parts : list string) : string :=
  match parts with
  | [] => ""
  | [p] => p
  | p :: rest => p +:+ sep +:+ join sep rest
  end.

End Js.

Import Js.

(* --------------------------------------------------------------------- *)
(** ** util/completion.ts                                                  *)
(* --------------------------------------------------------------------- *)

Module Completion.

Record Completion := { value : string }.

Record CompletionWithDescription :=
  { valueD : string; description : option string }.

Section WithCompare.

(** [defaultStringCompare] is imported from util/string.js, which is not part
    of the sources; it is a parameter of the embedding. *)
Variable defaultStringCompare : string -> string -> Z.

(** [option.startsWith(prefix)] *)
Definition startsWith (option prefix : string) : bool :=
  String.prefix prefix option.

Definition getPrefixMatches (prefix : string) (options : list string)
  : list Completion :=
  let result :=
    fold_left
      (fun result option =>
         if startsWith option prefix
         then result ++ [{| value := option |}]
         else result)
      options [] in
  sort (fun a b => defaultStringCompare (value a) (value b)) result.

Definition getPrefixMatchesWithDescriptions {T : Type}
    (prefix : string) (options : list T)
    (getValue : T -> string) (getDescription : T -> option string)
  : list CompletionWithDescription :=
  let result :=
    fold_left
      (fun result option =>
         let key := getValue option in
         if startsWith key prefix
         then result ++ [{| valueD := key; description := getDescription option |}]
         else result)
      options [] in
  sort (fun a b => defaultStringCompare (valueD a) (valueD b)) result.

End WithCompare.

End Completion.

(* --------------------------------------------------------------------- *)
(** ** sliceview/renderlayer.ts                                            *)
(* --------------------------------------------------------------------- *)

Module RenderLayer.

Section WithSource.

(** Chunk sources are JavaScript objects used as [Map] keys, that is, compared
    by identity; any countable type of identities will do.  The chunk
    transform is opaque to this file. *)
Context {Source : Type} `{Countable Source}.
Context {ChunkTransformParameters : Type}.

Record VisibleSourceInfo := {
  source : Source;
  refCount : Z;
  chunkTransform : ChunkTransformParameters;
}.

(** The two private fields of [SliceViewRenderLayer] that [addSource] and
    [removeSource] touch.  The cached list holds the very [VisibleSourceInfo]
    objects that are the values of the map; it is therefore kept as the list
    of their keys, and read through the map. *)
Record SliceViewRenderLayer := {
  visibleSources : gmap Source VisibleSourceInfo;
  visibleSourcesList_ : list Source;
}.

Definition addSource (this : SliceViewRenderLayer)
    (source0 : Source) (chunkTransform0 : ChunkTransformParameters)
  : SliceViewRenderLayer :=
  match visibleSources this !! source0 with
  | Some info =>
      {| visibleSources :=
           <[source0 := {| source := source info;
                           refCount := refCount info + 1;
                           chunkTransform := chunkTransform0 |}]>
             (visibleSources this);
         visibleSourcesList_ := visibleSourcesList_ this |}
  | None =>
      {| visibleSources :=
           <[source0 := {| source := source0;
                           refCount := 1;
                           chunkTransform := chunkTransform0 |}]>
             (visibleSources this);
         visibleSourcesList_ := [] |}
  end.

(** [visibleSources.get(source)!] on a source that is not registered yields
    [undefined], and reading [info.refCount] then throws a [TypeError]. *)
Definition removeSource (this : SliceViewRenderLayer) (source0 : Source)
  : Result string SliceViewRenderLayer :=
  match visibleSources this !! source0 with
  | None => Throw "TypeError"
  | Some info =>
      if decide (refCount info ≠ 1) then
        Return
          {| visibleSources :=
               <[source0 := {| source := source info;
                               refCount := refCount info - 1;
                               chunkTransform := chunkTransform info |}]>
                 (visibleSources this);
             visibleSourcesList_ := visibleSourcesList_ this |}
      else
        Return
          {| visibleSources := delete source0 (visibleSources this);
             visibleSourcesList_ := [] |}
  end.

End WithSource.

Arguments VisibleSourceInfo : clear implicits.
Arguments SliceViewRenderLayer Source {_ _} ChunkTransformParameters.

End RenderLayer.

(* --------------------------------------------------------------------- *)
(** ** sliceview/renderlayer.ts: the chunk sources a layer is handed       *)
(* --------------------------------------------------------------------- *)

Module SourceReferences.

Section WithSource.

Context {Source : Type} `{Countable Source}.
Context {ChunkTransformParameters : Type}.

(** A chunk source is a reference-counted object: it carries the number of
    references its consumers hold.  [addSource] and [removeSource] take the
    source as [Borrowed<Source>]; their bodies call neither [addRef()] nor
    [dispose()] on it.  They are given here on a render layer together with
    the reference counts of the chunk source objects, which they hand
    through. *)
Record Objects := {
  layer : RenderLayer.SliceViewRenderLayer Source ChunkTransformParameters;
  references : gmap Source Z;
}.

Definition addSource (this : Objects)
    (source0 : Source) (chunkTransform0 : ChunkTransformParameters)
  : Objects :=
  {| layer := RenderLayer.addSource (layer this) source0 chunkTransform0;
     references := references this |}.

Definition removeSource (this : Objects) (source0 : Source)
  : Result string Objects :=
  layer' ← RenderLayer.removeSource (layer this) source0;
  Return {| layer := layer'; references := references this |}.

(** Modelled from the spec: a consumer "increments the chunk's or source's
    count on acquisition and decrements on release" (the class [RefCounted]
    of util/disposable.js is not part of the sources).  A reference of
    [source0] was released between two states when its count went down by
    one. *)
Definition released (before after : gmap Source Z) (source0 : Source) : Prop :=
  ∃ count, before !! source0 = Some count ∧ after !! source0 = Some (count - 1).

End WithSource.

Arguments Objects Source {_ _} ChunkTransformParameters.

End SourceReferences.

(* --------------------------------------------------------------------- *)
(** ** sliceview/uncompressed_chunk_format.ts (the third unit in
       sliceview/frontend.ts)                                              *)
(* --------------------------------------------------------------------- *)

(** The element types of a volume, as the [switch] of [getValueAt] lists
    them. *)
Inductive DataType :=
| UINT8 | INT8 | FLOAT32 | UINT16 | INT16 | UINT32 | INT32 | UINT64.

#[export] Instance DataType_eq_dec : EqDecision DataType.
Proof. solve_decision. Defined.

Module UncompressedChunk.

Section WithElem.

(** What one slot of the typed array [data] holds (an integer or a float,
    depending on the array type); [getValueAt] only moves these around. *)
Context {Elem : Type}.

(** [number | Uint64]; a slot read past the end of the array is
    [undefined], here [None]. *)
Inductive Value :=
| Number (x : option Elem)
| Uint64 (low high : option Elem).

Record UncompressedVolumeChunk := {
  data : option (list Elem);          (* [null] when the payload is missing *)
  chunkDataSize : list N;             (* Uint32Array *)
  chunkFormat_dataType : DataType;    (* [this.chunkFormat.dataType] *)
  source_spec_fillValue : Value;      (* [this.source.spec.fillValue] *)
}.

(** JavaScript numbers of the loop: [None] is [NaN], which arises when
    [chunkDataSize[i]] is read past its end. *)
Definition mulNum (a b : option N) : option N :=
  x ← a; y ← b; Some (x * y)%N.
Definition addNum (a b : option N) : option N :=
  x ← a; y ← b; Some (x + y)%N.

(** One iteration of the loop body, on the pair [(index, stride)]. *)
Definition indexStep (dataPosition chunkDataSize0 : list N)
    (acc : option N * option N) (i : nat) : option N * option N :=
  let '(index, stride) := acc in
  (addNum index (mulNum stride (dataPosition !! i)),
   mulNum stride (chunkDataSize0 !! i)).

(** [for (let i = 0; i < rank; ++i) {...}] with [rank = dataPosition.length],
    started from [index = 0], [stride = 1]. *)
Definition computeIndex (dataPosition chunkDataSize0 : list N) : option N :=
  fst (fold_left (indexStep dataPosition chunkDataSize0)
         (seq 0 (length dataPosition)) (Some 0%N, Some 1%N)).

(** [data[index]]: [undefined] for [NaN] and for an index past the end. *)
Definition at_ (data0 : list Elem) (index : option N) : option Elem :=
  i ← index; data0 !! N.to_nat i.

Definition getValueAt (this : UncompressedVolumeChunk) (dataPosition : list N)
  : Value :=
  match data this with
  | None => source_spec_fillValue this
  | Some data0 =>
      let index := computeIndex dataPosition (chunkDataSize this) in
      match chunkFormat_dataType this with
      | UINT8 | INT8 | FLOAT32 | UINT16 | INT16 | UINT32 | INT32 =>
          Number (at_ data0 index)
      | UINT64 =>
          let index2 := mulNum index (Some 2%N) in
          Uint64 (at_ data0 index2) (at_ data0 (addNum index2 (Some 1%N)))
      end
  end.

End WithElem.

Arguments Value : clear implicits.
Arguments UncompressedVolumeChunk : clear implicits.

(** The index the documentation of the format promises: dimension [i]
    contributes its coordinate times the product of the extents before it. *)
Definition strideOf (chunkDataSize0 : list N) (i : nat) : N :=
  foldr N.mul 1%N (take i chunkDataSize0).

Definition linearIndex (chunkDataSize0 dataPosition : list N) : N :=
  foldr N.add 0%N
    (imap (fun i p => (strideOf chunkDataSize0 i * p)%N) dataPosition).

End UncompressedChunk.

(* --------------------------------------------------------------------- *)
(** ** sliceview/backend_chunk_decoders/raw.ts                             *)
(* --------------------------------------------------------------------- *)

Module RawDecoder.

(** [Endianness] of util/endian.js. *)
Inductive Endianness := LITTLE | BIG.

#[export] Instance Endianness_eq_dec : EqDecision Endianness.
Proof. solve_decision. Defined.

Record VolumeChunk := {
  source_spec_dataType : DataType;   (* [chunk.source!.spec.dataType] *)
  chunkDataSize : list N;            (* [chunk.chunkDataSize!], Uint32Array *)
}.

(** Modelled from the spec: [vector.prod] of util/vector.js, which is not
    part of the sources, is taken to be the product of the entries, the
    number of elements of a buffer "matching the declared element type and
    per-dimension extents".  Numbers stand for the integers they denote:
    the extents are entries of a Uint32Array and a byte length is below
    2^53, where the products of doubles are exact. *)
Definition prod (v : list N) : N := fold_left N.mul v 1%N.

(** What a call of [decodeRawChunk] can throw: the [Error] it constructs
    itself, or whatever a function it calls throws, which it does not
    catch. *)
Inductive Thrown {E : Type} :=
| RawFormatError (message : string)
| FromCallee (e : E).

Arguments Thrown : clear implicits.

Section WithPlatform.

(** Imported from modules that are not part of the sources, and therefore
    parameters: the byte-size table and the constructor of typed-array views
    of util/data_type.js, the byte order of the machine and the in-place
    byte swap of util/endian.js, and the post-processing step the view is
    handed to.  [View] is the type of typed-array views, [E] what the three
    functions may throw; [convertEndian] returns the view as it is after the
    swap. *)
Variable DATA_TYPE_BYTES : DataType -> N.
Variable ENDIANNESS : Endianness.
Context {View E Stored : Type}.
Variable makeDataTypeArrayView : DataType -> list Byte.byte -> Result E View.
Variable convertEndian : View -> N -> Endianness -> Result E View.
Variable postProcessRawData : VolumeChunk -> View -> Result E Stored.

(** A call whose exception is not caught. *)
Definition called {A : Type} (r : Result E A) : Result (Thrown E) A :=
  match r with
  | Return a => Return a
  | Throw e => Throw (FromCallee e)
  end.

Definition lengthErrorMessage (byteLength numElements bytesPerElement : N)
  : string :=
  "Raw-format chunk is " +:+ pretty byteLength +:+ " bytes, " +:+
  "but " +:+ pretty numElements +:+ " * " +:+ pretty bytesPerElement +:+
  " = " +:+ pretty (numElements * bytesPerElement)%N +:+
  " bytes are expected.".

(** [endianness] is [None] when the caller leaves the argument out; it then
    defaults to [ENDIANNESS]. *)
Definition decodeRawChunk (chunk : VolumeChunk) (response : list Byte.byte)
    (endianness : option Endianness) : Result (Thrown E) Stored :=
  let endianness := default ENDIANNESS endianness in
  let dataType := source_spec_dataType chunk in
  let numElements := prod (chunkDataSize chunk) in
  let bytesPerElement := DATA_TYPE_BYTES dataType in
  let expectedBytes := (numElements * bytesPerElement)%N in
  let byteLength := N.of_nat (length response) in
  if decide (expectedBytes ≠ byteLength) then
    Throw (RawFormatError
             (lengthErrorMessage byteLength numElements bytesPerElement))
  else
    data ← called (makeDataTypeArrayView dataType response);
    data ← (if decide (endianness ≠ ENDIANNESS)
            then called (convertEndian data bytesPerElement endianness)
            else Return data);
    called (postProcessRawData chunk data).

End WithPlatform.

End RawDecoder.

(* --------------------------------------------------------------------- *)
(** ** JavaScript numbers                                                  *)
(* --------------------------------------------------------------------- *)

(** A finite double is the rational number it denotes.  An arithmetic
    operation of JavaScript computes the exact result and rounds it to the
    nearest double, ties going to the double whose last bit is even (IEEE
    754, binary64).  Doubles have 53 significant bits and exponents down to
    -1074, below which they thin out to zero; there is no infinity here, and
    a number beyond the largest double would stay what it is. *)
Module Double.

(** The integer nearest to [x], the even one of the two when [x] lies
    halfway. *)
Definition roundTiesToEven (x : Q) : Z :=
  let f := Qfloor x in
  match (x - inject_Z f ?= 1 # 2)%Q with
  | Lt => f
  | Gt => f + 1
  | Eq => if Z.even f then f else f + 1
  end.

(** For [x > 0], the exponent [e] with [2^e <= x < 2^(e+1)]. *)
Definition exponent (x : Q) : Z :=
  let k := Z.log2 (Qnum x) - Z.log2 (Zpos (Qden x)) in
  if Qle_bool (2 ^ k) x then k else k - 1.

(** The distance between neighbouring doubles at [x > 0]. *)
Definition ulp (x : Q) : Q := (2 ^ Z.max (exponent x - 52) (-1074))%Q.

(** The double nearest to [x]. *)
Definition round (x : Q) : Q :=
  match (x ?= 0)%Q with
  | Eq => 0
  | Gt => inject_Z (roundTiesToEven (x / ulp x)) * ulp x
  | Lt => - (inject_Z (roundTiesToEven (- x / ulp (- x))) * ulp (- x))
  end.

End Double.

(* --------------------------------------------------------------------- *)
(** ** util/http_request.ts (the first unnamed unit)                       *)
(* --------------------------------------------------------------------- *)

Module HttpRequest.

Record HttpError := {
  url : string;
  status : Z;
  statusText : string;
}.

(** [maxAttempts] is declared and read nowhere in the source file. *)
Definition maxAttempts : Z := 32.
Definition minDelayMilliseconds : Q := 500.
Definition maxDelayMilliseconds : Q := 10000.

(** [pickDelay]; the attempt number is an integer and the value drawn by
    [Math.random()] is an argument, a double in [0, 1).  Every operation
    rounds its result to a double; [2 ** n] is the double nearest to the
    power.  A power beyond the largest double is the infinity in JavaScript
    and stays finite here; [Math.min] gives [maxDelayMilliseconds / 2] for
    both. *)
Definition pickDelay (attemptNumber : Z) (random : Q) : Q :=
  Double.round
    (Qmin (Double.round
             (Double.round (2 ^ attemptNumber) * minDelayMilliseconds))
          (Double.round (maxDelayMilliseconds / 2))
     * Double.round (1 + random)).

(** The lower end of the delay interval of attempt [n] as the comment in
    [pickDelay] words it: 500 ms doubled [n] times, at most 5000 ms.  It is
    compared with [pickDelay] below. *)
Definition delayFloor (n : Z) : Q := Qmin (inject_Z (2 ^ n * 500)) 5000.

(** [RequestInfo]: a URL string or a [Request] object. *)
Inductive RequestInfo :=
| UrlString (s : string)
| Request (requestUrl : string).

Definition toString (input : RequestInfo) : string :=
  match input with
  | UrlString s => s
  | Request _ => "[object Request]"
  end.

(** What [fetchOk] throws: the [TypeError] of [new URL(input)] on a string
    that is not a URL, the [HttpError] it constructs, or what a property
    read of the walk throws. *)
Inductive FetchError {E : Type} :=
| TypeError
| Http (e : HttpError)
| ReadError (e : E).

Arguments FetchError : clear implicits.

(** [isNotFoundError]: false on whatever is not an [HttpError]. *)
Definition isNotFoundError {E : Type} (e : FetchError E) : bool :=
  match e with
  | Http e => bool_decide (status e = 0 ∨ status e = 403 ∨ status e = 404)
  | _ => false
  end.

(** [path.split("/")] *)
Fixpoint splitSlash (path : string) : list string :=
  match path with
  | EmptyString => [""]
  | String c rest =>
      if Ascii.eqb c "/" then "" :: splitSlash rest
      else match splitSlash rest with
           | [] => [String c ""]
           | p :: ps => String c p :: ps
           end
  end.

Definition pathParts (path : string) : list string :=
  drop 1 (List.filter (fun part => negb (Nat.eqb (String.length part) 0))
            (splitSlash path)).

Section WithValues.

(** [self.fileTree] is declared [any], and the loop of [getFile] reads
    [res[part]] on whatever it has reached: a folder of the tree, a stored
    response, a member of one of these (a response has the methods
    [arrayBuffer] and [text]), or something inherited.  [Value] is the type
    of the JavaScript values other than [undefined], and [getProperty] the
    property read, which belongs to the language: it gives [undefined]
    ([None]) or a value, or throws (on [null], a [TypeError]).  A read has no
    effect, so the two reads of [res[part]] in one iteration agree. *)
Context {Value E : Type}.
Variable getProperty : Value -> string -> Result E (option Value).

(** [new URL(input).pathname] belongs to the platform; [None] stands for the
    [TypeError] it throws on a string that is not a URL. *)
Variable pathname : string -> option string.

(** The loop of [getFile]: it returns [undefined] as soon as [res] or
    [res[part]] is [undefined]. *)
Fixpoint walk (res : option Value) (parts : list string)
  : Result E (option Value) :=
  match parts with
  | [] => Return res
  | part :: parts' =>
      match res with
      | None => Return None
      | Some node =>
          child ← getProperty node part;
          match child with
          | None => Return None
          | Some child => walk (Some child) parts'
          end
      end
  end.

(** An exception of a property read, as it leaves [getFile]. *)
Definition reading {A : Type} (r : Result E A) : Result (FetchError E) A :=
  match r with
  | Return a => Return a
  | Throw e => Throw (ReadError e)
  end.

Definition getFile (input : string) (fileTree : option Value)
  : Result (FetchError E) (option Value) :=
  match pathname input with
  | None => Throw TypeError
  | Some path => reading (walk fileTree (pathParts path))
  end.

(** [typeof input === 'string' ? input : input.url] *)
Definition urlOf (input : RequestInfo) : string :=
  match input with
  | UrlString s => s
  | Request u => u
  end.

(** [fetchOk]; [self.fileTree] is an argument.  What is returned is whatever
    the walk has reached. *)
Definition fetchOk (input : RequestInfo) (fileTree : option Value)
  : Result (FetchError E) Value :=
  result ← getFile (toString input) fileTree;
  match result with
  | None =>
      Throw (Http {| url := urlOf input;
                     status := 404;
                     statusText := "File not found" |})
  | Some response => Return response
  end.

Definition cancellableFetchOk {T : Type} (input : RequestInfo)
    (transformResponse : Value -> Result (FetchError E) T)
    (fileTree : option Value)
  : Result (FetchError E) T :=
  response ← fetchOk input fileTree;
  transformResponse response.

End WithValues.

End HttpRequest.

(* --------------------------------------------------------------------- *)
(** ** util/http_request.ts on the binary64 numbers of the kernel          *)
(* --------------------------------------------------------------------- *)

(** [pickDelay] once more, on the kernel's binary64 floating-point numbers,
    to compare [Double.round] with the arithmetic of the machine on chosen
    inputs. *)
Module MachineDoubles.

(** The rational a float denotes; [None] for an infinity or a NaN. *)
Definition valueOf (f : PrimFloat.float) : option Q :=
  match FloatOps.Prim2SF f with
  | SpecFloat.S754_zero _ => Some 0%Q
  | SpecFloat.S754_finite s m e =>
      Some ((if s then -1 else 1) * inject_Z (Zpos m) * 2 ^ e)%Q
  | _ => None
  end.

(** The float [m * 2^e], for [m] below [2^53]. *)
Definition scaled (m : positive) (e : Z) : PrimFloat.float :=
  FloatOps.SF2Prim (SpecFloat.S754_finite false m e).

(** [Math.min] on two numbers. *)
Definition min (a b : PrimFloat.float) : PrimFloat.float :=
  if PrimFloat.ltb a b then a else b.

Definition pickDelay (attemptNumber : Z) (random : PrimFloat.float)
  : PrimFloat.float :=
  PrimFloat.mul
    (min (PrimFloat.mul (FloatOps.Z.ldexp PrimFloat.one attemptNumber)
            (scaled 500 0))
         (PrimFloat.div (scaled 10000 0) (scaled 2 0)))
    (PrimFloat.add PrimFloat.one random).

(** [HttpRequest.pickDelay] and the machine give the same delay. *)
Definition agrees (input : Z * PrimFloat.float) : bool :=
  match valueOf (snd input), valueOf (pickDelay (fst input) (snd input)) with
  | Some r, Some delay => Qeq_bool (HttpRequest.pickDelay (fst input) r) delay
  | _, _ => false
  end.

End MachineDoubles.

(* --------------------------------------------------------------------- *)
(** ** sliceview/frontend.ts: transformed sources and visible layers       *)
(* --------------------------------------------------------------------- *)

Module Frontend.

Inductive MessageSeverity := info | warning | error.

Record Message := {
  severity : MessageSeverity;
  message : string;
}.

(** Modelled from the spec: the message list attached to a layer
    (util/message_list.js is not part of the sources) holds the diagnostic
    messages of that layer in the order they were reported. *)
Definition MessageList := list Message.

(** Modelled from the spec: [clearMessages] of the absent [MessageList]
    forgets every message reported so far. *)
Definition clearMessages (messages : MessageList) : MessageList := [].

(** Modelled from the spec: [addMessage] of the absent [MessageList] reports
    one more message. *)
Definition addMessage (messages : MessageList) (m : Message) : MessageList :=
  messages ++ [m].

(** The separator of the dimension list: a comma and U+00A0, in UTF-8. *)
Definition commaNbsp : string :=
  String "," (String (ascii_of_nat 194) (String (ascii_of_nat 160) "")).

Section WithCollaborators.

(** Matrix and bound entries are floating-point numbers that this file only
    copies; their type is left open.  [zero] fills a fresh [Float32Array],
    [NaN] is what arithmetic on [undefined] gives, and [fround] is the
    rounding of a store into a [Float32Array]. *)
Context {Num : Type}.
Variables (zero NaN : Num) (fround : Num -> Num).

(** Chunk sources are objects; [SourceId] is their identity. *)
Context {SourceId : Type} `{Countable SourceId}.

Record SliceViewChunkSpecification := {
  chunkDataSize : list Z;            (* Uint32Array *)
  lowerVoxelBound : list Num;
  upperVoxelBound : list Num;
}.

Record SliceViewChunkSource := {
  sourceId : SourceId;
  spec : SliceViewChunkSpecification;
}.

Record SliceViewSingleResolutionSource := {
  chunkSource : SliceViewChunkSource;
  chunkToMultiscaleTransform : list Num;
  lowerClipBound : option (list Num);
  upperClipBound : option (list Num);
}.

(** [RenderLayerTransformOrError]: when [transformError] is present the other
    fields are not read. *)
Record RenderLayerTransformOrError := {
  transformError : option string;
  rank : nat;
  unpaddedRank : nat;
  modelToRenderLayerTransform : list Num;
  channelToRenderLayerDimensions : list Z;
  channelSpaceShape : list Z;
  layerDimensionNames : list string;
}.

Record DisplayDimensionRenderInfo := {
  displayRank : nat;
  globalDimensionNames : list string;
  displayDimensionIndices : list Z;
}.

Record SliceViewSourceOptions := {
  optDisplayRank : nat;
  multiscaleToViewTransform : list Num;
  modelChannelDimensionIndices : list Z;
}.

(** [getChunkTransformParameters] (render/render_coordinate_transform.js) is
    not part of the sources.  It is a parameter that may throw; of its result
    only [channelToChunkDimensionIndices] is inspected here. *)
Context {ChunkTransformParameters : Type}.
Variable channelToChunkDimensionIndices : ChunkTransformParameters -> list Z.
Variable getChunkTransformParameters :
  RenderLayerTransformOrError -> list Num -> Result string ChunkTransformParameters.

(** The second half of [getTransformedSource] derives the display bounds, the
    chunk layout and the effective voxel size through
    [getChunkDisplayTransformParameters] and [ChunkLayout], neither of which
    is part of the sources.  That half is the parameter [displayGeometry],
    which may throw as well. *)
Context {DisplayGeometry : Type}.
Variable displayGeometry :
  DisplayDimensionRenderInfo -> RenderLayerTransformOrError ->
  SliceViewSingleResolutionSource -> ChunkTransformParameters ->
  Result string DisplayGeometry.

(** Render layers are objects as well; [LayerRef] is their identity. *)
Context {LayerRef : Type} `{Countable LayerRef}.

Record FrontendTransformedSource := {
  ts_lowerClipBound : list Num;
  ts_upperClipBound : list Num;
  ts_renderLayer : LayerRef;
  ts_source : SliceViewChunkSource;
  ts_chunkTransform : ChunkTransformParameters;
  ts_geometry : DisplayGeometry;
}.

Definition displayToLayerDimensionIndices : list Z := [0; 1; 2].

(** The read [modelToRenderLayerTransform[(layerRank + 1) * chunkDim +
    layerDim] * factor] with [factor = 1]. *)
Definition readEntry (m : list Num) (layerRank chunkDim : nat)
    (layerDim : option Z) : Num :=
  match layerDim with
  | None => NaN
  | Some l =>
      match index m (Z.of_nat ((layerRank + 1) * chunkDim) + l) with
      | Some x => x
      | None => NaN
      end
  end.

(** The two nested loops that fill [multiscaleToViewTransform]. *)
Definition computeMultiscaleToViewTransform
    (displayRank0 chunkRank layerRank : nat) (m : list Num) : list Num :=
  fold_left
    (fun out displayDim =>
       let layerDim := displayToLayerDimensionIndices !! displayDim in
       if decide (layerDim = Some (-1)) then out
       else
         fold_left
           (fun out chunkDim =>
              <[(displayRank0 * chunkDim + displayDim)%nat :=
                  fround (readEntry m layerRank chunkDim layerDim)]> out)
           (seq 0 chunkRank) out)
    (seq 0 displayRank0)
    (replicate (displayRank0 * chunkRank) zero).

(** The message of the [Error] thrown for a channel dimension whose extent
    does not match. *)
Definition channelMismatchMessage (transform : RenderLayerTransformOrError)
    (channelDim : nat) (size chunkExtent : option Z) : string :=
  "Channel dimension " +:+
  showString
    (i ← channelToRenderLayerDimensions transform !! channelDim;
     index (layerDimensionNames transform) i) +:+
  " has extent " +:+ showNumber size +:+
  " but corresponding chunk dimension has extent " +:+
  showNumber chunkExtent.

(** The loop over the channel dimensions, from [channelDim] on. *)
Fixpoint checkChannelDimensions (transform : RenderLayerTransformOrError)
    (chunkDataSize0 : list Z) (channelDim : nat) (indices : list Z)
  : Result string unit :=
  match indices with
  | [] => Return tt
  | chunkDim :: rest =>
      if decide (chunkDim = -1) then
        checkChannelDimensions transform chunkDataSize0 (S channelDim) rest
      else
        let size := channelSpaceShape transform !! channelDim in
        if decide (index chunkDataSize0 chunkDim ≠ size) then
          Throw (channelMismatchMessage transform channelDim size
                   (index chunkDataSize0 chunkDim))
        else
          checkChannelDimensions transform chunkDataSize0 (S channelDim) rest
  end.

Definition getTransformedSource
    (displayDimensionRenderInfo : DisplayDimensionRenderInfo)
    (transform : RenderLayerTransformOrError) (layer : LayerRef)
    (singleResolutionSource : SliceViewSingleResolutionSource)
  : Result string FrontendTransformedSource :=
  let source := chunkSource singleResolutionSource in
  let lowerClipBound0 :=
    default (lowerVoxelBound (spec source)) (lowerClipBound singleResolutionSource) in
  let upperClipBound0 :=
    default (upperVoxelBound (spec source)) (upperClipBound singleResolutionSource) in
  chunkTransform ←
    getChunkTransformParameters transform
      (chunkToMultiscaleTransform singleResolutionSource);
  _ ← checkChannelDimensions transform (chunkDataSize (spec source)) 0
        (channelToChunkDimensionIndices chunkTransform);
  geometry ←
    displayGeometry displayDimensionRenderInfo transform
      singleResolutionSource chunkTransform;
  Return {| ts_lowerClipBound := lowerClipBound0;
            ts_upperClipBound := upperClipBound0;
            ts_renderLayer := layer;
            ts_source := source;
            ts_chunkTransform := chunkTransform;
            ts_geometry := geometry |}.

(** What a call of [getVolumetricTransformedSources] leaves behind: the
    returned array, the message list it was given, and the chunk sources on
    which [dispose()] was called, in call order. *)
Record TransformedSourcesOutcome := {
  transformedSources : list (list FrontendTransformedSource);
  messagesAfter : MessageList;
  disposed : list SourceId;
}.

Definition returnError (messages : MessageList) (disposed0 : list SourceId)
    (message0 : string) : TransformedSourcesOutcome :=
  {| transformedSources := [];
     messagesAfter :=
       addMessage messages {| severity := error; message := message0 |};
     disposed := disposed0 |}.

(** [Array.from(indices.filter(i => i !== -1), i => names[i]).join(sep)];
    [join] prints a missing name as the empty string. *)
Definition dimensionDesc (info0 : DisplayDimensionRenderInfo) : string :=
  join commaNbsp
    ((fun i => default "" (index (globalDimensionNames info0) i)) <$>
       List.filter (fun i => negb (i =? -1)) (displayDimensionIndices info0)).

(** The options object passed to [getSources]. *)
Definition sourceOptions
    (displayDimensionRenderInfo : DisplayDimensionRenderInfo)
    (transform : RenderLayerTransformOrError) : SliceViewSourceOptions :=
  let layerRank := rank transform in
  let chunkRank := unpaddedRank transform in
  let displayRank0 := displayRank displayDimensionRenderInfo in
  {| optDisplayRank := displayRank0;
     multiscaleToViewTransform :=
       computeMultiscaleToViewTransform displayRank0 chunkRank layerRank
         (modelToRenderLayerTransform transform);
     modelChannelDimensionIndices :=
       channelToRenderLayerDimensions transform |}.

(** [getSources] is called before the [try] block: an exception it throws
    leaves the function.  Everything thrown inside the block is caught. *)
Definition getVolumetricTransformedSources
    (displayDimensionRenderInfo : DisplayDimensionRenderInfo)
    (transform : RenderLayerTransformOrError)
    (getSources : SliceViewSourceOptions ->
                  Result string (list (list SliceViewSingleResolutionSource)))
    (messages : MessageList) (layer : LayerRef)
  : Result string TransformedSourcesOutcome :=
  let messages := clearMessages messages in
  match transformError transform with
  | Some e => Return (returnError messages [] e)
  | None =>
      allSources ←
        getSources (sourceOptions displayDimensionRenderInfo transform);
      match mapM (mapM (getTransformedSource displayDimensionRenderInfo
                          transform layer)) allSources with
      | Return result =>
          Return {| transformedSources := result;
                    messagesAfter := messages;
                    disposed := [] |}
      | Throw e =>
          let released :=
            (fun s => sourceId (chunkSource s)) <$> concat allSources in
          Return (returnError messages released
                    ("Cannot render (" +:+ dimensionDesc displayDimensionRenderInfo
                     +:+ ") cross section: " +:+ e))
      end
  end.

(** *** The [SliceView] class: [getTransformedSources] and
        [updateVisibleLayersNow] *)

(** [serializeTransformedSource] builds the wire form of a transformed source
    from fields that [displayGeometry] stands for; it is a parameter too. *)
Context {Serialized : Type}.
Variable serializeTransformedSource : FrontendTransformedSource -> Serialized.

Definition serializeAllTransformedSources
    (allSources : list (list FrontendTransformedSource))
  : list (list Serialized) :=
  (fun scales : list FrontendTransformedSource =>
     serializeTransformedSource <$> scales) <$> allSources.

(** A render layer object, as far as the update reads and writes it. *)
Record RenderLayerObject := {
  isSliceViewRenderLayer : bool;       (* [instanceof SliceViewRenderLayer] *)
  rpcId : option Z;
  transformValue : RenderLayerTransformOrError;     (* [transform.value] *)
  transformChangedCount : Z;                (* [transform.changed.count] *)
  multiscaleGetSources :
    SliceViewSourceOptions ->
    Result string (list (list SliceViewSingleResolutionSource));
  registration :
    RenderLayer.SliceViewRenderLayer SourceId ChunkTransformParameters;
  messageChildren : list MessageList;       (* [messages.addChild(...)] *)
  layerRefCount : Z;                        (* [addRef()] *)
}.

Record FrontendVisibleLayerSources := {
  li_messages : MessageList;
  li_allSources : list (list FrontendTransformedSource);
  li_transformGeneration : Z;
  li_lastSeenGeneration : Z;
  li_displayDimensionRenderInfo : DisplayDimensionRenderInfo;
}.

Record AddVisibleLayerMessage := {
  msg_id : option Z;
  msg_layerId : option Z;
  msg_sources : list (list Serialized);
}.

(** The [SliceView] object together with the objects it reaches: the render
    layers (by identity), the messages handed to [rpc.invoke], the chunk
    sources disposed of, and the number of [viewChanged] dispatches. *)
Record SliceView := {
  wasDisposed : bool;
  sliceViewRpcId : option Z;
  projectionDisplayDimensionRenderInfo : DisplayDimensionRenderInfo;
  visibleLayers : gmap LayerRef FrontendVisibleLayerSources;
  visibleLayerList : list LayerRef;
  visibleSourcesStale : bool;
  layerObjects : gmap LayerRef RenderLayerObject;
  rpcInvoked : list AddVisibleLayerMessage;
  disposedSources : list SourceId;
  viewChangedDispatched : nat;
}.

(** The loop of [getTransformedSources] that registers every transformed
    source with the layer. *)
Definition registerSources
    (reg : RenderLayer.SliceViewRenderLayer SourceId ChunkTransformParameters)
    (sources : list (list FrontendTransformedSource))
  : RenderLayer.SliceViewRenderLayer SourceId ChunkTransformParameters :=
  fold_left
    (fun reg tsource =>
       RenderLayer.addSource reg (sourceId (ts_source tsource))
         (ts_chunkTransform tsource))
    (concat sources) reg.

(** [SliceView.getTransformedSources(layer, messages)]: the outcome of
    [getVolumetricTransformedSources] and the layer after the registration
    loop. *)
Definition getTransformedSources (this : SliceView) (layerRef : LayerRef)
    (layer : RenderLayerObject) (messages : MessageList)
  : Result string (TransformedSourcesOutcome * RenderLayerObject) :=
  outcome ←
    getVolumetricTransformedSources
      (projectionDisplayDimensionRenderInfo this)
      (transformValue layer) (multiscaleGetSources layer) messages layerRef;
  Return (outcome,
          {| isSliceViewRenderLayer := isSliceViewRenderLayer layer;
             rpcId := rpcId layer;
             transformValue := transformValue layer;
             transformChangedCount := transformChangedCount layer;
             multiscaleGetSources := multiscaleGetSources layer;
             registration :=
               registerSources (registration layer) (transformedSources outcome);
             messageChildren := messageChildren layer;
             layerRefCount := layerRefCount layer |}).

(** The body of the loop of [updateVisibleLayersNow] for one ready layer. *)
Definition updateVisibleLayer (curUpdateGeneration : Z)
    (acc : SliceView * bool) (layerRef : LayerRef)
  : Result string (SliceView * bool) :=
  let '(this, changed) := acc in
  match layerObjects this !! layerRef with
  | None => Return (this, changed)
  | Some layer =>
      if negb (isSliceViewRenderLayer layer) then Return (this, changed)
      else
        let messages : MessageList := [] in
        '(outcome, layer1) ← getTransformedSources this layerRef layer messages;
        let layerInfo :=
          {| li_messages := messagesAfter outcome;
             li_allSources := transformedSources outcome;
             li_transformGeneration := transformChangedCount layer1;
             li_lastSeenGeneration := curUpdateGeneration;
             li_displayDimensionRenderInfo :=
               projectionDisplayDimensionRenderInfo this |} in
        let layer2 :=
          {| isSliceViewRenderLayer := isSliceViewRenderLayer layer1;
             rpcId := rpcId layer1;
             transformValue := transformValue layer1;
             transformChangedCount := transformChangedCount layer1;
             multiscaleGetSources := multiscaleGetSources layer1;
             registration := registration layer1;
             messageChildren :=
               messageChildren layer1 ++ [li_messages layerInfo];
             layerRefCount := layerRefCount layer1 + 1 |} in
        Return
          ({| wasDisposed := wasDisposed this;
              sliceViewRpcId := sliceViewRpcId this;
              projectionDisplayDimensionRenderInfo :=
                projectionDisplayDimensionRenderInfo this;
              visibleLayers := <[layerRef := layerInfo]> (visibleLayers this);
              visibleLayerList := visibleLayerList this ++ [layerRef];
              visibleSourcesStale := visibleSourcesStale this;
              layerObjects := <[layerRef := layer2]> (layerObjects this);
              rpcInvoked :=
                rpcInvoked this ++
                [{| msg_id := sliceViewRpcId this;
                    msg_layerId := rpcId layer2;
                    msg_sources :=
                      serializeAllTransformedSources (li_allSources layerInfo) |}];
              disposedSources := disposedSources this ++ disposed outcome;
              viewChangedDispatched := viewChangedDispatched this |},
           true)
  end.

(** [for (const renderLayer of readyRenderLayers()) {...}]: an exception
    thrown by one iteration ends the loop and leaves the function. *)
Fixpoint updateVisibleLayersLoop (curUpdateGeneration : Z)
    (acc : SliceView * bool) (ready : list LayerRef)
  : Result string (SliceView * bool) :=
  match ready with
  | [] => Return acc
  | layerRef :: rest =>
      acc' ← updateVisibleLayer curUpdateGeneration acc layerRef;
      updateVisibleLayersLoop curUpdateGeneration acc' rest
  end.

(** [updateVisibleLayersNow]; [Date.now()] and the list of ready render
    layers are arguments.  The result pairs the view with the returned
    flag. *)
Definition updateVisibleLayersNow (this : SliceView)
    (now : Z) (readyRenderLayers : list LayerRef)
  : Result string (SliceView * bool) :=
  if wasDisposed this then Return (this, false)
  else
    let this0 :=
      {| wasDisposed := wasDisposed this;
         sliceViewRpcId := sliceViewRpcId this;
         projectionDisplayDimensionRenderInfo :=
           projectionDisplayDimensionRenderInfo this;
         visibleLayers := visibleLayers this;
         visibleLayerList := [];
         visibleSourcesStale := visibleSourcesStale this;
         layerObjects := layerObjects this;
         rpcInvoked := rpcInvoked this;
         disposedSources := disposedSources this;
         viewChangedDispatched := viewChangedDispatched this |} in
    '(this1, changed) ←
      updateVisibleLayersLoop now (this0, false) readyRenderLayers;
    Return
      ({| wasDisposed := wasDisposed this1;
          sliceViewRpcId := sliceViewRpcId this1;
          projectionDisplayDimensionRenderInfo :=
            projectionDisplayDimensionRenderInfo this1;
          visibleLayers := visibleLayers this1;
          visibleLayerList := visibleLayerList this1;
          visibleSourcesStale :=
            if (changed : bool) then true else visibleSourcesStale this1;
          layerObjects := layerObjects this1;
          rpcInvoked := rpcInvoked this1;
          disposedSources := disposedSources this1;
          viewChangedDispatched := S (viewChangedDispatched this1) |},
       changed).

(** What the update records for a layer whose transform is the error [e]. *)
Definition errorLayerInfo (this : SliceView) (layer : RenderLayerObject)
    (now : Z) (e : string) : FrontendVisibleLayerSources :=
  {| li_messages := [{| severity := error; message := e |}];
     li_allSources := [];
     li_transformGeneration := transformChangedCount layer;
     li_lastSeenGeneration := now;
     li_displayDimensionRenderInfo := projectionDisplayDimensionRenderInfo this |}.

(** Two views that differ at most in what they hold about layer [k]. *)
Definition agreeOff (k : LayerRef) (v1 v2 : SliceView) : Prop :=
  projectionDisplayDimensionRenderInfo v1 = projectionDisplayDimensionRenderInfo v2
  ∧ sliceViewRpcId v1 = sliceViewRpcId v2
  ∧ ∀ k', k' ≠ k →
      visibleLayers v1 !! k' = visibleLayers v2 !! k'
      ∧ layerObjects v1 !! k' = layerObjects v2 !! k'.

End WithCollaborators.

End Frontend.

(* --------------------------------------------------------------------- *)
(** ** sliceview/frontend.ts: [SliceViewChunkSource.fetchChunk]            *)
(* --------------------------------------------------------------------- *)

Module FetchChunk.

(** [chunkGridPosition.join()]: the entries, printed, with commas between. *)
Definition gridKey (chunkGridPosition : list Z) : string :=
  join "," (pretty <$> chunkGridPosition).

Section WithChunks.

(** [Payload] is what a chunk carries, [T] what the [transform] callbacks
    return and [RpcError] what a rejected request is rejected with. *)
Context {Payload T RpcError : Type}.

(** The enumeration [ChunkState] is declared in chunk_manager/base.js, which
    is not part of the sources: states are numbers and the constant is a
    parameter. *)
Variable SYSTEM_MEMORY : Z.

Record SliceViewChunk := {
  chunkGridPosition : list Z;
  state : Z;
  payload : Payload;
}.

(** The object [x] a chunk is constructed from. *)
Record ChunkUpdate := {
  x_chunkGridPosition : list Z;
  x_payload : Payload;
}.

(** The constructor of [SliceViewChunk]. *)
Definition newSliceViewChunk (x : ChunkUpdate) : SliceViewChunk :=
  {| chunkGridPosition := x_chunkGridPosition x;
     state := SYSTEM_MEMORY;
     payload := x_payload x |}.

(** A requester is the closure [(chunk) => resolve(transform(chunk))] created
    by one call of [fetchChunk]; it is identified by the number of that call.
    The map and its arrays are shared by all calls on the source. *)
Record SliceViewChunkSource := {
  rpcId : option Z;
  chunks : gmap string SliceViewChunk;
  chunkRequesters : option (gmap string (list nat));
  refCount : Z;
}.

(** Where a call of the [async] function stands. *)
Inductive CallStatus :=
| AwaitingRpc                               (* at [await promiseInvoke(...)] *)
| AwaitingPromise                           (* at [await promise] *)
| Settled (outcome : Result RpcError T).    (* returned or threw *)

Record Call := {
  callKey : string;
  callTransform : SliceViewChunk -> T;
  promise : option T;       (* the value [resolve] was first called with *)
  status : CallStatus;
}.

Record ChunkRequest := {
  req_source : option Z;
  req_chunkGridPosition : list Z;
}.

(** The chunk source, the calls of [fetchChunk] made so far (by call number),
    the requests handed to [rpc.promiseInvoke], oldest first, and the
    requesters that were invoked, in invocation order. *)
Record World := {
  source : SliceViewChunkSource;
  calls : list Call;
  requestsSent : list ChunkRequest;
  notified : list nat;
}.

(** The arrays and maps as the code reads them. *)
Definition requesterMap (this : SliceViewChunkSource) : gmap string (list nat) :=
  default ∅ (chunkRequesters this).

Definition requestersOf (this : SliceViewChunkSource) (key : string) : list nat :=
  default [] (requesterMap this !! key).

(** The chunk that lets [fetchChunk] return at once:
    [existingChunk !== undefined && existingChunk.state <= SYSTEM_MEMORY]. *)
Definition existingUsable (this : SliceViewChunkSource) (key : string)
  : option SliceViewChunk :=
  match chunks this !! key with
  | Some existingChunk =>
      if decide (state existingChunk <= SYSTEM_MEMORY)
      then Some existingChunk else None
  | None => None
  end.

(** [fetchChunk] up to its first [await]. *)
Definition fetchChunk (w : World) (chunkGridPosition0 : list Z)
    (transform : SliceViewChunk -> T) : World :=
  let this := source w in
  let key := gridKey chunkGridPosition0 in
  match existingUsable this key with
  | Some existingChunk =>
      {| source := this;
         calls := calls w ++
                  [{| callKey := key; callTransform := transform;
                      promise := None;
                      status := Settled (Return (transform existingChunk)) |}];
         requestsSent := requestsSent w;
         notified := notified w |}
  | None =>
      let requester := length (calls w) in
      let entry := requestersOf this key in
      {| source :=
           {| rpcId := rpcId this;
              chunks := chunks this;
              chunkRequesters :=
                Some (<[key := entry ++ [requester]]> (requesterMap this));
              refCount := refCount this + 1 |};
         calls := calls w ++
                  [{| callKey := key; callTransform := transform;
                      promise := None; status := AwaitingRpc |}];
         requestsSent :=
           requestsSent w ++
           [{| req_source := rpcId this;
               req_chunkGridPosition := chunkGridPosition0 |}];
         notified := notified w |}
  end.

(** [entry.splice(entry.indexOf(requester), 1)]; for an absent requester
    [indexOf] is [-1] and [splice] removes the last element. *)
Definition spliceOut (requester : nat) (entry : list nat) : list nat :=
  match list_find (fun r => r = requester) entry with
  | Some (entryIndex, _) => delete entryIndex entry
  | None => take (length entry - 1) entry
  end.

(** The [finally] block. *)
Definition finallyBlock (this : SliceViewChunkSource) (key : string)
    (requester : nat) : SliceViewChunkSource :=
  let entry := spliceOut requester (requestersOf this key) in
  let map1 :=
    if decide (length entry = 0%nat)
    then delete key (requesterMap this)
    else <[key := entry]> (requesterMap this) in
  {| rpcId := rpcId this;
     chunks := chunks this;
     chunkRequesters := if decide (size map1 = 0%nat) then None else Some map1;
     refCount := refCount this - 1 |}.

Definition setCall (w : World) (id : nat) (c : Call)
    (this : SliceViewChunkSource) : World :=
  {| source := this;
     calls := <[id := c]> (calls w);
     requestsSent := requestsSent w;
     notified := notified w |}.

(** The call leaves through the [finally] block with the given outcome. *)
Definition settle (w : World) (id : nat) (c : Call)
    (outcome : Result RpcError T) : World :=
  setCall w id
    {| callKey := callKey c; callTransform := callTransform c;
       promise := promise c; status := Settled outcome |}
    (finallyBlock (source w) (callKey c) id).

(** The request promise of call [id] resolves: the call moves on to
    [await promise]. *)
Definition rpcResolved (w : World) (id : nat) : World :=
  match calls w !! id with
  | Some c =>
      match status c with
      | AwaitingRpc =>
          setCall w id
            {| callKey := callKey c; callTransform := callTransform c;
               promise := promise c; status := AwaitingPromise |}
            (source w)
      | _ => w
      end
  | None => w
  end.

(** The request promise of call [id] rejects (for instance on
    cancellation): the exception leaves through the [finally] block. *)
Definition rpcRejected (w : World) (id : nat) (e : RpcError) : World :=
  match calls w !! id with
  | Some c =>
      match status c with
      | AwaitingRpc => settle w id c (Throw e)
      | _ => w
      end
  | None => w
  end.

(** The continuation of [await promise] runs once the promise holds a
    value. *)
Definition resume (w : World) (id : nat) : World :=
  match calls w !! id with
  | Some c =>
      match status c, promise c with
      | AwaitingPromise, Some v => settle w id c (Return v)
      | _, _ => w
      end
  | None => w
  end.

(** [requester(chunk)], that is [resolve(transform(chunk))]: only the first
    [resolve] of a promise counts. *)
Definition invokeRequester (chunk : SliceViewChunk) (w : World) (id : nat)
  : World :=
  match calls w !! id with
  | Some c =>
      {| source := source w;
         calls :=
           <[id := {| callKey := callKey c; callTransform := callTransform c;
                      promise :=
                        match promise c with
                        | Some v => Some v
                        | None => Some (callTransform c chunk)
                        end;
                      status := status c |}]> (calls w);
         requestsSent := requestsSent w;
         notified := notified w ++ [id] |}
  | None => w
  end.

(** Modelled from the spec: the notification of the chunk manager
    (chunk_manager/frontend.js is not part of the sources).  "On fetch
    completion (success): transitions chunk to SYSTEM_MEMORY, fires a
    per-source chunk ready notification", and "waiters are notified in the
    order they registered": the chunk is constructed, stored under its key,
    and the requesters registered for that key are invoked first to last. *)
Definition chunkReady (w : World) (x : ChunkUpdate) : World :=
  let chunk := newSliceViewChunk x in
  let key := gridKey (x_chunkGridPosition x) in
  let this := source w in
  fold_left (invokeRequester chunk) (requestersOf this key)
    {| source :=
         {| rpcId := rpcId this;
            chunks := <[key := chunk]> (chunks this);
            chunkRequesters := chunkRequesters this;
            refCount := refCount this |};
       calls := calls w;
       requestsSent := requestsSent w;
       notified := notified w |}.

(** What can happen on the single thread of the rendering context. *)
Inductive Event :=
| DoFetchChunk (chunkGridPosition0 : list Z) (transform : SliceViewChunk -> T)
| RpcResolved (id : nat)
| RpcRejected (id : nat) (e : RpcError)
| Resume (id : nat)
| ChunkReady (x : ChunkUpdate).

Definition step (w : World) (ev : Event) : World :=
  match ev with
  | DoFetchChunk pos transform => fetchChunk w pos transform
  | RpcResolved id => rpcResolved w id
  | RpcRejected id e => rpcRejected w id e
  | Resume id => resume w id
  | ChunkReady x => chunkReady w x
  end.

Definition run (w : World) (events : list Event) : World :=
  fold_left step events w.

(** What a call has produced, if it has returned. *)
Definition resultOf (w : World) (id : nat) : option T :=
  c ← calls w !! id;
  match status c with
  | Settled (Return v) => Some v
  | _ => None
  end.

(** Requesters are numbers of calls already made. *)
Definition wellFormed (w : World) : Prop :=
  ∀ key ids id,
    requesterMap (source w) !! key = Some ids → id ∈ ids →
    (id < length (calls w))%nat.

(** What holds of the call numbered [id], made for [key] with [tr], once the
    events [seen] have happened: its promise holds a value only if a chunk
    for [key] was announced and the value is [tr] of that chunk; it has
    returned a value only if that is the value of its promise; and its
    requester is filed under no other key. *)
Definition tracks (id : nat) (key : string) (tr : SliceViewChunk -> T)
    (seen : list Event) (w : World) : Prop :=
  ∃ c, calls w !! id = Some c ∧ callKey c = key ∧ callTransform c = tr
    ∧ (∀ v, promise c = Some v →
         ∃ x, ChunkReady x ∈ seen
           ∧ gridKey (x_chunkGridPosition x) = key
           ∧ v = tr (newSliceViewChunk x))
    ∧ (∀ v, status c = Settled (Return v) → promise c = Some v)
    ∧ (∀ k ids, requesterMap (source w) !! k = Some ids → id ∈ ids → k = key).

(** The events that let the calls [ids] run to their end, one after the
    other: the request is acknowledged and the continuation runs. *)
Definition settleEvents (ids : list nat) : list Event :=
  ids ≫= (fun id => [RpcResolved id; Resume id]).

(** A source without chunks, requesters or references, and no history. *)
Definition emptyWorld (rpcId0 : option Z) : World :=
  {| source := {| rpcId := rpcId0; chunks := ∅; chunkRequesters := None;
                  refCount := 0 |};
     calls := []; requestsSent := []; notified := [] |}.

(** [n] concurrent calls for one position, one per transform. *)
Definition fetchAll (w : World) (pos : list Z)
    (transforms : list (SliceViewChunk -> T)) : World :=
  fold_left (fun w transform => fetchChunk w pos transform) transforms w.

End WithChunks.

Arguments SliceViewChunk : clear implicits.
Arguments ChunkUpdate : clear implicits.
Arguments SliceViewChunkSource : clear implicits.
Arguments Call : clear implicits.
Arguments CallStatus : clear implicits.
Arguments World : clear implicits.
Arguments Event : clear implicits.

End FetchChunk.

(* --------------------------------------------------------------------- *)
(** ** Concrete collaborators and inputs                                   *)
(* --------------------------------------------------------------------- *)

(** Instances of the parameters above and small inputs, on which the
    statements of Part II are exercised. *)
Module Samples.

(** A three-way comparison of strings by character codes, in the way of
    [a < b ? -1 : a > b ? 1 : 0]. *)
Definition codeUnitCompare (a b : string) : Z :=
  match String.compare a b with
  | Lt => -1
  | Eq => 0
  | Gt => 1
  end.

Definition options : list string := ["abd"; "b"; "abc"; "ab"; "a"].

(** A render layer with source 1 registered twice and source 2 once. *)
Definition layer12 : RenderLayer.SliceViewRenderLayer nat Z :=
  {| RenderLayer.visibleSources :=
       {[ 1%nat := {| RenderLayer.source := 1%nat; RenderLayer.refCount := 2;
                      RenderLayer.chunkTransform := 10 |};
          2%nat := {| RenderLayer.source := 2%nat; RenderLayer.refCount := 1;
                      RenderLayer.chunkTransform := 20 |} ]};
     RenderLayer.visibleSourcesList_ := [1%nat; 2%nat] |}.

(** A 2 x 3 chunk of bytes. *)
Definition chunk23 : UncompressedChunk.UncompressedVolumeChunk Z :=
  {| UncompressedChunk.data := Some [10; 11; 20; 21; 30; 31];
     UncompressedChunk.chunkDataSize := [2; 3]%N;
     UncompressedChunk.chunkFormat_dataType := UINT8;
     UncompressedChunk.source_spec_fillValue :=
       UncompressedChunk.Number (Some 0) |}.

(** The byte sizes the names of the element types state. *)
Definition dataTypeBytes (t : DataType) : N :=
  match t with
  | UINT8 | INT8 => 1
  | UINT16 | INT16 => 2
  | UINT32 | INT32 | FLOAT32 => 4
  | UINT64 => 8
  end%N.

(** A typed-array view: the constructor chosen for the element type and the
    bytes of the [ArrayBuffer] it looks at. *)
Record TypedArrayView := {
  viewType : DataType;
  viewBuffer : list Byte.byte;
}.

Definition makeView (dataType : DataType) (buffer : list Byte.byte)
  : Result string TypedArrayView :=
  Return {| viewType := dataType; viewBuffer := buffer |}.

(** Byte swap of every element of [n] bytes. *)
Fixpoint swapEach (fuel n : nat) (bytes : list Byte.byte) : list Byte.byte :=
  match fuel with
  | O => bytes
  | S fuel' =>
      match bytes with
      | [] => []
      | _ => rev (take n bytes) ++ swapEach fuel' n (drop n bytes)
      end
  end.

Definition swapBytes (view : TypedArrayView) (elementBytes : N)
    (_ : RawDecoder.Endianness) : Result string TypedArrayView :=
  Return {| viewType := viewType view;
            viewBuffer :=
              swapEach (length (viewBuffer view)) (N.to_nat elementBytes)
                (viewBuffer view) |}.

Definition storeView (_ : RawDecoder.VolumeChunk) (v : TypedArrayView)
  : Result string TypedArrayView :=
  Return v.

Definition chunkU16 : RawDecoder.VolumeChunk :=
  {| RawDecoder.source_spec_dataType := UINT16;
     RawDecoder.chunkDataSize := [2; 1]%N |}.

Definition fourBytes : list Byte.byte :=
  [Byte.x01; Byte.x02; Byte.x03; Byte.x04].

(** A URL parser for strings of the form ["http://host" ++ path]; everything
    else is rejected. *)
Definition samplePathname (input : string) : option string :=
  if String.prefix "http://host" input
  then Some (String.substring 11 (String.length input - 11) input)
  else None.

(** A file tree and what can be reached from it: a folder owns one property
    per entry and inherits none, a file is a stored response, whose
    properties are the methods [arrayBuffer] and [text]; reading a property
    of [null] throws. *)
#[warnings="-register-all"]
Inductive TreeValue :=
| Folder (entries : list (string * TreeValue))
| File (body : string)
| Method (name : string) (body : string)
| Null.

Definition treeGet (v : TreeValue) (part : string)
  : Result string (option TreeValue) :=
  match v with
  | Folder entries =>
      Return (snd <$> List.find (fun e => bool_decide (fst e = part)) entries)
  | File body =>
      Return (if bool_decide (part = "arrayBuffer" ∨ part = "text")
              then Some (Method part body) else None)
  | Method _ _ => Return None
  | Null => Throw "TypeError: Cannot read properties of null"
  end.

Definition sampleTree : TreeValue :=
  Folder [("volume", Folder [("0.0.0", File "chunk bytes")]);
          ("nothing", Null)].

(** The same tree once the chunk 9.9.9 has been stored as well. *)
Definition laterTree : TreeValue :=
  Folder [("volume", Folder [("0.0.0", File "chunk bytes");
                             ("9.9.9", File "more bytes")]);
          ("nothing", Null)].

(** Collaborators of [getVolumetricTransformedSources]: matrix entries are
    integers or [NaN], the chunk transform is just the channel-to-chunk
    index array, here always "channel 0 is chunk dimension 3", and the
    display geometry is trivial. *)
Definition sampleChunkTransform
    (_ : Frontend.RenderLayerTransformOrError (Num := option Z))
    (_ : list (option Z)) : Result string (list Z) :=
  Return [3].

Definition sampleGeometry (_ : Frontend.DisplayDimensionRenderInfo)
    (_ : Frontend.RenderLayerTransformOrError (Num := option Z))
    (_ : Frontend.SliceViewSingleResolutionSource (Num := option Z) (SourceId := nat))
    (_ : list Z) : Result string unit :=
  Return tt.

Definition sampleSerialize
    (ts : Frontend.FrontendTransformedSource (Num := option Z) (SourceId := nat)
            (ChunkTransformParameters := list Z) (DisplayGeometry := unit)
            (LayerRef := nat)) : nat :=
  Frontend.sourceId (Frontend.ts_source ts).

Definition xyz : Frontend.DisplayDimensionRenderInfo :=
  {| Frontend.displayRank := 3;
     Frontend.globalDimensionNames := ["x"; "y"; "z"];
     Frontend.displayDimensionIndices := [0; 1; 2] |}.

(** A transform marked as an error by an upstream layer. *)
Definition rankMismatch : Frontend.RenderLayerTransformOrError :=
  {| Frontend.transformError := Some "rank mismatch";
     Frontend.rank := 0; Frontend.unpaddedRank := 0;
     Frontend.modelToRenderLayerTransform := @nil (option Z);
     Frontend.channelToRenderLayerDimensions := [];
     Frontend.channelSpaceShape := [];
     Frontend.layerDimensionNames := [] |}.

(** A valid transform with one channel dimension, [c^], of extent 3. *)
Definition withChannel : Frontend.RenderLayerTransformOrError :=
  {| Frontend.transformError := None;
     Frontend.rank := 4; Frontend.unpaddedRank := 4;
     Frontend.modelToRenderLayerTransform :=
       Some <$> [1; 0; 0; 0; 0;  0; 1; 0; 0; 0;  0; 0; 1; 0; 0;  0; 0; 0; 1; 0];
     Frontend.channelToRenderLayerDimensions := [3];
     Frontend.channelSpaceShape := [3];
     Frontend.layerDimensionNames := ["x"; "y"; "z"; "c^"] |}.

(** A chunk source whose chunks have 4 channels. *)
Definition fourChannelSource
  : Frontend.SliceViewSingleResolutionSource (Num := option Z) (SourceId := nat) :=
  {| Frontend.chunkSource :=
       {| Frontend.sourceId := 5%nat;
          Frontend.spec :=
            {| Frontend.chunkDataSize := [64; 64; 64; 4];
               Frontend.lowerVoxelBound := Some <$> [0; 0; 0; 0];
               Frontend.upperVoxelBound := Some <$> [128; 128; 128; 4] |} |};
     Frontend.chunkToMultiscaleTransform := [];
     Frontend.lowerClipBound := None;
     Frontend.upperClipBound := None |}.

Definition oneSource (_ : Frontend.SliceViewSourceOptions (Num := option Z))
  : Result string
      (list (list (Frontend.SliceViewSingleResolutionSource
                     (Num := option Z) (SourceId := nat)))) :=
  Return [[fourChannelSource]].

(** A render layer whose transform is the error, and a view that knows it
    as layer 1. *)
Definition brokenLayer
  : Frontend.RenderLayerObject (Num := option Z) (SourceId := nat)
      (ChunkTransformParameters := list Z) :=
  {| Frontend.isSliceViewRenderLayer := true;
     Frontend.rpcId := Some 11;
     Frontend.transformValue := rankMismatch;
     Frontend.transformChangedCount := 4;
     Frontend.multiscaleGetSources := oneSource;
     Frontend.registration :=
       {| RenderLayer.visibleSources := ∅;
          RenderLayer.visibleSourcesList_ := [] |};
     Frontend.messageChildren := [];
     Frontend.layerRefCount := 1 |}.

Definition sampleView
  : Frontend.SliceView (Num := option Z) (SourceId := nat)
      (ChunkTransformParameters := list Z) (DisplayGeometry := unit)
      (LayerRef := nat) (Serialized := nat) :=
  {| Frontend.wasDisposed := false;
     Frontend.sliceViewRpcId := Some 3;
     Frontend.projectionDisplayDimensionRenderInfo := xyz;
     Frontend.visibleLayers := ∅;
     Frontend.visibleLayerList := [];
     Frontend.visibleSourcesStale := false;
     Frontend.layerObjects := {[ 1%nat := brokenLayer ]};
     Frontend.rpcInvoked := [];
     Frontend.disposedSources := [];
     Frontend.viewChangedDispatched := 0 |}.

(** A source without chunks on which nothing was requested, for callbacks
    that return the state of the chunk they are given. *)
Definition idleWorld : FetchChunk.World unit Z unit :=
  FetchChunk.emptyWorld (Some 7).

Definition stateOf (chunk : FetchChunk.SliceViewChunk unit) : Z :=
  FetchChunk.state chunk.

Definition origin : FetchChunk.ChunkUpdate unit :=
  {| FetchChunk.x_chunkGridPosition := [0; 0; 0];
     FetchChunk.x_payload := tt |}.

(** The same source once the chunk at the origin has been announced, with
    SYSTEM_MEMORY numbered 1. *)
Definition residentWorld : FetchChunk.World unit Z unit :=
  FetchChunk.chunkReady 1 idleWorld origin.

End Samples.

(* --------------------------------------------------------------------- *)
(** ** sliceview/renderlayer.ts: sequences of [addSource] and
       [removeSource]                                                      *)
(* --------------------------------------------------------------------- *)

Module RenderLayerRuns.

Import RenderLayer.

Section WithSource.

Context {Source : Type} `{Countable Source}.
Context {ChunkTransformParameters : Type}.

(** [n] calls [addSource(source, chunkTransform)] in a row. *)
Definition addTimes (n : nat) (source0 : Source)
    (chunkTransform0 : ChunkTransformParameters)
    (this : SliceViewRenderLayer Source ChunkTransformParameters)
  : SliceViewRenderLayer Source ChunkTransformParameters :=
  Nat.iter n (fun this => addSource this source0 chunkTransform0) this.

(** [n] calls [removeSource(source)] in a row; the first that throws ends
    the sequence. *)
Fixpoint removeTimes (n : nat) (source0 : Source)
    (this : SliceViewRenderLayer Source ChunkTransformParameters)
  : Result string (SliceViewRenderLayer Source ChunkTransformParameters) :=
  match n with
  | O => Return this
  | S n' =>
      this' ← removeSource this source0;
      removeTimes n' source0 this'
  end.

(** What the two methods rely on and keep: every entry is filed under its
    own source with a count of at least one, and the cached list names
    registered sources only. *)
Definition registered
    (this : SliceViewRenderLayer Source ChunkTransformParameters) : Prop :=
  (∀ k info, visibleSources this !! k = Some info →
     source info = k ∧ 1 <= refCount info)
  ∧ (∀ s, s ∈ visibleSourcesList_ this → is_Some (visibleSources this !! s)).

End WithSource.

End RenderLayerRuns.

(* --------------------------------------------------------------------- *)
(** ** sliceview/uncompressed_chunk_format.ts: positions inside a chunk    *)
(* --------------------------------------------------------------------- *)

Module ChunkPositions.

(** A position that lies inside the chunk: one coordinate per dimension,
    each below the extent of its dimension. *)
Definition inChunk (chunkDataSize dataPosition : list N) : Prop :=
  Forall2 (fun p n => (p < n)%N) dataPosition chunkDataSize.

(** The number of elements of a chunk of the given shape. *)
Definition numElements (chunkDataSize : list N) : N :=
  foldr N.mul 1%N chunkDataSize.

End ChunkPositions.

(* --------------------------------------------------------------------- *)
(** ** util/http_request.ts: paths                                         *)
(* --------------------------------------------------------------------- *)

Module Paths.

(** A path component: a string without a slash. *)
Fixpoint noSlash (s : string) : bool :=
  match s with
  | EmptyString => true
  | String c rest => negb (Ascii.eqb c "/") && noSlash rest
  end.

(** [part.length > 0], the filter of [getFile]. *)
Definition nonEmpty (part : string) : bool :=
  negb (Nat.eqb (String.length part) 0).

End Paths.

(* --------------------------------------------------------------------- *)
(** ** sliceview/frontend.ts: reading a view and its layers                *)
(* --------------------------------------------------------------------- *)

Module ViewReads.

Import Frontend.

Section WithLayers.

Context {Num SourceId ChunkTransformParameters LayerRef : Type}.
Context `{Countable SourceId} `{Countable LayerRef}.

Abbreviation Objects :=
  (gmap LayerRef (@RenderLayerObject Num SourceId _ _ ChunkTransformParameters)).

(** [renderLayer instanceof SliceViewRenderLayer] for the layer object behind
    a reference. *)
Definition isSliceViewLayer (objects : Objects) (k : LayerRef) : bool :=
  match objects !! k with
  | Some layer => isSliceViewRenderLayer layer
  | None => false
  end.

(** [renderLayer.rpcId] for the layer object behind a reference. *)
Definition layerRpcId (objects : Objects) (k : LayerRef) : option Z :=
  layer ← objects !! k; rpcId layer.

(** The reference count a layer holds for a chunk source: [refCount] of its
    entry, and 0 when it has none. *)
Definition refCountOf
    (reg : RenderLayer.SliceViewRenderLayer SourceId ChunkTransformParameters)
    (s : SourceId) : Z :=
  match RenderLayer.visibleSources reg !! s with
  | Some entry => RenderLayer.refCount entry
  | None => 0
  end.

End WithLayers.

End ViewReads.

(* --------------------------------------------------------------------- *)
(** ** sliceview/frontend.ts: the calls of [fetchChunk] in flight          *)
(* --------------------------------------------------------------------- *)

Module FetchChunkRuns.

Import FetchChunk.

Section WithChunks.

Context {Payload T RpcError : Type}.

(** A call that has neither returned nor thrown. *)
Definition isPending (c : Call Payload T RpcError) : bool :=
  match status c with
  | Settled _ => false
  | _ => true
  end.

(** The number of calls in flight. *)
Definition pendingCalls (l : list (Call Payload T RpcError)) : Z :=
  Z.of_nat (length (List.filter isPending l)).

(** The requester arrays name the calls in flight and nothing else: the
    array of a key holds, once each, the numbers of the calls for that key
    that have not settled; no array is empty; and the map is not kept when
    it is empty. *)
Definition waitersExact (w : World Payload T RpcError) : Prop :=
  (∀ key, NoDup (requestersOf (source w) key))
  ∧ (∀ key id,
       id ∈ requestersOf (source w) key
       ↔ ∃ c, calls w !! id = Some c ∧ callKey c = key ∧ isPending c = true)
  ∧ (∀ key ids, requesterMap (source w) !! key = Some ids → ids ≠ [])
  ∧ chunkRequesters (source w) ≠ Some ∅.

End WithChunks.

End FetchChunkRuns.

(* --------------------------------------------------------------------- *)
(** ** datasource/index.ts                                                 *)
(* --------------------------------------------------------------------- *)

Module DataSource.

(** Strings are sequences of code units, and the code units of this
    embedding are the 256 below U+0100; indices and lengths count them as
    the source does. *)

Definition quote : string := String (ascii_of_nat 34) "".

(** What a function of this file throws: an [Error] with its message, the
    [TypeError] of a property read on [null], or the value [null]. *)
Inductive Thrown :=
| Error (message : string)
| TypeError
| ThrownNull.

(** *** String methods *)

(** [s.indexOf(search)], counted from position [i] of the whole string. *)
Fixpoint indexOfFrom (search s : string) (i : nat) : option nat :=
  match s with
  | EmptyString => if String.prefix search s then Some i else None
  | String _ s' =>
      if String.prefix search s then Some i else indexOfFrom search s' (S i)
  end.

Definition indexOf (s search : string) : Z :=
  match indexOfFrom search s 0 with
  | Some i => Z.of_nat i
  | None => -1
  end.

(** [s.lastIndexOf(search)], counted from position [i] of the whole
    string. *)
Fixpoint lastIndexOfFrom (search s : string) (i : nat) : option nat :=
  match s with
  | EmptyString => if String.prefix search s then Some i else None
  | String _ s' =>
      match lastIndexOfFrom search s' (S i) with
      | Some j => Some j
      | None => if String.prefix search s then Some i else None
      end
  end.

Definition lastIndexOf (s search : string) : Z :=
  match lastIndexOfFrom search s 0 with
  | Some i => Z.of_nat i
  | None => -1
  end.

(** The part of [s] from position [n] on. *)
Fixpoint dropString (n : nat) (s : string) : string :=
  match n, s with
  | O, _ => s
  | S n', String _ s' => dropString n' s'
  | S _, EmptyString => EmptyString
  end.

(** [s.substring(start, end)]: both ends are clamped to the string and
    swapped when out of order; a missing [end] is the length. *)
Definition substring (s : string) (start : Z) (end_ : option Z) : string :=
  let len := Z.of_nat (String.length s) in
  let clamp x := Z.max 0 (Z.min x len) in
  let a := clamp start in
  let b := match end_ with Some e => clamp e | None => len end in
  String.substring (Z.to_nat (Z.min a b)) (Z.to_nat (Z.max a b - Z.min a b)) s.

(** [s.endsWith(suffix)] *)
Definition endsWith (s suffix : string) : bool :=
  (String.length suffix <=? String.length s)%nat
  && String.eqb
       (String.substring (String.length s - String.length suffix)
          (String.length suffix) s)
       suffix.

(** *** The separator helpers *)

Definition findSourceGroupBasedOnSeparator (path : string)
    (separator : option string) : Z :=
  let separator :=
    match separator with
    | Some separator => separator
    | None => if decide (indexOf path "/" = -1) then ":" else "/"
    end in
  let index := lastIndexOf path separator in
  if decide (index = -1) then 0 else index + 1.

Definition suggestLayerNameBasedOnSeparator (path : string)
    (separator : option string) : string :=
  let groupIndex := findSourceGroupBasedOnSeparator path separator in
  substring path groupIndex None.

(** *** [protocolPattern] *)

Definition inRange (lo hi : nat) (c : ascii) : bool :=
  (lo <=? nat_of_ascii c)%nat && (nat_of_ascii c <=? hi)%nat.

(** [[a-zA-Z]] *)
Definition isLetter (c : ascii) : bool :=
  inRange 97 122 c || inRange 65 90 c.

(** [[a-zA-Z0-9-+_]]: after the range [0-9] the hyphen stands for itself. *)
Definition isProtocolChar (c : ascii) : bool :=
  isLetter c || inRange 48 57 c
  || Ascii.eqb c "-" || Ascii.eqb c "+" || Ascii.eqb c "_".

(** What [.] does not match: line feed and carriage return (the two other
    line terminators are above U+00FF). *)
Definition isLineTerminator (c : ascii) : bool :=
  (nat_of_ascii c =? 10)%nat || (nat_of_ascii c =? 13)%nat.

(** The last group and the end anchor, any characters up to the end of
    input, match all of [s]. *)
Fixpoint dotStar (s : string) : bool :=
  match s with
  | EmptyString => true
  | String c s' => negb (isLineTerminator c) && dotStar s'
  end.

(** The longest prefix of characters of a class, and the rest. *)
Fixpoint span (p : ascii -> bool) (s : string) : string * string :=
  match s with
  | EmptyString => (EmptyString, EmptyString)
  | String c s' =>
      if p c then let '(a, b) := span p s' in (String c a, b)
      else (EmptyString, s)
  end.

(** Every character of [s] is of the class. *)
Fixpoint allChars (p : ascii -> bool) (s : string) : bool :=
  match s with
  | EmptyString => true
  | String c s' => p c && allChars p s'
  end.

(** The strings that [[a-zA-Z][a-zA-Z0-9-+_]*] matches in full. *)
Definition isProtocolName (name : string) : bool :=
  match name with
  | EmptyString => false
  | String c rest => isLetter c && allChars isProtocolChar rest
  end.

(** [url.match(protocolPattern)], where the pattern is an optional part, a
    captured name [[a-zA-Z][a-zA-Z0-9-+_]*] followed by a colon and two
    slashes, and then a captured run of any characters up to the end of
    input.  [None] is [null]; otherwise the two groups, the first of them [undefined] when the
    optional part was skipped.  The optional part is tried first, with the
    longest run of name characters: a shorter run is followed by a name
    character, not by the colon.  When it or what follows it fails, the
    pattern is tried without it. *)
Definition protocolPattern (url : string) : option (option string * string) :=
  let skipped := if dotStar url then Some (None, url) else None in
  match url with
  | String c _ =>
      if isLetter c then
        let '(name, rest) := span isProtocolChar url in
        if String.prefix "://" rest then
          let providerUrl := substring rest 3 None in
          if dotStar providerUrl then Some (Some name, providerUrl)
          else skipped
        else skipped
      else skipped
  | EmptyString => skipped
  end.

(** *** Providers and the registry *)

Record NormalizeUrlOptions := {
  nu_url : string;
  nu_providerUrl : string;
  nu_providerProtocol : string;
}.

Inductive LegacyType := mesh | skeletons | single_mesh.

Record ConvertLegacyUrlOptions := {
  cl_url : string;
  cl_type : LegacyType;
  cl_providerUrl : string;
  cl_providerProtocol : string;
}.

(** A provider, as far as the registry uses it.  The [registry] field of the
    options is the registry that makes the call and is left out; the two
    optional methods are [None] when the provider does not define them. *)
Record DataSourceProvider := {
  description : option string;
  normalizeUrl_ : NormalizeUrlOptions -> Result Thrown string;
  convertLegacyUrl_ : ConvertLegacyUrlOptions -> Result Thrown string;
  suggestLayerName_ : option (string -> Result Thrown string);
  findSourceGroup_ : option (string -> Result Thrown Z);
}.

(** The methods of the base class. *)
Definition baseNormalizeUrl (options : NormalizeUrlOptions)
  : Result Thrown string := Return (nu_url options).

Definition baseConvertLegacyUrl (options : ConvertLegacyUrlOptions)
  : Result Thrown string := Return (cl_url options).

Definition LocalDataSourceProvider : DataSourceProvider :=
  {| description := Some "Local in-memory";
     normalizeUrl_ := baseNormalizeUrl;
     convertLegacyUrl_ := baseConvertLegacyUrl;
     suggestLayerName_ := None;
     findSourceGroup_ := None |}.

(** A [Map] with string keys: the entries in insertion order. *)
Fixpoint mapGet {V : Type} (m : list (string * V)) (key : string) : option V :=
  match m with
  | [] => None
  | (k, v) :: m' => if decide (k = key) then Some v else mapGet m' key
  end.

(** [map.set(key, value)]: an existing key keeps its place. *)
Fixpoint mapSet {V : Type} (m : list (string * V)) (key : string) (value : V)
  : list (string * V) :=
  match m with
  | [] => [(key, value)]
  | (k, v) :: m' =>
      if decide (k = key) then (key, value) :: m'
      else (k, v) :: mapSet m' key value
  end.

Record DataSourceProviderRegistry := {
  dataSources : list (string * DataSourceProvider);
}.

(** The registry as the constructor leaves it. *)
Definition newRegistry : DataSourceProviderRegistry :=
  {| dataSources := [("local", LocalDataSourceProvider)] |}.

Definition register (this : DataSourceProviderRegistry) (name : string)
    (dataSource : DataSourceProvider) : DataSourceProviderRegistry :=
  {| dataSources := mapSet (dataSources this) name dataSource |}.

Definition formMessage : string :=
  "Data source URL must have the form " +:+ quote +:+ "<protocol>://<path>"
  +:+ quote +:+ ".".

(** [JSON.stringify] of a protocol name, which has nothing to escape. *)
Definition unsupportedMessage (providerProtocol : string) : string :=
  "Unsupported data source: " +:+ quote +:+ providerProtocol +:+ quote +:+ ".".

Definition getProvider (this : DataSourceProviderRegistry) (url : string)
  : Result Thrown (DataSourceProvider * string * string) :=
  match protocolPattern url with
  | None | Some (None, _) => Throw (Error formMessage)
  | Some (Some providerProtocol, providerUrl) =>
      match mapGet (dataSources this) providerProtocol with
      | None => Throw (Error (unsupportedMessage providerProtocol))
      | Some factory => Return (factory, providerUrl, providerProtocol)
      end
  end.

(** [try { ... } catch { return options.url; }] *)
Definition convertLegacyUrl (this : DataSourceProviderRegistry)
    (url : string) (type : LegacyType) : string :=
  match
    '(provider, providerUrl, providerProtocol) ← getProvider this url;
    convertLegacyUrl_ provider
      {| cl_url := url; cl_type := type; cl_providerUrl := providerUrl;
         cl_providerProtocol := providerProtocol |}
  with
  | Return converted => converted
  | Throw _ => url
  end.

Definition normalizeUrl (this : DataSourceProviderRegistry) (url : string)
  : string :=
  match
    '(provider, providerUrl, providerProtocol) ← getProvider this url;
    normalizeUrl_ provider
      {| nu_url := url; nu_providerUrl := providerUrl;
         nu_providerProtocol := providerProtocol |}
  with
  | Return normalized => normalized
  | Throw _ => url
  end.

Record CompletionResult := {
  offset : Z;
  completions : list Completion.CompletionWithDescription;
}.

Section WithCompare.

Variable defaultStringCompare : string -> string -> Z.

(** [completeUrl]: the promise is fulfilled ([Return]) or rejected
    ([Throw]).  The match result is used without a test for [null]. *)
Definition completeUrl (this : DataSourceProviderRegistry) (url : string)
  : Result Thrown CompletionResult :=
  match protocolPattern url with
  | None => Throw TypeError
  | Some (None, _) =>
      Return
        {| offset := 0;
           completions :=
             Completion.getPrefixMatchesWithDescriptions defaultStringCompare
               url (dataSources this)
               (fun entry => fst entry +:+ "://")
               (fun entry => description (snd entry)) |}
  | Some (Some _, _) => Throw ThrownNull
  end.

End WithCompare.

Definition suggestLayerName (this : DataSourceProviderRegistry) (url : string)
  : Result Thrown string :=
  '(dataSource, path, _) ← getProvider this url;
  let path :=
    if endsWith path "/"
    then substring path 0 (Some (Z.of_nat (String.length path) - 1))
    else path in
  match suggestLayerName_ dataSource with
  | Some suggestor => suggestor path
  | None => Return (suggestLayerNameBasedOnSeparator path None)
  end.

Definition findSourceGroup (this : DataSourceProviderRegistry) (url : string)
  : Result Thrown Z :=
  '(dataSource, path, dataSourceName) ← getProvider this url;
  let helper :=
    match findSourceGroup_ dataSource with
    | Some helper => helper
    | None => fun path => Return (findSourceGroupBasedOnSeparator path None)
    end in
  group ← helper path;
  Return (group + Z.of_nat (String.length dataSourceName) + 3).

End DataSource.

(* --------------------------------------------------------------------- *)
(** ** Further concrete inputs                                             *)
(* --------------------------------------------------------------------- *)

Module MoreSamples.

(** A chunk source whose chunks have 3 channels, as the transform
    [Samples.withChannel] expects. *)
Definition threeChannelSource
  : Frontend.SliceViewSingleResolutionSource (Num := option Z) (SourceId := nat) :=
  {| Frontend.chunkSource :=
       {| Frontend.sourceId := 6%nat;
          Frontend.spec :=
            {| Frontend.chunkDataSize := [64; 64; 64; 3];
               Frontend.lowerVoxelBound := Some <$> [0; 0; 0; 0];
               Frontend.upperVoxelBound := Some <$> [128; 128; 128; 3] |} |};
     Frontend.chunkToMultiscaleTransform := [];
     Frontend.lowerClipBound := None;
     Frontend.upperClipBound := Some (Some <$> [100; 100; 100; 3]) |}.

(** Two scales of the same chunk source. *)
Definition twoScales (_ : Frontend.SliceViewSourceOptions (Num := option Z))
  : Result string
      (list (list (Frontend.SliceViewSingleResolutionSource
                     (Num := option Z) (SourceId := nat)))) :=
  Return [[threeChannelSource]; [threeChannelSource]].

(** A render layer with a valid transform and no source registered yet. *)
Definition goodLayer
  : Frontend.RenderLayerObject (Num := option Z) (SourceId := nat)
      (ChunkTransformParameters := list Z) :=
  {| Frontend.isSliceViewRenderLayer := true;
     Frontend.rpcId := Some 12;
     Frontend.transformValue := Samples.withChannel;
     Frontend.transformChangedCount := 0;
     Frontend.multiscaleGetSources := twoScales;
     Frontend.registration :=
       {| RenderLayer.visibleSources := ∅;
          RenderLayer.visibleSourcesList_ := [] |};
     Frontend.messageChildren := [];
     Frontend.layerRefCount := 1 |}.

(** A render layer with a valid transform over the source with 4 channels:
    its sources are refused for the extent of the channel dimension. *)
Definition mismatchLayer
  : Frontend.RenderLayerObject (Num := option Z) (SourceId := nat)
      (ChunkTransformParameters := list Z) :=
  {| Frontend.isSliceViewRenderLayer := true;
     Frontend.rpcId := Some 13;
     Frontend.transformValue := Samples.withChannel;
     Frontend.transformChangedCount := 2;
     Frontend.multiscaleGetSources := Samples.oneSource;
     Frontend.registration :=
       {| RenderLayer.visibleSources := ∅;
          RenderLayer.visibleSourcesList_ := [] |};
     Frontend.messageChildren := [];
     Frontend.layerRefCount := 1 |}.

(** A view of three layers: layer 1 carries the error transform, layer 2 is
    [goodLayer] and layer 3 is [mismatchLayer]. *)
Definition threeLayers
  : Frontend.SliceView (Num := option Z) (SourceId := nat)
      (ChunkTransformParameters := list Z) (DisplayGeometry := unit)
      (LayerRef := nat) (Serialized := nat) :=
  {| Frontend.wasDisposed := false;
     Frontend.sliceViewRpcId := Some 3;
     Frontend.projectionDisplayDimensionRenderInfo := Samples.xyz;
     Frontend.visibleLayers := ∅;
     Frontend.visibleLayerList := [];
     Frontend.visibleSourcesStale := false;
     Frontend.layerObjects :=
       {[ 1%nat := Samples.brokenLayer; 2%nat := goodLayer;
          3%nat := mismatchLayer ]};
     Frontend.rpcInvoked := [];
     Frontend.disposedSources := [];
     Frontend.viewChangedDispatched := 0 |}.

(** [Samples.layer12] with its two chunk sources, which other consumers hold
    three references and one reference of. *)
Definition objects12 : SourceReferences.Objects nat Z :=
  {| SourceReferences.layer := Samples.layer12;
     SourceReferences.references := {[ 1%nat := 3; 2%nat := 1 ]} |}.

(** Options that share a value. *)
Definition described : list (string * option string) :=
  [("b", Some "first b"); ("a", Some "only a"); ("b", Some "second b");
   ("c", None)].

End MoreSamples.

(* --------------------------------------------------------------------- *)
(** ** sliceview/uncompressed_chunk_format.ts: [TextureLayout]             *)
(* --------------------------------------------------------------------- *)

Module TextureLayouts.

Import UncompressedChunk.

(** A store into a [Uint32Array]. *)
Definition wrap32 (x : N) : N := (x mod 2 ^ 32)%N.

(** The two limits of the [GL] context that the constructor reads. *)
Record GL := {
  max3dTextureSize : N;
  maxTextureSize : N;
}.

(** The variables of the loop of the constructor and the two arrays it
    fills. *)
Record LayoutLoop := {
  textureDim : nat;
  textureDimSize : N;
  loopStrides : list N;
  loopTextureShape : list N;
}.

(** One iteration of [for (let chunkDim = 0; chunkDim < rank; ++chunkDim)].
    A store past the end of a typed array does nothing. *)
Definition layoutStep (chunkDataSize0 : list N)
    (textureDims0 numRemainingDims : nat) (maxTextureSize0 : N)
    (st : LayoutLoop) (chunkDim : nat) : LayoutLoop :=
  match chunkDataSize0 !! chunkDim with
  | None => st
  | Some size =>
      if decide (size = 1%N) then st
      else
        let newSize := (size * textureDimSize st)%N in
        if decide ((maxTextureSize0 < newSize)%N
                   ∨ (textureDimSize st ≠ 1%N
                      ∧ (textureDim st + numRemainingDims < textureDims0)%nat))
        then
          let textureDim' := S (textureDim st) in
          {| textureDim := textureDim';
             textureDimSize := size;
             loopStrides :=
               <[(textureDims0 * chunkDim + textureDim')%nat := wrap32 1]>
                 (loopStrides st);
             loopTextureShape :=
               <[textureDim' := wrap32 size]> (loopTextureShape st) |}
        else
          {| textureDim := textureDim st;
             textureDimSize := newSize;
             loopStrides :=
               <[(textureDims0 * chunkDim + textureDim st)%nat :=
                   wrap32 (textureDimSize st)]>
                 (loopStrides st);
             loopTextureShape :=
               <[textureDim st := wrap32 newSize]> (loopTextureShape st) |}
  end.

(** The loop after its first [n] iterations.  [textureShape] is created by
    the field initialiser from [textureDims], which the constructor
    parameter of the same name has set, and is filled with 1. *)
Definition layoutLoop (gl : GL) (chunkDataSize0 : list N) (textureDims0 : nat)
    (n : nat) : LayoutLoop :=
  let rank := length chunkDataSize0 in
  let numRemainingDims :=
    length (List.filter (fun size => negb (size =? 1)%N) chunkDataSize0) in
  let maxTextureSize0 :=
    if decide (textureDims0 = 3%nat) then max3dTextureSize gl
    else maxTextureSize gl in
  fold_left
    (layoutStep chunkDataSize0 textureDims0 numRemainingDims maxTextureSize0)
    (seq 0 n)
    {| textureDim := 0;
       textureDimSize := 1;
       loopStrides := replicate (rank * textureDims0) 0%N;
       loopTextureShape := replicate textureDims0 1%N |}.

Record TextureLayout := {
  strides : list N;
  textureShape : list N;
  chunkDataSize : list N;
  textureDims : nat;
}.

(** [new TextureLayout(gl, chunkDataSize, textureDims)] *)
Definition newTextureLayout (gl : GL) (chunkDataSize0 : list N)
    (textureDims0 : nat) : TextureLayout :=
  let final :=
    layoutLoop gl chunkDataSize0 textureDims0 (length chunkDataSize0) in
  {| strides := loopStrides final;
     textureShape := loopTextureShape final;
     chunkDataSize := chunkDataSize0;
     textureDims := textureDims0 |}.

(** A store of a number into a [Uint32Array]; [NaN] is stored as 0. *)
Definition storeNum (x : option N) : N :=
  match x with
  | Some n => wrap32 n
  | None => 0%N
  end.

(** The first loop of [ChunkFormat.setupTextureLayout] for a layout that is
    present: entry [i] of the uniform is the sum over the chunk dimensions
    of [fixedChunkPosition[chunkDim] * strides[chunkDim * textureDims + i]].
    These are the texture coordinates of the position. *)
Definition fixedPositionOffset (textureLayout : TextureLayout)
    (textureDims0 : nat) (fixedChunkPosition : list N) : list N :=
  let rank := length fixedChunkPosition in
  (fun i =>
     storeNum
       (fold_left
          (fun sum chunkDim =>
             addNum sum
               (mulNum (fixedChunkPosition !! chunkDim)
                  (strides textureLayout
                     !! (chunkDim * textureDims0 + i)%nat)))
          (seq 0 rank) (Some 0%N)))
    <$> seq 0 textureDims0.

End TextureLayouts.

(* --------------------------------------------------------------------- *)
(** ** Concrete texture layouts                                            *)
(* --------------------------------------------------------------------- *)

Module LayoutSamples.

(** A context whose 3-d textures are at most 2048 texels wide. *)
Definition webgl : TextureLayouts.GL :=
  {| TextureLayouts.max3dTextureSize := 2048;
     TextureLayouts.maxTextureSize := 16384 |}.

(** A chunk of 64 x 64 x 64 voxels with 3 channels. *)
Definition rgbChunk : list N := [64; 64; 64; 3]%N.

(** A slab: one voxel deep. *)
Definition slab : list N := [64; 64; 1]%N.

End LayoutSamples.

(* ===================================================================== *)
(** * Part II: properties                                                 *)
(* ===================================================================== *)

(** ** Sorting and the push loop *)

Section SortFacts.

Context {A : Type} (cmp : A -> A -> Z).

Lemma sortInsert_perm x l : Permutation (sortInsert cmp x l) (x :: l).
Proof.
  induction l as [|y l IH]; simpl; [done|].
  destruct (cmp x y <=? 0); [done|].
  rewrite IH. apply perm_swap.
Qed.

Lemma sort_perm l : Permutation (sort cmp l) l.
Proof.
  induction l as [|x l IH]; simpl; [done|].
  unfold sort in *. simpl. rewrite sortInsert_perm. by constructor.
Qed.

Hypothesis cmp_total : ∀ a b, cmp a b <= 0 ∨ cmp b a <= 0.
Hypothesis cmp_trans : ∀ a b c, cmp a b <= 0 → cmp b c <= 0 → cmp a c <= 0.

Lemma sortInsert_sorted x l :
  StronglySorted (fun a b => cmp a b <= 0) l →
  StronglySorted (fun a b => cmp a b <= 0) (sortInsert cmp x l).
Proof.
  induction 1 as [|y l Hs IH Hall]; simpl.
  - repeat constructor.
  - destruct (Z.leb_spec (cmp x y) 0) as [Hle|Hgt].
    + constructor; [by constructor|].
      constructor; [done|].
      eapply Forall_impl; [exact Hall|]. intros z Hz. by eapply cmp_trans.
    + constructor; [done|].
      rewrite sortInsert_perm. constructor; [|done].
      destruct (cmp_total x y); [lia|done].
Qed.

Lemma sort_sorted l : StronglySorted (fun a b => cmp a b <= 0) (sort cmp l).
Proof.
  induction l as [|x l IH]; [constructor|].
  unfold sort in *. simpl. by apply sortInsert_sorted.
Qed.

End SortFacts.

Lemma push_loop_filter {A B : Type} (p : A -> bool) (f : A -> B) l acc :
  fold_left (fun result option => if p option then result ++ [f option] else result)
    l acc
  = acc ++ (f <$> List.filter p l).
Proof.
  revert acc. induction l as [|x l IH]; intros acc; simpl.
  - by rewrite app_nil_r.
  - rewrite IH. destruct (p x); simpl; [|done].
    by rewrite <- app_assoc.
Qed.

(** ** util/completion.ts *)

Section CompletionFacts.

Import Completion.

Variable defaultStringCompare : string -> string -> Z.

(** C10.  For a comparator that is total and transitive, [getPrefixMatches]
    returns one completion per option that starts with the prefix (with
    multiplicity) and nothing else, sorted by the comparator on the
    completion value; [getPrefixMatchesWithDescriptions] does the same on the
    extracted keys, pairing each key with the description of its option. *)
Theorem getPrefixMatches_complete_sorted
    (prefix : string) (options : list string)
    (cmp_total : ∀ a b, defaultStringCompare a b <= 0 ∨ defaultStringCompare b a <= 0)
    (cmp_trans : ∀ a b c, defaultStringCompare a b <= 0 →
                          defaultStringCompare b c <= 0 →
                          defaultStringCompare a c <= 0) :
  (Permutation (getPrefixMatches defaultStringCompare prefix options)
     ((fun option => {| value := option |}) <$>
        List.filter (fun option => String.prefix prefix option) options)
   ∧ StronglySorted (fun a b => defaultStringCompare (value a) (value b) <= 0)
       (getPrefixMatches defaultStringCompare prefix options))
  ∧ ∀ (T : Type) (opts : list T) (getValue : T -> string)
      (getDescription : T -> option string),
      Permutation
        (getPrefixMatchesWithDescriptions defaultStringCompare prefix opts
           getValue getDescription)
        ((fun option => {| valueD := getValue option;
                           description := getDescription option |}) <$>
           List.filter (fun option => String.prefix prefix (getValue option)) opts)
      ∧ StronglySorted
          (fun a b => defaultStringCompare (valueD a) (valueD b) <= 0)
          (getPrefixMatchesWithDescriptions defaultStringCompare prefix opts
             getValue getDescription).
Proof.
  split; [split|intros T opts getValue getDescription; split].
  - unfold getPrefixMatches, startsWith.
    rewrite sort_perm.
    by rewrite (push_loop_filter (fun o => String.prefix prefix o)
                  (fun o => {| value := o |})).
  - apply sort_sorted; eauto.
  - unfold getPrefixMatchesWithDescriptions, startsWith.
    rewrite sort_perm.
    by rewrite (push_loop_filter (fun o => String.prefix prefix (getValue o))
                  (fun o => {| valueD := getValue o;
                               description := getDescription o |})).
  - apply sort_sorted; eauto.
Qed.

End CompletionFacts.

(** ** sliceview/renderlayer.ts *)

Section RenderLayerFacts.

Import RenderLayer.

Context {Source : Type} `{Countable Source} {ChunkTransformParameters : Type}.

Abbreviation Layer := (SliceViewRenderLayer Source ChunkTransformParameters).
Abbreviation Info := (VisibleSourceInfo Source ChunkTransformParameters).

Lemma addSource_other (this : Layer) s s' ct :
  s ≠ s' →
  visibleSources (addSource this s ct) !! s' = visibleSources this !! s'.
Proof.
  intros Hne. unfold addSource.
  destruct (visibleSources this !! s); simpl; by rewrite lookup_insert_ne.
Qed.

Lemma removeSource_other (this this' : Layer) s s' :
  s ≠ s' → removeSource this s = Return this' →
  visibleSources this' !! s' = visibleSources this !! s'.
Proof.
  intros Hne. unfold removeSource.
  destruct (visibleSources this !! s) as [info|]; [|done].
  case_decide; intros [= <-]; simpl.
  - by rewrite lookup_insert_ne.
  - by rewrite lookup_delete_ne.
Qed.

Abbreviation Objects :=
  (SourceReferences.Objects Source ChunkTransformParameters).

(** C7.  [addSource] on a registered source adds one to its [refCount] and
    stores the new chunk transform; on a new source it inserts an entry with
    [refCount] 1.  [removeSource] on an entry whose [refCount] is not 1
    subtracts one and keeps the entry.  The call that would bring the count
    to zero returns, in that same call, a layer whose map has no entry for
    the source and whose cached list is empty.  None of these calls takes or
    gives back a reference of a chunk source: the reference counts of the
    source objects are the same after as before, so no call releases a
    reference. *)
Theorem refCount_add_remove (this : Objects) (s : Source)
    (ct : ChunkTransformParameters) :
  (∀ info, visibleSources (SourceReferences.layer this) !! s = Some info →
     visibleSources
       (SourceReferences.layer (SourceReferences.addSource this s ct)) !! s
     = Some {| source := source info; refCount := refCount info + 1;
               chunkTransform := ct |})
  ∧ (visibleSources (SourceReferences.layer this) !! s = None →
     visibleSources
       (SourceReferences.layer (SourceReferences.addSource this s ct)) !! s
     = Some {| source := s; refCount := 1; chunkTransform := ct |})
  ∧ SourceReferences.references (SourceReferences.addSource this s ct)
    = SourceReferences.references this
  ∧ (∀ info, visibleSources (SourceReferences.layer this) !! s = Some info →
     refCount info ≠ 1 →
     ∃ this', SourceReferences.removeSource this s = Return this'
       ∧ visibleSources (SourceReferences.layer this') !! s
         = Some {| source := source info; refCount := refCount info - 1;
                   chunkTransform := chunkTransform info |})
  ∧ (∀ info, visibleSources (SourceReferences.layer this) !! s = Some info →
     refCount info = 1 →
     ∃ this', SourceReferences.removeSource this s = Return this'
       ∧ visibleSources (SourceReferences.layer this') !! s = None
       ∧ visibleSources (SourceReferences.layer this')
         = delete s (visibleSources (SourceReferences.layer this))
       ∧ visibleSourcesList_ (SourceReferences.layer this') = [])
  ∧ (∀ this', SourceReferences.removeSource this s = Return this' →
     SourceReferences.references this' = SourceReferences.references this
     ∧ ∀ s', ¬ SourceReferences.released
                 (SourceReferences.references this)
                 (SourceReferences.references this') s').
Proof.
  split; [|split; [|split; [|split; [|split]]]].
  - intros info Hinfo. unfold SourceReferences.addSource, addSource.
    simpl. rewrite Hinfo. simpl. by rewrite lookup_insert_eq.
  - intros Hnone. unfold SourceReferences.addSource, addSource.
    simpl. rewrite Hnone. simpl. by rewrite lookup_insert_eq.
  - done.
  - intros info Hinfo Hne. unfold SourceReferences.removeSource, removeSource.
    rewrite Hinfo. rewrite decide_True by done. simpl.
    eexists; split; [done|]. simpl. by rewrite lookup_insert_eq.
  - intros info Hinfo Hone. unfold SourceReferences.removeSource, removeSource.
    rewrite Hinfo. rewrite decide_False by (intros ?; done). simpl.
    eexists; split; [done|]. simpl.
    split; [by rewrite lookup_delete_eq|]. done.
  - intros this' Hrem. unfold SourceReferences.removeSource in Hrem.
    destruct (removeSource (SourceReferences.layer this) s) as [layer'|e];
      [|done].
    injection Hrem as <-. simpl. split; [done|].
    intros s' (count & Hbefore & Hafter). rewrite Hbefore in Hafter.
    injection Hafter as Hcount. lia.
Qed.

End RenderLayerFacts.

(** ** sliceview/uncompressed_chunk_format.ts *)

Section UncompressedChunkFacts.

Import UncompressedChunk.

Context {Elem : Type}.

Lemma sum_snoc (l : list N) (x : N) :
  foldr N.add 0%N (l ++ [x]) = (foldr N.add 0%N l + x)%N.
Proof. induction l as [|y l IH]; simpl; lia. Qed.

Lemma product_snoc (l : list N) (x : N) :
  foldr N.mul 1%N (l ++ [x]) = (foldr N.mul 1%N l * x)%N.
Proof. induction l as [|y l IH]; simpl; lia. Qed.

Lemma strideOf_S (size : list N) (i : nat) (x : N) :
  size !! i = Some x → strideOf size (S i) = (strideOf size i * x)%N.
Proof.
  intros Hx. unfold strideOf.
  rewrite (take_S_r _ _ _ Hx). apply product_snoc.
Qed.

(** The loop, cut after [n] iterations: the running index is the sum over
    the first [n] coordinates and the running stride is the product of the
    first [n] extents. *)
Lemma indexLoop_prefix (pos size : list N) (n : nat) :
  (n ≤ length pos)%nat → (n ≤ length size)%nat →
  fold_left (indexStep pos size) (seq 0 n) (Some 0%N, Some 1%N)
  = (Some (linearIndex size (take n pos)), Some (strideOf size n)).
Proof.
  induction n as [|n IH]; intros Hp Hs.
  - done.
  - rewrite seq_S, fold_left_app, IH by lia. simpl.
    destruct (lookup_lt_is_Some_2 pos n ltac:(lia)) as [p Hpn].
    destruct (lookup_lt_is_Some_2 size n ltac:(lia)) as [x Hxn].
    rewrite Hpn, Hxn. simpl.
    rewrite (strideOf_S _ _ _ Hxn). f_equal. f_equal.
    unfold linearIndex.
    rewrite (take_S_r _ _ _ Hpn), imap_app.
    change (imap ?g [p]) with [g 0%nat p].
    rewrite sum_snoc.
    rewrite length_take, Nat.min_l, Nat.add_0_r by lia. lia.
Qed.

Lemma computeIndex_linearIndex (pos size : list N) :
  (length pos ≤ length size)%nat →
  computeIndex pos size = Some (linearIndex size pos).
Proof.
  intros Hlen. unfold computeIndex.
  rewrite indexLoop_prefix by lia. simpl. by rewrite firstn_all.
Qed.

(** C9.  A chunk without data answers every position with the fill value of
    its source.  With data, and a position no longer than the chunk shape,
    the answer is read at the linear index in which the first dimension
    varies fastest: the raw element for every type but UINT64, and for
    UINT64 the pair of words at twice that index and the slot after it. *)
Theorem getValueAt_fill_or_linear
    (chunk : UncompressedVolumeChunk Elem) (dataPosition : list N) :
  (data chunk = None →
   getValueAt chunk dataPosition = source_spec_fillValue chunk)
  ∧ (∀ d, data chunk = Some d →
       (length dataPosition ≤ length (chunkDataSize chunk))%nat →
       let index := linearIndex (chunkDataSize chunk) dataPosition in
       getValueAt chunk dataPosition
       = if decide (chunkFormat_dataType chunk = UINT64)
         then Uint64 (d !! N.to_nat (index * 2))
                     (d !! N.to_nat (index * 2 + 1))
         else Number (d !! N.to_nat index)).
Proof.
  split.
  - intros Hnull. unfold getValueAt. by rewrite Hnull.
  - intros d Hd Hlen index. unfold getValueAt. rewrite Hd.
    rewrite computeIndex_linearIndex by done. fold index.
    destruct (chunkFormat_dataType chunk); simpl; done.
Qed.

End UncompressedChunkFacts.

(** ** sliceview/backend_chunk_decoders/raw.ts *)

Section RawDecoderFacts.

Import RawDecoder.

Variable DATA_TYPE_BYTES : DataType -> N.
Variable ENDIANNESS : Endianness.
Context {View E Stored : Type}.
Variable makeDataTypeArrayView : DataType -> list Byte.byte -> Result E View.
Variable convertEndian : View -> N -> Endianness -> Result E View.
Variable postProcessRawData : VolumeChunk -> View -> Result E Stored.

Abbreviation decode :=
  (decodeRawChunk DATA_TYPE_BYTES ENDIANNESS makeDataTypeArrayView
     convertEndian postProcessRawData).

Lemma decodeRawChunk_mismatch chunk response endianness :
  (prod (chunkDataSize chunk) * DATA_TYPE_BYTES (source_spec_dataType chunk))%N
  ≠ N.of_nat (length response) →
  decode chunk response endianness
  = Throw (RawFormatError
             (lengthErrorMessage (N.of_nat (length response))
                (prod (chunkDataSize chunk))
                (DATA_TYPE_BYTES (source_spec_dataType chunk)))).
Proof. intros Hne. unfold decodeRawChunk. by rewrite decide_True. Qed.

(** The view as it is when handed to [postProcessRawData]. *)
Let handedOn (chunk : VolumeChunk) (response : list Byte.byte)
    (endianness : option Endianness) : Result E View :=
  data ← makeDataTypeArrayView (source_spec_dataType chunk) response;
  if decide (default ENDIANNESS endianness = ENDIANNESS) then Return data
  else convertEndian data (DATA_TYPE_BYTES (source_spec_dataType chunk))
         (default ENDIANNESS endianness).

Lemma decodeRawChunk_match chunk response endianness :
  (prod (chunkDataSize chunk) * DATA_TYPE_BYTES (source_spec_dataType chunk))%N
  = N.of_nat (length response) →
  decode chunk response endianness
  = called (data ← handedOn chunk response endianness;
            postProcessRawData chunk data).
Proof.
  intros Heq. unfold decodeRawChunk, handedOn.
  rewrite decide_False by (by intros ?).
  destruct (makeDataTypeArrayView _ _) as [data|e]; simpl; [|done].
  destruct (decide (default ENDIANNESS endianness = ENDIANNESS)) as [Hsame|Hne].
  - by rewrite decide_False by (by intros ?).
  - rewrite decide_True by done.
    by destruct (convertEndian _ _ _) as [data'|e].
Qed.


End RawDecoderFacts.

(** ** util/http_request.ts *)

(** *** Rounding to doubles *)

Section DoubleFacts.

Import Double.

Local Open Scope Q_scope.

Lemma pow2_pos (k : Z) : 0 < 2 ^ k.
Proof. by apply Qpower_0_lt. Qed.

Lemma pow2_le (a b : Z) : (a <= b)%Z → 2 ^ a <= 2 ^ b.
Proof. intros Hab. by apply Qpower_le_compat_l. Qed.

Lemma pow2_lt_inv (a b : Z) : 2 ^ a < 2 ^ b → (a < b)%Z.
Proof. intros Hab. by apply (Qpower_lt_compat_l_inv 2). Qed.

Lemma pow2_plus (a b : Z) : 2 ^ (a + b) == 2 ^ a * 2 ^ b.
Proof. by apply Qpower_plus. Qed.

Lemma pow2_Z (k : Z) : (0 <= k)%Z → 2 ^ k == inject_Z (2 ^ k).
Proof. intros Hk. by rewrite Zpower_Qpower. Qed.

(** *** Rounding to the nearest integer *)

Lemma roundTiesToEven_bounds (x : Q) :
  (Qfloor x <= roundTiesToEven x <= Qfloor x + 1)%Z.
Proof.
  unfold roundTiesToEven.
  destruct (x - inject_Z (Qfloor x) ?= 1 # 2); [|lia|lia].
  destruct (Z.even (Qfloor x)); lia.
Qed.

Lemma roundTiesToEven_mono (x y : Q) :
  x <= y → (roundTiesToEven x <= roundTiesToEven y)%Z.
Proof.
  intros Hxy. pose proof (Qfloor_resp_le x y Hxy) as Hf.
  pose proof (roundTiesToEven_bounds x) as Hx.
  pose proof (roundTiesToEven_bounds y) as Hy.
  destruct (decide (Qfloor x = Qfloor y)) as [Heq|Hne]; [|lia].
  unfold roundTiesToEven. rewrite <- Heq.
  destruct (Qcompare_spec (x - inject_Z (Qfloor x)) (1 # 2)) as [Hx'|Hx'|Hx'];
    destruct (Qcompare_spec (y - inject_Z (Qfloor x)) (1 # 2)) as [Hy'|Hy'|Hy'];
    try lia; try (destruct (Z.even (Qfloor x)); lia); exfalso; lra.
Qed.

Lemma roundTiesToEven_Z (n : Z) : roundTiesToEven (inject_Z n) = n.
Proof.
  unfold roundTiesToEven. rewrite Qfloor_Z.
  destruct (Qcompare_spec (inject_Z n - inject_Z n) (1 # 2)) as [H|H|H];
    [exfalso; lra|done|exfalso; lra].
Qed.

Lemma roundTiesToEven_le (x : Q) (n : Z) :
  x <= inject_Z n → (roundTiesToEven x <= n)%Z.
Proof.
  intros Hx. rewrite <- (roundTiesToEven_Z n). by apply roundTiesToEven_mono.
Qed.

Lemma roundTiesToEven_ge (x : Q) (n : Z) :
  inject_Z n <= x → (n <= roundTiesToEven x)%Z.
Proof.
  intros Hx. rewrite <- (roundTiesToEven_Z n) at 1.
  by apply roundTiesToEven_mono.
Qed.

(** *** The binade of a positive number *)

Lemma exponent_spec (x : Q) :
  0 < x → 2 ^ exponent x <= x ∧ x < 2 ^ (exponent x + 1).
Proof.
  intros Hx. destruct x as [a b].
  assert (Ha : (0 < a)%Z).
  { unfold Qlt in Hx. simpl in Hx. lia. }
  pose proof (Z.log2_spec a Ha) as [Ha1 Ha2].
  pose proof (Z.log2_spec (Zpos b) ltac:(lia)) as [Hb1 Hb2].
  pose proof (Z.log2_nonneg a) as Hla.
  pose proof (Z.log2_nonneg (Zpos b)) as Hlb.
  set (la := Z.log2 a) in *. set (lb := Z.log2 (Zpos b)) in *.
  assert (HbQ : 0 < inject_Z (Zpos b)) by (unfold Qlt; simpl; lia).
  assert (Hab : a # b == inject_Z a / inject_Z (Zpos b))
    by apply Qmake_Qdiv.
  assert (Hupper : a # b < 2 ^ (la - lb + 1)).
  { rewrite Hab. apply Qlt_shift_div_r; [done|].
    apply Qlt_le_trans with (2 ^ (la + 1)).
    - rewrite pow2_Z by lia. rewrite <- Zlt_Qlt. unfold Z.succ in Ha2. lia.
    - replace (la + 1)%Z with ((la - lb + 1) + lb)%Z by lia.
      rewrite pow2_plus. apply Qmult_le_l; [apply pow2_pos|].
      rewrite pow2_Z by lia. by rewrite <- Zle_Qle. }
  assert (Hlower : 2 ^ (la - lb - 1) <= a # b).
  { rewrite Hab. apply Qle_shift_div_l; [done|].
    apply Qle_trans with (2 ^ la).
    - replace la with ((la - lb - 1) + (lb + 1))%Z at 2 by lia.
      rewrite pow2_plus. apply Qmult_le_l; [apply pow2_pos|].
      rewrite (pow2_Z (lb + 1)) by lia. rewrite <- Zle_Qle.
      unfold Z.succ in Hb2. lia.
    - rewrite pow2_Z by lia. by rewrite <- Zle_Qle. }
  unfold exponent. simpl Qnum. simpl Qden. fold la lb.
  destruct (Qle_bool (2 ^ (la - lb)) (a # b)) eqn:Hle.
  - apply Qle_bool_iff in Hle. split; [done|]. exact Hupper.
  - split; [exact Hlower|].
    replace (la - lb - 1 + 1)%Z with (la - lb)%Z by lia.
    apply Qnot_le_lt. intros Hc. apply Qle_bool_iff in Hc. congruence.
Qed.

Lemma exponent_mono (x y : Q) : 0 < x → x <= y → (exponent x <= exponent y)%Z.
Proof.
  intros Hx Hxy.
  destruct (exponent_spec x Hx) as [Hx1 _].
  destruct (exponent_spec y ltac:(lra)) as [_ Hy2].
  assert (H : 2 ^ exponent x < 2 ^ (exponent y + 1)) by lra.
  apply pow2_lt_inv in H. lia.
Qed.

(** *** Rounding to the nearest double *)

Lemma ulp_pos (x : Q) : 0 < ulp x.
Proof. apply pow2_pos. Qed.

Lemma round_pos (x : Q) :
  0 < x → round x = inject_Z (roundTiesToEven (x / ulp x)) * ulp x.
Proof.
  intros Hx. unfold round. apply Qgt_alt in Hx. by rewrite Hx.
Qed.

Lemma round_zero (x : Q) : x == 0 → round x = 0.
Proof. intros Hx. unfold round. apply Qeq_alt in Hx. by rewrite Hx. Qed.

(** A number on the grid of [x] that bounds [x] bounds the double nearest
    to [x]. *)
Lemma round_le_grid (x b : Q) (m : Z) :
  0 < x → x <= b → b == inject_Z m * ulp x → round x <= b.
Proof.
  intros Hx Hxb Hb. rewrite round_pos by done. rewrite Hb.
  apply Qmult_le_compat_r; [|apply Qlt_le_weak, ulp_pos].
  rewrite <- Zle_Qle. apply roundTiesToEven_le.
  apply Qle_shift_div_r; [apply ulp_pos|]. by rewrite <- Hb.
Qed.

Lemma round_ge_grid (x b : Q) (m : Z) :
  0 < x → b <= x → b == inject_Z m * ulp x → b <= round x.
Proof.
  intros Hx Hxb Hb. rewrite round_pos by done. rewrite Hb.
  apply Qmult_le_compat_r; [|apply Qlt_le_weak, ulp_pos].
  rewrite <- Zle_Qle. apply roundTiesToEven_ge.
  apply Qle_shift_div_l; [apply ulp_pos|]. by rewrite <- Hb.
Qed.

Lemma round_nonneg (x : Q) : 0 <= x → 0 <= round x.
Proof.
  intros Hx. destruct (Qlt_le_dec 0 x) as [Hpos|Hle].
  - apply (round_ge_grid x 0 0 Hpos); [lra|ring].
  - rewrite round_zero by lra. lra.
Qed.

Lemma round_mono_pos (x y : Q) : 0 < x → x <= y → round x <= round y.
Proof.
  intros Hx Hxy. assert (Hy : 0 < y) by lra.
  pose proof (exponent_mono x y Hx Hxy) as He.
  destruct (exponent_spec x Hx) as [Hx1 Hx2].
  destruct (exponent_spec y Hy) as [Hy1 Hy2].
  set (kx := Z.max (exponent x - 52) (-1074)).
  set (ky := Z.max (exponent y - 52) (-1074)).
  assert (Hux : ulp x = 2 ^ kx) by reflexivity.
  assert (Huy : ulp y = 2 ^ ky) by reflexivity.
  destruct (decide (kx = ky)) as [Hk|Hk].
  - rewrite !round_pos by done. rewrite Hux, Huy, <- Hk.
    apply Qmult_le_compat_r; [|apply Qlt_le_weak, pow2_pos].
    rewrite <- Zle_Qle. apply roundTiesToEven_mono.
    apply Qmult_le_compat_r; [done|].
    apply Qlt_le_weak, Qinv_lt_0_compat, pow2_pos.
  - assert (Hky : ky = (exponent y - 52)%Z) by lia.
    assert (Hlt : (exponent x + 1 <= exponent y)%Z) by lia.
    apply Qle_trans with (2 ^ exponent y).
    + apply (round_le_grid x _ (2 ^ (exponent y - kx))); [done| |].
      * apply Qle_trans with (2 ^ (exponent x + 1)); [lra|by apply pow2_le].
      * rewrite Hux, <- pow2_Z by lia. rewrite <- pow2_plus.
        by replace (exponent y - kx + kx)%Z with (exponent y) by lia.
    + apply (round_ge_grid y _ (2 ^ 52)); [done|done|].
      rewrite Huy, <- pow2_Z by lia. rewrite <- pow2_plus.
      by replace (52 + ky)%Z with (exponent y) by lia.
Qed.

(** Rounding is monotone on the numbers that are not negative. *)
Lemma round_mono (x y : Q) : 0 <= x → x <= y → round x <= round y.
Proof.
  intros Hx Hxy. destruct (Qlt_le_dec 0 x) as [Hpos|Hle].
  - by apply round_mono_pos.
  - rewrite (round_zero x) by lra. apply round_nonneg. lra.
Qed.

Lemma round_comp (x y : Q) : 0 <= x → x == y → round x == round y.
Proof.
  intros Hx Hxy. apply Qle_antisym; apply round_mono; lra.
Qed.

End DoubleFacts.

(** *** [pickDelay] *)

Section HttpRequestFacts.

Import HttpRequest.
Local Open Scope Q_scope.

Lemma delayFloor_small (n : Z) :
  (0 <= n <= 3)%Z → delayFloor n == inject_Z (2 ^ n * 500).
Proof.
  intros Hn. unfold delayFloor. apply Q.min_l.
  change 5000 with (inject_Z 5000). rewrite <- Zle_Qle.
  assert (2 ^ n <= 2 ^ 3)%Z by (apply Z.pow_le_mono_r; lia).
  change (2 ^ 3)%Z with 8%Z in *. lia.
Qed.

Lemma delayFloor_capped (n : Z) : (4 <= n)%Z → delayFloor n == 5000.
Proof.
  intros Hn. unfold delayFloor. apply Q.min_r.
  change 5000 with (inject_Z 5000). rewrite <- Zle_Qle.
  assert (2 ^ 4 <= 2 ^ n)%Z by (apply Z.pow_le_mono_r; lia).
  change (2 ^ 4)%Z with 16%Z in *. lia.
Qed.

Lemma delayFloor_succ (n : Z) :
  (0 <= n)%Z → delayFloor (n + 1) == Qmin (2 * delayFloor n) 5000.
Proof.
  intros Hn. unfold delayFloor.
  assert (Hd : inject_Z (2 ^ (n + 1) * 500) == 2 * inject_Z (2 ^ n * 500)).
  { rewrite Z.pow_add_r, Z.pow_1_r by lia.
    rewrite !inject_Z_mult. change (inject_Z 2) with 2. ring. }
  rewrite Hd.
  set (x := inject_Z (2 ^ n * 500)).
  destruct (Q.min_spec x 5000) as [[H1 E1]|[H1 E1]]; rewrite E1.
  - reflexivity.
  - rewrite (Q.min_r (2 * x)) by lra.
    rewrite (Q.min_r (2 * 5000)) by lra. reflexivity.
Qed.

(** The floors of the delay intervals: 500, 1000, 2000, 4000 and 5000 ms.
    Each of them, and twice each of them, is a double. *)
Lemma delayFloor_values (n : Z) :
  (0 <= n)%Z →
  ∃ d : Q,
    delayFloor n == d
    ∧ 500 <= d ∧ d <= 5000
    ∧ Double.round d == d
    ∧ Double.round (2 * d) == 2 * d.
Proof.
  intros Hn.
  assert (Hcases : n = 0%Z ∨ n = 1%Z ∨ n = 2%Z ∨ n = 3%Z ∨ (4 <= n)%Z) by lia.
  destruct Hcases as [->|[->|[->|[->|Hbig]]]].
  - exists 500. by vm_compute.
  - exists 1000. by vm_compute.
  - exists 2000. by vm_compute.
  - exists 4000. by vm_compute.
  - exists 5000. split; [by apply delayFloor_capped|]. by vm_compute.
Qed.

(** The first factor of [pickDelay], computed in doubles, is the floor. *)
Lemma pickDelay_floor (n : Z) :
  (0 <= n)%Z →
  Qmin (Double.round (Double.round (2 ^ n) * minDelayMilliseconds))
       (Double.round (maxDelayMilliseconds / 2))
  == delayFloor n.
Proof.
  intros Hn.
  assert (Hcases : n = 0%Z ∨ n = 1%Z ∨ n = 2%Z ∨ n = 3%Z ∨ (4 <= n)%Z) by lia.
  destruct Hcases as [->|[->|[->|[->|Hbig]]]];
    [by vm_compute|by vm_compute|by vm_compute|by vm_compute|].
  rewrite delayFloor_capped by done.
  assert (H16 : 16 <= Double.round (2 ^ n)).
  { apply Qle_trans with (Double.round (2 ^ 4)); [by vm_compute|].
    apply round_mono; [by vm_compute|by apply pow2_le]. }
  assert (H8000 : 8000 <= Double.round (Double.round (2 ^ n) * 500)).
  { apply Qle_trans with (Double.round 8000); [by vm_compute|].
    apply round_mono; [by vm_compute|lra]. }
  assert (H5000 : Double.round (maxDelayMilliseconds / 2) == 5000)
    by (by vm_compute).
  unfold minDelayMilliseconds. rewrite H5000. apply Q.min_r. lra.
Qed.

(** The second factor: the double nearest to [1 + r] lies between 1 and 2,
    both ends included. *)
Lemma jitter_range (r : Q) :
  0 <= r → r < 1 → 1 <= Double.round (1 + r) ∧ Double.round (1 + r) <= 2.
Proof.
  intros Hr0 Hr1. split.
  - apply Qle_trans with (Double.round 1); [by vm_compute|].
    apply round_mono; lra.
  - apply Qle_trans with (Double.round 2); [|by vm_compute].
    apply round_mono; lra.
Qed.

(** [pickDelay] is the double nearest to the product of the floor and the
    double nearest to [1 + r], and lies between the floor and twice the
    floor. *)
Lemma pickDelay_between (n : Z) (r : Q) :
  (0 <= n)%Z → 0 <= r → r < 1 →
  pickDelay n r == Double.round (delayFloor n * Double.round (1 + r))
  ∧ delayFloor n <= pickDelay n r
  ∧ pickDelay n r <= 2 * delayFloor n.
Proof.
  intros Hn Hr0 Hr1.
  destruct (jitter_range r Hr0 Hr1) as [Hs1 Hs2].
  destruct (delayFloor_values n Hn) as (d & Hd & Hd1 & Hd2 & Hrd & Hr2d).
  pose proof (pickDelay_floor n Hn) as Hfloor.
  set (s := Double.round (1 + r)) in *.
  assert (Hp : pickDelay n r == Double.round (delayFloor n * s)).
  { unfold pickDelay. fold s. apply round_comp.
    - rewrite Hfloor, Hd. nra.
    - by rewrite Hfloor. }
  assert (Hlow : d <= Double.round (d * s)).
  { rewrite <- Hrd at 1. apply round_mono; nra. }
  assert (Hhigh : Double.round (d * s) <= 2 * d).
  { rewrite <- Hr2d. apply round_mono; nra. }
  assert (Hpd : pickDelay n r == Double.round (d * s)).
  { rewrite Hp. apply round_comp; [rewrite Hd; nra|by rewrite Hd]. }
  split; [exact Hp|].
  split; [rewrite Hpd, Hd; exact Hlow|rewrite Hpd, Hd; exact Hhigh].
Qed.

(** C6.  For an attempt number [n >= 0] and a random draw [r] in [0, 1), the
    delay is the product, in doubles, of the floor [min(2^n * 500, 5000)]
    and the sum [1 + r]; that sum, rounded to a double, lies between 1 and
    2, both included.  The delay therefore lies between the floor and twice
    the floor, the floor doubles from one attempt to the next until it
    reaches 5000, and every delay is at most 10000 milliseconds. *)
Theorem pickDelay_doubling_jitter_cap (n : Z) (r : Q) :
  (0 <= n)%Z → 0 <= r → r < 1 →
  pickDelay n r == Double.round (delayFloor n * Double.round (1 + r))
  ∧ 1 <= Double.round (1 + r) ∧ Double.round (1 + r) <= 2
  ∧ delayFloor n <= pickDelay n r
  ∧ pickDelay n r <= 2 * delayFloor n
  ∧ delayFloor (n + 1) == Qmin (2 * delayFloor n) 5000
  ∧ pickDelay n r <= 10000.
Proof.
  intros Hn Hr0 Hr1.
  destruct (jitter_range r Hr0 Hr1) as [Hs1 Hs2].
  destruct (pickDelay_between n r Hn Hr0 Hr1) as (Hp & Hlow & Hhigh).
  assert (Hcap : delayFloor n <= 5000) by apply Q.le_min_r.
  split; [exact Hp|]. split; [exact Hs1|]. split; [exact Hs2|].
  split; [exact Hlow|]. split; [exact Hhigh|].
  split; [by apply delayFloor_succ|]. lra.
Qed.

End HttpRequestFacts.

Section FetchOkFacts.

Import HttpRequest.


End FetchOkFacts.

(** ** sliceview/frontend.ts: transformed sources *)

Section MapMFacts.

Context {E A B : Type} (f : A -> Result E B).

Lemma mapM_app (l1 l2 : list A) :
  mapM f (l1 ++ l2)
  = (r1 ← mapM f l1; r2 ← mapM f l2; Return (r1 ++ r2)).
Proof.
  induction l1 as [|x l1 IH]; simpl.
  - by destruct (mapM f l2).
  - destruct (f x) as [y|e]; simpl; [|done].
    rewrite IH. destruct (mapM f l1) as [r1|e]; simpl; [|done].
    by destruct (mapM f l2).
Qed.

(** The first element on which [f] throws decides the exception. *)
Lemma mapM_first_throw (pre post : list A) (x : A) (e : E) :
  Forall (fun y => ∃ r, f y = Return r) pre → f x = Throw e →
  mapM f (pre ++ x :: post) = Throw e.
Proof.
  induction 1 as [|y pre [r Hr] _ IH]; intros Hx; simpl.
  - by rewrite Hx.
  - rewrite Hr. simpl. by rewrite IH.
Qed.

Lemma mapM_some_throw (l : list A) (x : A) (e : E) :
  x ∈ l → f x = Throw e → ∃ e', mapM f l = Throw e'.
Proof.
  induction 1 as [x l|x y l _ IH]; intros Hx; simpl.
  - rewrite Hx. by eexists.
  - destruct (f y); simpl; [|by eexists].
    destruct (IH Hx) as [e' ->]. by eexists.
Qed.

(** Nested traversal throws what the flattened traversal throws. *)
Lemma mapM_nested_throw (ll : list (list A)) (e : E) :
  mapM f (concat ll) = Throw e → mapM (mapM f) ll = Throw e.
Proof.
  induction ll as [|l ll IH]; simpl; [done|].
  rewrite mapM_app.
  destruct (mapM f l) as [r1|e1]; simpl; [|by intros [= ->]].
  destruct (mapM f (concat ll)) as [r2|e2]; simpl; [done|].
  intros [= ->]. by rewrite IH.
Qed.

End MapMFacts.

Section TransformedSourcesFacts.

Import Frontend.

Context {Num : Type}.
Variables (zero NaN : Num) (fround : Num -> Num).
Context {SourceId : Type} `{Countable SourceId}.
Context {ChunkTransformParameters : Type}.
Variable channelToChunkDimensionIndices : ChunkTransformParameters -> list Z.
Variable getChunkTransformParameters :
  @RenderLayerTransformOrError Num -> list Num ->
  Result string ChunkTransformParameters.
Context {DisplayGeometry : Type}.
Variable displayGeometry :
  DisplayDimensionRenderInfo -> @RenderLayerTransformOrError Num ->
  @SliceViewSingleResolutionSource Num SourceId -> ChunkTransformParameters ->
  Result string DisplayGeometry.
Context {LayerRef : Type} `{Countable LayerRef}.

Abbreviation gvts :=
  (getVolumetricTransformedSources zero NaN fround
     channelToChunkDimensionIndices getChunkTransformParameters
     displayGeometry (LayerRef := LayerRef)).

Abbreviation gts :=
  (getTransformedSource channelToChunkDimensionIndices
     getChunkTransformParameters displayGeometry (LayerRef := LayerRef)).

(** A transform marked as an error: no sources, and the message list holds
    the error and nothing else, whatever it held before. *)
Lemma errorTransform_outcome info0
    (transform : @RenderLayerTransformOrError Num) getSources messages
    (layer : LayerRef) e :
  transformError transform = Some e →
  gvts info0 transform getSources messages layer
  = Return {| transformedSources := [];
              messagesAfter := [{| severity := error; message := e |}];
              disposed := [] |}.
Proof.
  intros He. unfold getVolumetricTransformedSources. by rewrite He.
Qed.

(** The channel loop throws at the first dimension that is mapped and whose
    extents differ. *)
Lemma checkChannelDimensions_throws
    (transform : @RenderLayerTransformOrError Num) size indices :
  ∀ start channelDim chunkDim,
    indices !! channelDim = Some chunkDim → chunkDim ≠ -1 →
    index size chunkDim ≠ channelSpaceShape transform !! (start + channelDim)%nat →
    ∃ d c, (d ≤ channelDim)%nat ∧ indices !! d = Some c ∧ c ≠ -1
      ∧ index size c ≠ channelSpaceShape transform !! (start + d)%nat
      ∧ checkChannelDimensions transform size start indices
        = Throw (channelMismatchMessage transform (start + d)
                   (channelSpaceShape transform !! (start + d)%nat)
                   (index size c)).
Proof.
  induction indices as [|c0 rest IH]; intros start channelDim chunkDim Hl Hne Hmis.
  - done.
  - simpl.
    destruct channelDim as [|channelDim]; simpl in Hl.
    + injection Hl as ->. rewrite decide_False by done.
      rewrite Nat.add_0_r in Hmis. rewrite decide_True by done.
      exists 0%nat, chunkDim. rewrite Nat.add_0_r. repeat split; done || lia.
    + destruct (decide (c0 = -1)) as [->|Hc0].
      * destruct (IH (S start) channelDim chunkDim Hl Hne) as (d & c & Hd & Hc & Hc1 & Hm & Ht).
        { by replace (S start + channelDim)%nat with (start + S channelDim)%nat by lia. }
        exists (S d), c.
        replace (start + S d)%nat with (S start + d)%nat by lia.
        repeat split; done || lia.
      * destruct (decide (index size c0 ≠ channelSpaceShape transform !! start)) as [Hm0|Heq].
        -- exists 0%nat, c0. rewrite Nat.add_0_r. repeat split; done || lia.
        -- destruct (IH (S start) channelDim chunkDim Hl Hne) as (d & c & Hd & Hc & Hc1 & Hm & Ht).
           { by replace (S start + channelDim)%nat with (start + S channelDim)%nat by lia. }
           exists (S d), c.
           replace (start + S d)%nat with (S start + d)%nat by lia.
           repeat split; done || lia.
Qed.

(** C4.  Let a candidate source have a channel dimension that is mapped to a
    chunk dimension (index not -1) whose extent differs from the extent of
    the channel space.  Then [getTransformedSource] throws for that source,
    with a message that names the first such dimension and both extents; the
    computation for the layer returns no transformed sources and a message
    list holding exactly one error; every candidate source is disposed of;
    and when no earlier candidate throws, that error message is the thrown
    one behind the "Cannot render" prefix. *)
Theorem channel_extent_mismatch_is_error
    (info0 : DisplayDimensionRenderInfo)
    (transform : @RenderLayerTransformOrError Num)
    (getSources : SliceViewSourceOptions ->
                  Result string (list (list SliceViewSingleResolutionSource)))
    (messages : MessageList) (layer : LayerRef)
    (allSources : list (list SliceViewSingleResolutionSource))
    (s : SliceViewSingleResolutionSource)
    (chunkTransform : ChunkTransformParameters)
    (channelDim : nat) (chunkDim : Z) :
  transformError transform = None →
  getSources (sourceOptions zero NaN fround info0 transform) = Return allSources →
  s ∈ concat allSources →
  getChunkTransformParameters transform (chunkToMultiscaleTransform s)
  = Return chunkTransform →
  channelToChunkDimensionIndices chunkTransform !! channelDim = Some chunkDim →
  chunkDim ≠ -1 →
  index (chunkDataSize (spec (chunkSource s))) chunkDim
  ≠ channelSpaceShape transform !! channelDim →
  ∃ (d : nat) (c : Z) (thrown : string),
    (d ≤ channelDim)%nat
    ∧ channelToChunkDimensionIndices chunkTransform !! d = Some c ∧ c ≠ -1
    ∧ index (chunkDataSize (spec (chunkSource s))) c
      ≠ channelSpaceShape transform !! d
    ∧ thrown
      = channelMismatchMessage transform d (channelSpaceShape transform !! d)
          (index (chunkDataSize (spec (chunkSource s))) c)
    ∧ gts info0 transform layer s = Throw thrown
    ∧ (∃ reported,
         gvts info0 transform getSources messages layer
         = Return {| transformedSources := [];
                     messagesAfter :=
                       [{| severity := error; message := reported |}];
                     disposed :=
                       (fun s => sourceId (chunkSource s)) <$> concat allSources |})
    ∧ (∀ pre post,
         concat allSources = pre ++ s :: post →
         Forall (fun s' => ∃ r, gts info0 transform layer s' = Return r) pre →
         gvts info0 transform getSources messages layer
         = Return {| transformedSources := [];
                     messagesAfter :=
                       [{| severity := error;
                           message := "Cannot render (" +:+ dimensionDesc info0
                                      +:+ ") cross section: " +:+ thrown |}];
                     disposed :=
                       (fun s => sourceId (chunkSource s)) <$> concat allSources |}).
Proof.
  intros Herr Hsrc Hin Hct Hidx Hne Hmis.
  destruct (checkChannelDimensions_throws transform
              (chunkDataSize (spec (chunkSource s)))
              (channelToChunkDimensionIndices chunkTransform)
              0%nat channelDim chunkDim Hidx Hne Hmis)
    as (d & c & Hd & Hc & Hc1 & Hm & Hthrow).
  simpl in Hm, Hthrow.
  assert (Hgts : gts info0 transform layer s
                 = Throw (channelMismatchMessage transform d
                            (channelSpaceShape transform !! d)
                            (index (chunkDataSize (spec (chunkSource s))) c))).
  { unfold getTransformedSource. rewrite Hct. simpl. by rewrite Hthrow. }
  eexists d, c, _. repeat split; try done.
  - destruct (mapM_some_throw (gts info0 transform layer) _ _ _ Hin Hgts)
      as [e' He'].
    apply mapM_nested_throw in He'.
    eexists. unfold getVolumetricTransformedSources.
    rewrite Herr, Hsrc. simpl. by rewrite He'.
  - intros pre post Hsplit Hpre.
    pose proof (mapM_first_throw (gts info0 transform layer) pre post s _
                  Hpre Hgts) as Hflat.
    rewrite <- Hsplit in Hflat. apply mapM_nested_throw in Hflat.
    unfold getVolumetricTransformedSources.
    rewrite Herr, Hsrc. simpl. by rewrite Hflat.
Qed.

End TransformedSourcesFacts.

(** ** sliceview/frontend.ts: the visible-layer update *)

Section VisibleLayerFacts.

Import Frontend.

Context {Num : Type}.
Variables (zero NaN : Num) (fround : Num -> Num).
Context {SourceId : Type} `{Countable SourceId}.
Context {ChunkTransformParameters : Type}.
Variable channelToChunkDimensionIndices : ChunkTransformParameters -> list Z.
Variable getChunkTransformParameters :
  @RenderLayerTransformOrError Num -> list Num ->
  Result string ChunkTransformParameters.
Context {DisplayGeometry : Type}.
Variable displayGeometry :
  DisplayDimensionRenderInfo -> @RenderLayerTransformOrError Num ->
  @SliceViewSingleResolutionSource Num SourceId -> ChunkTransformParameters ->
  Result string DisplayGeometry.
Context {LayerRef : Type} `{Countable LayerRef}.
Context {Serialized : Type}.
Variable serializeTransformedSource :
  @FrontendTransformedSource Num SourceId ChunkTransformParameters
    DisplayGeometry LayerRef -> Serialized.

Abbreviation View :=
  (@SliceView Num SourceId _ _ ChunkTransformParameters DisplayGeometry
     LayerRef _ _ Serialized).

Abbreviation LayerObject :=
  (@RenderLayerObject Num SourceId _ _ ChunkTransformParameters).

Abbreviation updateLayer :=
  (updateVisibleLayer zero NaN fround channelToChunkDimensionIndices
     getChunkTransformParameters displayGeometry serializeTransformedSource).

Abbreviation updateLoop :=
  (updateVisibleLayersLoop zero NaN fround channelToChunkDimensionIndices
     getChunkTransformParameters displayGeometry serializeTransformedSource).

Lemma updateLayer_error (this : View) (changed : bool) (k : LayerRef)
    (layer : LayerObject) (now : Z) (e : string) :
  layerObjects this !! k = Some layer →
  isSliceViewRenderLayer layer = true →
  transformError (transformValue layer) = Some e →
  ∃ this',
    updateLayer now (this, changed) k = Return (this', true)
    ∧ visibleLayers this' = <[k := errorLayerInfo this layer now e]> (visibleLayers this)
    ∧ (∃ layer', layerObjects this' = <[k := layer']> (layerObjects this)
         ∧ registration layer' = registration layer
         ∧ messageChildren layer'
           = messageChildren layer ++ [[{| severity := error; message := e |}]]
         ∧ transformValue layer' = transformValue layer
         ∧ isSliceViewRenderLayer layer' = true)
    ∧ disposedSources this' = disposedSources this
    ∧ rpcInvoked this'
      = rpcInvoked this ++
        [{| msg_id := sliceViewRpcId this; msg_layerId := rpcId layer;
            msg_sources := [] |}]
    ∧ projectionDisplayDimensionRenderInfo this'
      = projectionDisplayDimensionRenderInfo this
    ∧ sliceViewRpcId this' = sliceViewRpcId this.
Proof.
  intros Hk Hslice Herr.
  unfold updateVisibleLayer. rewrite Hk, Hslice. simpl.
  unfold getTransformedSources.
  rewrite (errorTransform_outcome _ _ _ _ _ _ _ _ _ _ _ e Herr). simpl.
  eexists. split; [reflexivity|]. simpl.
  split; [done|].
  split; [eexists; split; [reflexivity|]; by simpl|].
  split; [by rewrite app_nil_r|]. done.
Qed.

Lemma updateLayer_agree (v1 v2 : View) (c1 c2 : bool) (k k' : LayerRef) now :
  agreeOff k v1 v2 → k' ≠ k →
  match updateLayer now (v1, c1) k', updateLayer now (v2, c2) k' with
  | Return (v1', _), Return (v2', _) => agreeOff k v1' v2'
  | Throw e1, Throw e2 => e1 = e2
  | _, _ => False
  end.
Proof.
  intros Hag Hne. pose proof Hag as (Hproj & Hid & Hoff).
  destruct (Hoff k' Hne) as [_ Hobj].
  unfold updateVisibleLayer. rewrite Hobj.
  destruct (layerObjects v2 !! k') as [layer|]; simpl; [|exact Hag].
  destruct (isSliceViewRenderLayer layer); simpl; [|exact Hag].
  unfold getTransformedSources. rewrite Hproj.
  destruct (getVolumetricTransformedSources _ _ _ _ _ _ _ _ _ _ _)
    as [outcome|e0]; simpl; [|done].
  rewrite Hid. split; [done|]. split; [done|].
  intros k'' Hk''. simpl.
  destruct (decide (k'' = k')) as [->|Hd].
  - by rewrite !lookup_insert_eq.
  - rewrite !lookup_insert_ne by done. by apply Hoff.
Qed.

Lemma updateLoop_cons now (acc : View * bool) (k : LayerRef) rest :
  updateLoop now acc (k :: rest)
  = (acc' ← updateLayer now acc k; updateLoop now acc' rest).
Proof. reflexivity. Qed.

Lemma updateLoop_agree (rest : list LayerRef) (k : LayerRef) now :
  k ∉ rest →
  ∀ (v1 v2 : View) (c1 c2 : bool), agreeOff k v1 v2 →
  match updateLoop now (v1, c1) rest, updateLoop now (v2, c2) rest with
  | Return (v1', _), Return (v2', _) => agreeOff k v1' v2'
  | Throw e1, Throw e2 => e1 = e2
  | _, _ => False
  end.
Proof.
  induction rest as [|k' rest IH]; intros Hnotin v1 v2 c1 c2 Hag.
  - done.
  - apply not_elem_of_cons in Hnotin as [Hne Hnotin].
    pose proof (updateLayer_agree v1 v2 c1 c2 k k' now Hag
                  (not_eq_sym Hne)) as Hstep.
    rewrite !updateLoop_cons.
    destruct (updateLayer now (v1, c1) k') as [[v1' c1']|e1],
             (updateLayer now (v2, c2) k') as [[v2' c2']|e2];
      try done.
    by apply IH.
Qed.

Lemma updateLoop_keeps (k : LayerRef) now (l : list LayerRef) :
  ∀ (v : View) (c : bool) x,
    k ∉ l → visibleLayers v !! k = Some x →
    match updateLoop now (v, c) l with
    | Return (v', _) => visibleLayers v' !! k = Some x
    | Throw _ => True
    end.
Proof.
  induction l as [|k' l IHl]; intros v c x Hnl Hx; [done|].
  apply not_elem_of_cons in Hnl as [Hne Hnl].
  rewrite updateLoop_cons.
  destruct (updateLayer now (v, c) k') as [[v' c']|e1] eqn:Hup; [|done].
  change (Return (v', c') ≫= _) with (updateLoop now (v', c') l).
  apply IHl; [done|].
  unfold updateVisibleLayer in Hup.
  destruct (layerObjects v !! k') as [lay|]; [|by injection Hup as <- <-].
  destruct (isSliceViewRenderLayer lay); simpl in Hup;
    [|by injection Hup as <- <-].
  destruct (getTransformedSources _ _ _ _ _ _ _ _ _ _) as [[o l1]|e1];
    simpl in Hup; [|done].
  injection Hup as <- <-. simpl. by rewrite lookup_insert_ne.
Qed.

(** The loop over the error layer followed by other layers, against the loop
    over the other layers alone. *)
Lemma updateLoop_error_first (this : View) (changed : bool) (k : LayerRef)
    (layer : LayerObject) (now : Z) (e : string) (rest : list LayerRef) :
  layerObjects this !! k = Some layer →
  isSliceViewRenderLayer layer = true →
  transformError (transformValue layer) = Some e →
  k ∉ rest →
  match updateLoop now (this, changed) (k :: rest),
        updateLoop now (this, changed) rest with
  | Return (v1, c1), Return (v2, _) =>
      agreeOff k v1 v2
      ∧ visibleLayers v1 !! k = Some (errorLayerInfo this layer now e)
      ∧ c1 = true
  | Throw e1, Throw e2 => e1 = e2
  | _, _ => False
  end.
Proof.
  intros Hk Hslice Herr Hnotin.
  destruct (updateLayer_error this changed k layer now e Hk Hslice Herr)
    as (this' & Hstep & Hvis & (layer' & Hobj & Hreg & Hmsg & Htr & Hsl)
        & Hdis & Hrpc & Hproj & Hid).
  assert (Hag : agreeOff k this' this).
  { split; [done|]. split; [done|]. intros k' Hne.
    rewrite Hvis, Hobj. by rewrite !lookup_insert_ne. }
  rewrite updateLoop_cons, Hstep.
  change (Return (this', true) ≫= _) with (updateLoop now (this', true) rest).
  pose proof (updateLoop_agree rest k now Hnotin this' this true changed Hag)
    as Hloop.
  pose proof (updateLoop_keeps k now rest this' true
                (errorLayerInfo this layer now e) Hnotin
                ltac:(by rewrite Hvis, lookup_insert_eq)) as Hk1.
  assert (Hflag : ∀ (l : list LayerRef) (v : View),
            match updateLoop now (v, true) l with
            | Return (_, c) => c = true
            | Throw _ => True
            end).
  { induction l as [|k' l IHl]; intros v; [done|].
    rewrite updateLoop_cons.
    destruct (updateLayer now (v, true) k') as [[v' c']|e1] eqn:Hup; [|done].
    change (Return (v', c') ≫= _) with (updateLoop now (v', c') l).
    assert (c' = true) as ->; [|apply IHl].
    unfold updateVisibleLayer in Hup.
    destruct (layerObjects v !! k') as [lay|]; [|by injection Hup as <- <-].
    destruct (isSliceViewRenderLayer lay); simpl in Hup;
      [|by injection Hup as <- <-].
    destruct (getTransformedSources _ _ _ _ _ _ _ _ _ _) as [[o l1]|e1];
      simpl in Hup; [|done].
    by injection Hup as <- <-. }
  pose proof (Hflag rest this') as Hc1.
  destruct (updateLoop now (this', true) rest) as [[v1 c1]|e1],
           (updateLoop now (this, changed) rest) as [[v2 c2]|e2];
    try done.
Qed.

(** What a step for another layer leaves alone: the object of layer [k] and
    the display dimensions. *)
Lemma updateLayer_frame (v v' : View) (c c' : bool) (k k' : LayerRef) now :
  k' ≠ k →
  updateLayer now (v, c) k' = Return (v', c') →
  layerObjects v' !! k = layerObjects v !! k
  ∧ projectionDisplayDimensionRenderInfo v'
    = projectionDisplayDimensionRenderInfo v.
Proof.
  intros Hne Hup. unfold updateVisibleLayer in Hup.
  destruct (layerObjects v !! k') as [lay|]; [|by injection Hup as <- <-].
  destruct (isSliceViewRenderLayer lay); simpl in Hup;
    [|by injection Hup as <- <-].
  destruct (getTransformedSources _ _ _ _ _ _ _ _ _ _) as [[o l1]|e1];
    simpl in Hup; [|done].
  injection Hup as <- <-. simpl. by rewrite lookup_insert_ne.
Qed.

Lemma updateLoop_frame (k : LayerRef) now (l : list LayerRef) :
  ∀ (v v' : View) (c c' : bool),
    k ∉ l →
    updateLoop now (v, c) l = Return (v', c') →
    layerObjects v' !! k = layerObjects v !! k
    ∧ projectionDisplayDimensionRenderInfo v'
      = projectionDisplayDimensionRenderInfo v.
Proof.
  induction l as [|k' l IHl]; intros v v' c c' Hnl Hrun.
  - by injection Hrun as <- <-.
  - apply not_elem_of_cons in Hnl as [Hne Hnl].
    rewrite updateLoop_cons in Hrun.
    destruct (updateLayer now (v, c) k') as [[v1 c1]|e1] eqn:Hup; [|done].
    change (Return (v1, c1) ≫= _) with (updateLoop now (v1, c1) l) in Hrun.
    destruct (updateLayer_frame v v1 c c1 k k' now (not_eq_sym Hne) Hup)
      as [Hobj Hproj].
    destruct (IHl v1 v' c1 c' Hnl Hrun) as [Hobj' Hproj'].
    split; congruence.
Qed.

Lemma updateLoop_app now (l1 l2 : list LayerRef) :
  ∀ acc : View * bool,
    updateLoop now acc (l1 ++ l2)
    = (acc' ← updateLoop now acc l1; updateLoop now acc' l2).
Proof.
  induction l1 as [|k l1 IH]; intros acc; [done|].
  rewrite <- app_comm_cons, !updateLoop_cons.
  destruct (updateLayer now acc k) as [acc1|e1]; [|done].
  apply IH.
Qed.

(** The sources disposed of by a step for another layer do not depend on
    what the view holds about layer [k]. *)
Lemma updateLayer_disposed (v1 v2 : View) (c1 c2 : bool) (k k' : LayerRef) now :
  agreeOff k v1 v2 → disposedSources v1 = disposedSources v2 → k' ≠ k →
  match updateLayer now (v1, c1) k', updateLayer now (v2, c2) k' with
  | Return (v1', _), Return (v2', _) =>
      disposedSources v1' = disposedSources v2'
  | _, _ => True
  end.
Proof.
  intros (Hproj & Hid & Hoff) Hdis Hne.
  destruct (Hoff k' Hne) as [_ Hobj].
  unfold updateVisibleLayer. rewrite Hobj.
  destruct (layerObjects v2 !! k') as [layer|]; simpl; [|done].
  destruct (isSliceViewRenderLayer layer); simpl; [|done].
  unfold getTransformedSources. rewrite Hproj.
  destruct (getVolumetricTransformedSources _ _ _ _ _ _ _ _ _ _ _)
    as [outcome|e0]; simpl; [|done].
  by rewrite Hdis.
Qed.

Lemma updateLoop_disposed (rest : list LayerRef) (k : LayerRef) now :
  k ∉ rest →
  ∀ (v1 v2 : View) (c1 c2 : bool),
    agreeOff k v1 v2 → disposedSources v1 = disposedSources v2 →
    match updateLoop now (v1, c1) rest, updateLoop now (v2, c2) rest with
    | Return (v1', _), Return (v2', _) =>
        disposedSources v1' = disposedSources v2'
    | _, _ => True
    end.
Proof.
  induction rest as [|k' rest IH]; intros Hnotin v1 v2 c1 c2 Hag Hdis.
  - done.
  - apply not_elem_of_cons in Hnotin as [Hne Hnotin].
    pose proof (updateLayer_agree v1 v2 c1 c2 k k' now Hag
                  (not_eq_sym Hne)) as Hstep.
    pose proof (updateLayer_disposed v1 v2 c1 c2 k k' now Hag Hdis
                  (not_eq_sym Hne)) as Hstep'.
    rewrite !updateLoop_cons.
    destruct (updateLayer now (v1, c1) k') as [[v1' c1']|e1],
             (updateLayer now (v2, c2) k') as [[v2' c2']|e2];
      try done.
    by apply IH.
Qed.

(** The loop over a list of ready layers that holds the error layer once, at
    any place, against the loop over the list without it. *)
Lemma updateLoop_error_anywhere (this : View) (changed : bool) (k : LayerRef)
    (layer : LayerObject) (now : Z) (e : string) (before after : list LayerRef) :
  layerObjects this !! k = Some layer →
  isSliceViewRenderLayer layer = true →
  transformError (transformValue layer) = Some e →
  k ∉ before → k ∉ after →
  match updateLoop now (this, changed) (before ++ k :: after),
        updateLoop now (this, changed) (before ++ after) with
  | Return (v1, c1), Return (v2, _) =>
      agreeOff k v1 v2
      ∧ disposedSources v1 = disposedSources v2
      ∧ visibleLayers v1 !! k = Some (errorLayerInfo this layer now e)
      ∧ c1 = true
  | Throw e1, Throw e2 => e1 = e2
  | _, _ => False
  end.
Proof.
  intros Hk Hslice Herr Hbefore Hafter.
  rewrite !updateLoop_app.
  destruct (updateLoop now (this, changed) before) as [[v c]|e0] eqn:Hpre;
    [|done].
  change (Return (v, c) ≫= ?f) with (f (v, c)). cbv beta.
  destruct (updateLoop_frame k now before this v changed c Hbefore Hpre)
    as [Hobj Hproj].
  rewrite Hk in Hobj.
  pose proof (updateLoop_error_first v c k layer now e after
                Hobj Hslice Herr Hafter) as Hloop.
  assert (Hinfo : errorLayerInfo v layer now e = errorLayerInfo this layer now e).
  { unfold errorLayerInfo. by rewrite Hproj. }
  rewrite Hinfo in Hloop.
  destruct (updateLayer_error v c k layer now e Hobj Hslice Herr)
    as (v' & Hstep & Hvis & (layer' & Hobj' & _) & Hdis & _ & Hproj' & Hid').
  assert (Hag : agreeOff k v' v).
  { split; [done|]. split; [done|]. intros k' Hne.
    rewrite Hvis, Hobj'. by rewrite !lookup_insert_ne. }
  pose proof (updateLoop_disposed after k now Hafter v' v true c Hag Hdis)
    as Hdisposed.
  rewrite updateLoop_cons, Hstep in Hloop |- *.
  change (Return (v', true) ≫= ?f) with (f (v', true)) in Hloop |- *.
  cbv beta in Hloop |- *.
  destruct (updateLoop now (v', true) after) as [[v1 c1]|e1],
           (updateLoop now (v, c) after) as [[v2 c2]|e2];
    try done.
  destruct Hloop as (? & ? & ?). done.
Qed.

Abbreviation updateNow :=
  (updateVisibleLayersNow zero NaN fround channelToChunkDimensionIndices
     getChunkTransformParameters displayGeometry serializeTransformedSource).

(** C3.  For a render layer whose transform is marked as the error [e]:
    computing its transformed sources returns the empty list and leaves
    exactly one message, of severity error, in the message list it was
    given; the step of the visible-layer update for that layer returns,
    records that outcome for the layer, attaches the one-message list to the
    layer and registers no source with it; and wherever the layer stands
    among the ready layers, the update of the view throws exactly when the
    update over the other layers alone throws, with the same exception, and
    otherwise yields the same state for every other layer and disposes of
    the same sources. *)
Theorem error_transform_is_per_layer
    (this : View) (changed : bool) (k : LayerRef) (layer : LayerObject)
    (now : Z) (e : string) (messages : MessageList)
    (before after : list LayerRef) :
  layerObjects this !! k = Some layer →
  isSliceViewRenderLayer layer = true →
  transformError (transformValue layer) = Some e →
  k ∉ before → k ∉ after →
  wasDisposed this = false →
  getVolumetricTransformedSources zero NaN fround channelToChunkDimensionIndices
    getChunkTransformParameters displayGeometry
    (projectionDisplayDimensionRenderInfo this) (transformValue layer)
    (multiscaleGetSources layer) messages k
  = Return {| transformedSources := [];
              messagesAfter := [{| severity := error; message := e |}];
              disposed := [] |}
  ∧ (∃ this' layer',
       updateLayer now (this, changed) k = Return (this', true)
       ∧ visibleLayers this' !! k = Some (errorLayerInfo this layer now e)
       ∧ layerObjects this' !! k = Some layer'
       ∧ registration layer' = registration layer
       ∧ messageChildren layer'
         = messageChildren layer ++ [[{| severity := error; message := e |}]]
       ∧ agreeOff k this' this)
  ∧ match updateNow this now (before ++ k :: after),
          updateNow this now (before ++ after) with
    | Return (v1, changed1), Return (v2, _) =>
        agreeOff k v1 v2
        ∧ disposedSources v1 = disposedSources v2
        ∧ visibleLayers v1 !! k = Some (errorLayerInfo this layer now e)
        ∧ changed1 = true
    | Throw e1, Throw e2 => e1 = e2
    | _, _ => False
    end.
Proof.
  intros Hk Hslice Herr Hbefore Hafter Hlive.
  destruct (updateLayer_error this changed k layer now e Hk Hslice Herr)
    as (this' & Hstep & Hvis & (layer' & Hobj & Hreg & Hmsg & Htr & Hsl)
        & Hdis & Hrpc & Hproj & Hid).
  split; [by apply errorTransform_outcome|].
  split.
  - exists this', layer'. split; [done|].
    split; [by rewrite Hvis, lookup_insert_eq|].
    split; [by rewrite Hobj, lookup_insert_eq|].
    split; [done|]. split; [done|].
    split; [done|]. split; [done|]. intros k' Hne.
    rewrite Hvis, Hobj. by rewrite !lookup_insert_ne.
  - unfold updateVisibleLayersNow. rewrite Hlive.
    match goal with
    | |- context [updateVisibleLayersLoop _ _ _ _ _ _ _ _ (?v, false) _] =>
        set (this0 := v)
    end.
    pose proof (updateLoop_error_anywhere this0 false k layer now e
                  before after Hk Hslice Herr Hbefore Hafter) as Hloop.
    destruct (updateLoop now (this0, false) (before ++ k :: after))
      as [[v1 c1]|e1],
             (updateLoop now (this0, false) (before ++ after))
      as [[v2 c2]|e2];
      done.
Qed.

End VisibleLayerFacts.

(** ** sliceview/frontend.ts: [fetchChunk] *)

Section FetchChunkFacts.

Import FetchChunk.

Context {Payload T RpcError : Type}.
Variable SYSTEM_MEMORY : Z.

Abbreviation W := (World Payload T RpcError).
Abbreviation Chunk := (SliceViewChunk Payload).
Abbreviation fetch := (fetchChunk SYSTEM_MEMORY (T := T) (RpcError := RpcError)).
Abbreviation newChunk := (newSliceViewChunk SYSTEM_MEMORY (Payload := Payload)).
Abbreviation runFrom := (run SYSTEM_MEMORY (T := T) (RpcError := RpcError)).
Abbreviation usable := (existingUsable SYSTEM_MEMORY (Payload := Payload)).

(** *** What one step does to one call and to the requester arrays *)

Lemma existingUsable_Some (this : SliceViewChunkSource Payload) key c :
  chunks this !! key = Some c → state c <= SYSTEM_MEMORY →
  usable this key = Some c.
Proof.
  intros Hc Hs. unfold existingUsable. rewrite Hc. by rewrite decide_True.
Qed.

Lemma existingUsable_None (this : SliceViewChunkSource Payload) key :
  (∀ c, chunks this !! key = Some c → ¬ state c <= SYSTEM_MEMORY) →
  usable this key = None.
Proof.
  intros Hno. unfold existingUsable.
  destruct (chunks this !! key) as [c|] eqn:Hc; [|done].
  rewrite decide_False; [done|]. by apply Hno.
Qed.

Lemma spliceOut_subset (r : nat) (entry : list nat) (x : nat) :
  x ∈ spliceOut r entry → x ∈ entry.
Proof.
  unfold spliceOut.
  destruct (list_find _ entry) as [[i y]|].
  - intros Hx. apply list_elem_of_lookup in Hx as [j Hj].
    rewrite list_lookup_delete in Hj.
    apply list_elem_of_lookup.
    destruct (decide (j < i)%nat); eauto.
  - intros Hx. apply list_elem_of_lookup in Hx as [j Hj].
    apply lookup_take_Some in Hj as [Hj _].
    apply list_elem_of_lookup. eauto.
Qed.

Lemma requesterMap_finally (this : SliceViewChunkSource Payload) key r k ids x :
  requesterMap (finallyBlock this key r) !! k = Some ids → x ∈ ids →
  ∃ ids', requesterMap this !! k = Some ids' ∧ x ∈ ids'.
Proof.
  unfold finallyBlock, requesterMap at 1. simpl.
  set (entry := spliceOut r (requestersOf this key)).
  set (map1 := if decide (length entry = 0%nat) then _ else _).
  intros Hl Hx.
  assert (Hmap1 : map1 !! k = Some ids).
  { destruct (decide (size map1 = 0%nat)); simpl in Hl; [|done].
    by rewrite lookup_empty in Hl. }
  unfold map1 in Hmap1.
  destruct (decide (length entry = 0%nat)).
  - destruct (decide (k = key)) as [->|Hne].
    + by rewrite lookup_delete_eq in Hmap1.
    + rewrite lookup_delete_ne in Hmap1 by done. eauto.
  - destruct (decide (k = key)) as [->|Hne].
    + rewrite lookup_insert_eq in Hmap1. injection Hmap1 as <-.
      apply spliceOut_subset in Hx. unfold requestersOf in Hx.
      destruct (requesterMap this !! key) as [ids'|]; simpl in Hx; [eauto|].
      by apply elem_of_nil in Hx.
    + rewrite lookup_insert_ne in Hmap1 by done. eauto.
Qed.

Lemma invokeRequester_call (chunk : Chunk) (w : W) (j id : nat)
    (c : Call Payload T RpcError) :
  calls w !! id = Some c →
  ∃ c', calls (invokeRequester chunk w j) !! id = Some c'
    ∧ callKey c' = callKey c ∧ callTransform c' = callTransform c
    ∧ status c' = status c
    ∧ promise c'
      = (if decide (id = j)
         then match promise c with
              | Some v => Some v
              | None => Some (callTransform c chunk)
              end
         else promise c).
Proof.
  intros Hc. unfold invokeRequester.
  destruct (decide (id = j)) as [<-|Hne].
  - rewrite Hc. simpl. eexists. split.
    + apply list_lookup_insert_eq. by eapply lookup_lt_Some.
    + done.
  - destruct (calls w !! j) as [cj|]; simpl.
    + exists c. by rewrite list_lookup_insert_ne.
    + by exists c.
Qed.

(** Invoking the requesters of a list: the call [id] keeps everything but its
    promise, which is filled with the value of its transform on the chunk if
    it was empty and [id] is in the list. *)
Lemma invokeAll_call (chunk : Chunk) (ids : list nat) :
  ∀ (w : W) (id : nat) (c : Call Payload T RpcError),
    calls w !! id = Some c →
    ∃ c', calls (fold_left (invokeRequester chunk) ids w) !! id = Some c'
      ∧ callKey c' = callKey c ∧ callTransform c' = callTransform c
      ∧ status c' = status c
      ∧ promise c'
        = (if decide (id ∈ ids)
           then match promise c with
                | Some v => Some v
                | None => Some (callTransform c chunk)
                end
           else promise c).
Proof.
  induction ids as [|j ids IH]; intros w id c Hc; cbn [fold_left].
  - exists c. rewrite decide_False by apply not_elem_of_nil. done.
  - destruct (invokeRequester_call chunk w j id c Hc)
      as (c1 & Hc1 & Hk1 & Ht1 & Hs1 & Hp1).
    destruct (IH _ id c1 Hc1) as (c' & Hc' & Hk & Ht & Hs & Hp).
    exists c'. split; [exact Hc'|].
    split; [congruence|]. split; [congruence|]. split; [congruence|].
    rewrite Hp, Hp1, Ht1.
    destruct (decide (id = j)) as [->|Hne].
    + rewrite (decide_True (P := j ∈ j :: ids)) by left.
      destruct (promise c); by case_decide.
    + destruct (decide (id ∈ ids)) as [Hin|Hnin].
      * by rewrite (decide_True (P := id ∈ j :: ids)) by (by right).
      * rewrite (decide_False (P := id ∈ j :: ids)); [done|].
        intros [?|?]%elem_of_cons; done.
Qed.

Lemma invokeAll_source (chunk : Chunk) (ids : list nat) (w : W) :
  source (fold_left (invokeRequester chunk) ids w) = source w
  ∧ requestsSent (fold_left (invokeRequester chunk) ids w) = requestsSent w
  ∧ length (calls (fold_left (invokeRequester chunk) ids w)) = length (calls w).
Proof.
  revert w. induction ids as [|j ids IH]; intros w; simpl; [done|].
  destruct (IH (invokeRequester chunk w j)) as (-> & -> & ->).
  unfold invokeRequester. destruct (calls w !! j); simpl; [|done].
  by rewrite length_insert.
Qed.

Lemma invokeAll_notified (chunk : Chunk) (ids : list nat) (w : W) :
  Forall (fun id => (id < length (calls w))%nat) ids →
  notified (fold_left (invokeRequester chunk) ids w) = notified w ++ ids.
Proof.
  revert w. induction ids as [|j ids IH]; intros w Hall; simpl.
  - by rewrite app_nil_r.
  - apply Forall_cons in Hall as [Hj Hall].
    destruct (lookup_lt_is_Some_2 (calls w) j Hj) as [cj Hcj].
    rewrite IH.
    + unfold invokeRequester. rewrite Hcj. simpl. by rewrite <- app_assoc.
    + unfold invokeRequester. rewrite Hcj. simpl. by rewrite length_insert.
Qed.

(** *** The invariant of a waiting call *)

Abbreviation Ev := (Event Payload T RpcError).
Abbreviation tracking := (tracks SYSTEM_MEMORY (RpcError := RpcError)).
Abbreviation stepOf := (step SYSTEM_MEMORY (T := T) (RpcError := RpcError)).

Lemma tracks_fetchChunk id key tr (seen : list Ev) (w : W) pos' tr' ev :
  tracking id key tr seen w →
  tracking id key tr (seen ++ [ev]) (fetch w pos' tr').
Proof.
  intros (c & Hc & Hk & Ht & Hp & Hs & Hr).
  assert (Hlt : (id < length (calls w))%nat) by (by eapply lookup_lt_Some).
  assert (Hp' : ∀ v, promise c = Some v →
            ∃ x, ChunkReady x ∈ seen ++ [ev]
              ∧ gridKey (x_chunkGridPosition x) = key ∧ v = tr (newChunk x)).
  { intros v Hv. destruct (Hp v Hv) as (x & Hx & Hrest).
    exists x. split; [|done]. apply elem_of_app. by left. }
  unfold fetchChunk.
  destruct (existingUsable _ _ _) as [existing|].
  - exists c. simpl. split; [by rewrite lookup_app_l|]. done.
  - exists c. simpl. split; [by rewrite lookup_app_l|].
    repeat split; try done.
    intros k ids Hl Hin. unfold requesterMap in Hl. simpl in Hl.
    destruct (decide (k = gridKey pos')) as [->|Hne].
    + rewrite lookup_insert_eq in Hl. injection Hl as <-.
      apply elem_of_app in Hin as [Hin|Hin].
      * unfold requestersOf in Hin.
        destruct (requesterMap (source w) !! gridKey pos') as [ids'|] eqn:Hl';
          simpl in Hin; [by eapply Hr|by apply elem_of_nil in Hin].
      * apply list_elem_of_singleton in Hin. lia.
    + rewrite lookup_insert_ne in Hl by done. by eapply Hr.
Qed.

Lemma tracks_setCall id key tr (seen : list Ev) (w : W) ev j
    (cj : Call Payload T RpcError) (st : CallStatus T RpcError)
    (this' : SliceViewChunkSource Payload) :
  tracking id key tr seen w →
  calls w !! j = Some cj →
  (∀ v, st = Settled (Return v) → promise cj = Some v) →
  (∀ k ids x, requesterMap this' !! k = Some ids → x ∈ ids →
     ∃ ids', requesterMap (source w) !! k = Some ids' ∧ x ∈ ids') →
  tracking id key tr (seen ++ [ev])
    (setCall w j
       {| callKey := callKey cj; callTransform := callTransform cj;
          promise := promise cj; status := st |} this').
Proof.
  intros (c & Hc & Hk & Ht & Hp & Hs & Hr) Hj Hst Hsub.
  assert (Hp' : ∀ v, promise c = Some v →
            ∃ x, ChunkReady x ∈ seen ++ [ev]
              ∧ gridKey (x_chunkGridPosition x) = key ∧ v = tr (newChunk x)).
  { intros v Hv. destruct (Hp v Hv) as (x & Hx & Hrest).
    exists x. split; [|done]. apply elem_of_app. by left. }
  assert (Hr' : ∀ k ids, requesterMap this' !! k = Some ids → id ∈ ids → k = key).
  { intros k ids Hl Hin. destruct (Hsub k ids id Hl Hin) as (ids' & Hl' & Hin').
    by eapply Hr. }
  unfold tracks, setCall. simpl.
  destruct (decide (j = id)) as [->|Hne].
  - rewrite Hc in Hj. injection Hj as <-.
    eexists. split.
    { apply list_lookup_insert_eq. by eapply lookup_lt_Some. }
    simpl. done.
  - exists c. split; [by rewrite list_lookup_insert_ne|]. done.
Qed.

Lemma tracks_step id key tr (seen : list Ev) (w : W) (ev : Ev) :
  tracking id key tr seen w →
  tracking id key tr (seen ++ [ev]) (stepOf w ev).
Proof.
  intros Htr.
  assert (Hweak : tracking id key tr (seen ++ [ev]) w).
  { destruct Htr as (c & Hc & Hk & Ht & Hp & Hs & Hr).
    exists c. repeat split; try done.
    intros v Hv. destruct (Hp v Hv) as (x & Hx & Hrest).
    exists x. split; [|done]. apply elem_of_app. by left. }
  destruct ev as [pos' tr'|j|j e|j|x]; simpl.
  - by apply tracks_fetchChunk.
  - unfold rpcResolved.
    destruct (calls w !! j) as [cj|] eqn:Hj; [|done].
    destruct (status cj) eqn:Hst; try done.
    apply tracks_setCall; eauto. intros v [=].
  - unfold rpcRejected.
    destruct (calls w !! j) as [cj|] eqn:Hj; [|done].
    destruct (status cj) eqn:Hst; try done.
    unfold settle. apply tracks_setCall; eauto.
    + intros v [=].
    + intros k ids y. apply requesterMap_finally.
  - unfold resume.
    destruct (calls w !! j) as [cj|] eqn:Hj; [|done].
    destruct (status cj) eqn:Hst; try done.
    destruct (promise cj) as [v|] eqn:Hpj; [|done].
    unfold settle. apply tracks_setCall; eauto.
    + intros v' [= <-]. done.
    + intros k ids y. apply requesterMap_finally.
  - destruct Htr as (c & Hc & Hk & Ht & Hp & Hs & Hr).
    unfold chunkReady.
    set (w0 := {| source := _; calls := calls w;
                  requestsSent := requestsSent w; notified := notified w |}).
    destruct (invokeAll_call (newChunk x)
                (requestersOf (source w) (gridKey (x_chunkGridPosition x)))
                w0 id c Hc) as (c' & Hc' & Hk' & Ht' & Hs' & Hp').
    destruct (invokeAll_source (newChunk x)
                (requestersOf (source w) (gridKey (x_chunkGridPosition x)))
                w0) as (Hsrc & _ & _).
    exists c'. split; [exact Hc'|].
    split; [congruence|]. split; [congruence|].
    split; [|split].
    + intros v Hv. rewrite Hp' in Hv.
      destruct (decide (id ∈ _)) as [Hin|Hnin].
      * destruct (promise c) as [v0|] eqn:Hpc.
        -- injection Hv as <-. destruct (Hp v0 eq_refl) as (x0 & Hx0 & Hrest).
           exists x0. split; [|done]. apply elem_of_app. by left.
        -- injection Hv as <-. exists x.
           split; [apply elem_of_app; right; by apply list_elem_of_singleton|].
           split; [|by rewrite Ht].
           unfold requestersOf in Hin.
           destruct (requesterMap (source w) !! gridKey (x_chunkGridPosition x))
             as [ids|] eqn:Hl; simpl in Hin;
             [by eapply Hr|by apply elem_of_nil in Hin].
      * destruct (Hp v Hv) as (x0 & Hx0 & Hrest).
        exists x0. split; [|done]. apply elem_of_app. by left.
    + intros v Hv. rewrite Hs' in Hv. rewrite Hp', (Hs v Hv).
      by case_decide.
    + rewrite Hsrc. exact Hr.
Qed.

Lemma tracks_run id key tr (events : list Ev) :
  ∀ (seen : list Ev) (w : W),
    tracking id key tr seen w →
    tracking id key tr (seen ++ events) (runFrom w events).
Proof.
  induction events as [|ev events IH]; intros seen w Htr; simpl.
  - by rewrite app_nil_r.
  - replace (seen ++ ev :: events) with ((seen ++ [ev]) ++ events)
      by (by rewrite <- app_assoc).
    apply IH. by apply tracks_step.
Qed.

Lemma tracks_initial (w : W) pos tr :
  wellFormed w → usable (source w) (gridKey pos) = None →
  tracking (length (calls w)) (gridKey pos) tr [] (fetch w pos tr).
Proof.
  intros Hwf Hnone. unfold fetchChunk. rewrite Hnone.
  eexists. simpl. split; [by apply list_lookup_middle|]. simpl.
  repeat split; try done.
  intros k ids Hl Hin. unfold requesterMap in Hl. simpl in Hl.
  destruct (decide (k = gridKey pos)) as [->|Hne]; [done|].
  rewrite lookup_insert_ne in Hl by done.
  pose proof (Hwf k ids _ Hl Hin). lia.
Qed.

(** *** Running a waiting call to its end *)

Lemma settle_one (w : W) id (c : Call Payload T RpcError) v :
  calls w !! id = Some c → status c = AwaitingRpc → promise c = Some v →
  resultOf (runFrom w [RpcResolved id; Resume id]) id = Some v.
Proof.
  intros Hc Hs Hp. simpl. unfold rpcResolved. rewrite Hc, Hs.
  assert (Hlt : (id < length (calls w))%nat) by (by eapply lookup_lt_Some).
  unfold resume, setCall. simpl.
  rewrite list_lookup_insert_eq by done. simpl. rewrite Hp.
  unfold resultOf, settle, setCall. simpl.
  rewrite list_lookup_insert_eq by (by rewrite length_insert). done.
Qed.

Lemma settle_other (w : W) id j :
  j ≠ id →
  calls (runFrom w [RpcResolved j; Resume j]) !! id = calls w !! id.
Proof.
  intros Hne. simpl.
  assert (H1 : calls (rpcResolved w j) !! id = calls w !! id).
  { unfold rpcResolved. destruct (calls w !! j) as [cj|]; [|done].
    destruct (status cj); try done. simpl. by rewrite list_lookup_insert_ne. }
  rewrite <- H1. unfold resume.
  destruct (calls (rpcResolved w j) !! j) as [cj|]; [|done].
  destruct (status cj); try done.
  destruct (promise cj); [|done]. simpl. by rewrite list_lookup_insert_ne.
Qed.

Lemma settleEvents_cons (w : W) j ids :
  runFrom w (settleEvents (j :: ids))
  = runFrom (runFrom w [RpcResolved j; Resume j]) (settleEvents ids).
Proof. reflexivity. Qed.

Lemma settleEvents_other (ids : list nat) id :
  id ∉ ids → ∀ w : W, calls (runFrom w (settleEvents ids)) !! id = calls w !! id.
Proof.
  induction ids as [|j ids IH]; intros Hnin w; [done|].
  apply not_elem_of_cons in Hnin as [Hne Hnin].
  rewrite settleEvents_cons, IH by done. by apply settle_other.
Qed.

Lemma settle_all (P : nat -> T -> Prop) (ids : list nat) :
  NoDup ids →
  ∀ w : W,
    (∀ id, id ∈ ids →
       ∃ c v, calls w !! id = Some c ∧ status c = AwaitingRpc
         ∧ promise c = Some v ∧ P id v) →
    ∀ id, id ∈ ids →
      ∃ v, resultOf (runFrom w (settleEvents ids)) id = Some v ∧ P id v.
Proof.
  induction 1 as [|j ids Hnin Hnd IH]; intros w Hall id Hin.
  - by apply elem_of_nil in Hin.
  - rewrite settleEvents_cons.
    apply elem_of_cons in Hin as [->|Hin].
    + destruct (Hall j) as (c & v & Hc & Hs & Hp & HP); [by left|].
      exists v. split; [|done].
      unfold resultOf. rewrite settleEvents_other by done.
      by eapply settle_one.
    + apply IH; [|done].
      intros id' Hin'. rewrite settle_other.
      * apply Hall. by right.
      * intros ->. done.
Qed.

Lemma chunkReady_call (w : W) (x : ChunkUpdate Payload) id
    (c : Call Payload T RpcError) :
  calls w !! id = Some c →
  ∃ c', calls (chunkReady SYSTEM_MEMORY w x) !! id = Some c'
    ∧ callKey c' = callKey c ∧ callTransform c' = callTransform c
    ∧ status c' = status c
    ∧ promise c'
      = (if decide (id ∈ requestersOf (source w) (gridKey (x_chunkGridPosition x)))
         then match promise c with
              | Some v => Some v
              | None => Some (callTransform c (newChunk x))
              end
         else promise c).
Proof.
  intros Hc. unfold chunkReady. by apply invokeAll_call.
Qed.

Lemma fetchChunk_waiting (w : W) pos tr :
  usable (source w) (gridKey pos) = None →
  requestersOf (source (fetch w pos tr)) (gridKey pos)
  = requestersOf (source w) (gridKey pos) ++ [length (calls w)]
  ∧ requestsSent (fetch w pos tr)
    = requestsSent w ++ [{| req_source := rpcId (source w);
                            req_chunkGridPosition := pos |}]
  ∧ calls (fetch w pos tr)
    = calls w ++ [{| callKey := gridKey pos; callTransform := tr;
                     promise := None; status := AwaitingRpc |}]
  ∧ chunks (source (fetch w pos tr)) = chunks (source w)
  ∧ rpcId (source (fetch w pos tr)) = rpcId (source w)
  ∧ notified (fetch w pos tr) = notified w
  ∧ refCount (source (fetch w pos tr)) = refCount (source w) + 1.
Proof.
  intros Hnone. unfold fetchChunk. rewrite Hnone. simpl.
  repeat split; try done.
  unfold requestersOf at 1, requesterMap at 1. simpl.
  by rewrite lookup_insert_eq.
Qed.

(** C1.  A call of [fetchChunk] for a position whose chunk is in the chunk
    map with a state not above SYSTEM_MEMORY has returned [transform] of that
    chunk when the call comes back; the source, the requests sent and the
    requesters are as before.  Every other call appends its requester to the
    array kept for the position, sends one request and has not returned.  It
    returns a value only after a chunk for that position was announced, and
    the value is [transform] of that chunk, which was constructed in state
    SYSTEM_MEMORY; and once the chunk is announced and the request is
    acknowledged, the call does return that value. *)
Theorem fetchChunk_immediate_or_waits
    (w : W) (pos : list Z) (transform : Chunk -> T) :
  wellFormed w →
  let key := gridKey pos in
  let id := length (calls w) in
  let w' := fetch w pos transform in
  (∀ c, chunks (source w) !! key = Some c → state c <= SYSTEM_MEMORY →
     resultOf w' id = Some (transform c)
     ∧ source w' = source w
     ∧ requestsSent w' = requestsSent w
     ∧ notified w' = notified w)
  ∧ ((∀ c, chunks (source w) !! key = Some c → ¬ state c <= SYSTEM_MEMORY) →
     requestersOf (source w') key = requestersOf (source w) key ++ [id]
     ∧ requestsSent w'
       = requestsSent w ++ [{| req_source := rpcId (source w);
                               req_chunkGridPosition := pos |}]
     ∧ resultOf w' id = None
     ∧ (∀ events v,
          resultOf (runFrom w' events) id = Some v →
          ∃ x, ChunkReady x ∈ events
            ∧ gridKey (x_chunkGridPosition x) = key
            ∧ v = transform (newChunk x)
            ∧ state (newChunk x) = SYSTEM_MEMORY)
     ∧ (∀ x, gridKey (x_chunkGridPosition x) = key →
          resultOf (runFrom w' [ChunkReady x; RpcResolved id; Resume id]) id
          = Some (transform (newChunk x)))).
Proof.
  intros Hwf key id w'. subst key id w'. split.
  - intros c Hc Hs. unfold fetchChunk.
    rewrite (existingUsable_Some _ _ _ Hc Hs). unfold resultOf. simpl.
    by rewrite list_lookup_middle.
  - intros Hno.
    pose proof (existingUsable_None _ _ Hno) as Hnone.
    destruct (fetchChunk_waiting w pos transform Hnone)
      as (Hreq & Hsent & Hcalls & Hchunks & Hrpc & Hnot & Href).
    split; [exact Hreq|]. split; [exact Hsent|].
    assert (Hnew : calls (fetch w pos transform) !! length (calls w)
                   = Some {| callKey := gridKey pos; callTransform := transform;
                             promise := None; status := AwaitingRpc |}).
    { rewrite Hcalls. by apply list_lookup_middle. }
    split; [by unfold resultOf; rewrite Hnew|].
    split.
    + intros events v Hv.
      pose proof (tracks_run (length (calls w)) (gridKey pos) transform events []
                    (fetch w pos transform)
                    (tracks_initial w pos transform Hwf Hnone))
        as (c & Hc & _ & _ & Hp & Hs & _).
      unfold resultOf in Hv. simpl in Hc. rewrite Hc in Hv. simpl in Hv.
      destruct (status c) as [| |[v'|e]] eqn:Hst; try done.
      injection Hv as ->.
      destruct (Hp v (Hs v eq_refl)) as (x & Hx & Hkey & Hval).
      exists x. done.
    + intros x Hx.
      destruct (chunkReady_call (fetch w pos transform) x _ _ Hnew)
        as (c' & Hc' & _ & _ & Hs' & Hp').
      rewrite Hx, Hreq in Hp'.
      rewrite decide_True in Hp'
        by (apply elem_of_app; right; by apply list_elem_of_singleton).
      simpl in Hp', Hs'.
      change (runFrom (fetch w pos transform)
                [ChunkReady x; RpcResolved (length (calls w));
                 Resume (length (calls w))])
        with (runFrom (chunkReady SYSTEM_MEMORY (fetch w pos transform) x)
                [RpcResolved (length (calls w)); Resume (length (calls w))]).
      by eapply settle_one.
Qed.

(** *** Several calls for one position *)

Lemma wellFormed_fetch (w : W) pos tr :
  wellFormed w → wellFormed (fetch w pos tr).
Proof.
  intros Hwf k ids x Hl Hin. unfold fetchChunk in *.
  destruct (existingUsable _ _ _); simpl in *.
  - rewrite length_app. pose proof (Hwf k ids x Hl Hin). lia.
  - rewrite length_app. simpl. unfold requesterMap in Hl. simpl in Hl.
    destruct (decide (k = gridKey pos)) as [->|Hne].
    + rewrite lookup_insert_eq in Hl. injection Hl as <-.
      apply elem_of_app in Hin as [Hin|Hin].
      * unfold requestersOf in Hin.
        destruct (requesterMap (source w) !! gridKey pos) as [ids'|] eqn:Hl';
          simpl in Hin; [|by apply elem_of_nil in Hin].
        pose proof (Hwf _ _ _ Hl' Hin). lia.
      * apply list_elem_of_singleton in Hin. lia.
    + rewrite lookup_insert_ne in Hl by done.
      pose proof (Hwf k ids x Hl Hin). lia.
Qed.

Lemma wellFormed_setCall (w : W) j (c : Call Payload T RpcError)
    (this' : SliceViewChunkSource Payload) :
  wellFormed w →
  (∀ k ids x, requesterMap this' !! k = Some ids → x ∈ ids →
     ∃ ids', requesterMap (source w) !! k = Some ids' ∧ x ∈ ids') →
  wellFormed (setCall w j c this').
Proof.
  intros Hwf Hsub k ids x Hl Hin. simpl in *. rewrite length_insert.
  destruct (Hsub k ids x Hl Hin) as (ids' & Hl' & Hin'). by eapply Hwf.
Qed.

(** Well-formedness is an invariant of the transition system: it holds of
    every world reached from a source on which nothing was requested. *)
Lemma wellFormed_step (w : W) (ev : Ev) :
  wellFormed w → wellFormed (stepOf w ev).
Proof.
  intros Hwf. destruct ev as [pos' tr'|j|j e|j|x]; simpl.
  - by apply wellFormed_fetch.
  - unfold rpcResolved. destruct (calls w !! j) as [cj|]; [|done].
    destruct (status cj); try done. apply wellFormed_setCall; eauto.
  - unfold rpcRejected. destruct (calls w !! j) as [cj|]; [|done].
    destruct (status cj); try done.
    apply wellFormed_setCall; [done|]. intros k ids y. apply requesterMap_finally.
  - unfold resume. destruct (calls w !! j) as [cj|]; [|done].
    destruct (status cj); try done. destruct (promise cj); [|done].
    apply wellFormed_setCall; [done|]. intros k ids y. apply requesterMap_finally.
  - intros k ids y Hl Hin. unfold chunkReady in *.
    destruct (invokeAll_source (newChunk x)
                (requestersOf (source w) (gridKey (x_chunkGridPosition x)))
                {| source :=
                     {| rpcId := rpcId (source w);
                        chunks := <[gridKey (x_chunkGridPosition x) := newChunk x]>
                                    (chunks (source w));
                        chunkRequesters := chunkRequesters (source w);
                        refCount := refCount (source w) |};
                   calls := calls w; requestsSent := requestsSent w;
                   notified := notified w |}) as (Hsrc & _ & Hlen).
    rewrite Hsrc in Hl. rewrite Hlen. simpl in *. by eapply Hwf.
Qed.

Lemma wellFormed_reachable (rpcId0 : option Z) (events : list Ev) :
  wellFormed (runFrom (emptyWorld rpcId0) events).
Proof.
  assert (Hrun : ∀ (evs : list Ev) (w : W),
            wellFormed w → wellFormed (runFrom w evs)).
  { induction evs as [|ev evs IH]; intros w Hwf; [done|].
    simpl. apply IH. by apply wellFormed_step. }
  apply Hrun. intros k ids x Hl.
  change (requesterMap (source (emptyWorld (Payload := Payload)
                                  (T := T) (RpcError := RpcError) rpcId0)))
    with (∅ : gmap string (list nat)) in Hl.
  by rewrite lookup_empty in Hl.
Qed.

Lemma wellFormed_requestersOf (w : W) key :
  wellFormed w →
  Forall (fun id => (id < length (calls w))%nat) (requestersOf (source w) key).
Proof.
  intros Hwf. unfold requestersOf.
  destruct (requesterMap (source w) !! key) as [ids|] eqn:Hl; simpl; [|done].
  apply Forall_forall. intros x Hx. by eapply Hwf.
Qed.

Lemma fetchAll_waiting pos (transforms : list (Chunk -> T)) :
  ∀ w : W,
    usable (source w) (gridKey pos) = None → wellFormed w →
    let w' := fetchAll SYSTEM_MEMORY w pos transforms in
    requestsSent w'
    = requestsSent w ++
      replicate (length transforms)
        {| req_source := rpcId (source w); req_chunkGridPosition := pos |}
    ∧ requestersOf (source w') (gridKey pos)
      = requestersOf (source w) (gridKey pos)
        ++ seq (length (calls w)) (length transforms)
    ∧ calls w'
      = calls w ++
        ((fun tr => {| callKey := gridKey pos; callTransform := tr;
                       promise := None; status := AwaitingRpc |})
           <$> transforms)
    ∧ notified w' = notified w
    ∧ wellFormed w'.
Proof.
  induction transforms as [|tr transforms IH]; intros w Hnone Hwf; simpl.
  - by rewrite !app_nil_r.
  - destruct (fetchChunk_waiting w pos tr Hnone)
      as (Hreq & Hsent & Hcalls & Hchunks & Hrpc & Hnot & Href).
    destruct (IH (fetch w pos tr)) as (Hs' & Hr' & Hc' & Hn' & Hwf').
    { unfold existingUsable in *. by rewrite Hchunks. }
    { by apply wellFormed_fetch. }
    unfold fetchAll in *.
    rewrite Hs', Hr', Hc', Hn', Hsent, Hreq, Hcalls, Hrpc, Hnot.
    rewrite length_app, <- !app_assoc. simpl.
    replace (length (calls w) + 1)%nat with (S (length (calls w))) by lia.
    done.
Qed.

Lemma chunkReady_notified (w : W) (x : ChunkUpdate Payload) :
  wellFormed w →
  notified (chunkReady SYSTEM_MEMORY w x)
  = notified w ++ requestersOf (source w) (gridKey (x_chunkGridPosition x)).
Proof.
  intros Hwf. unfold chunkReady.
  rewrite invokeAll_notified; [done|]. simpl.
  by apply wellFormed_requestersOf.
Qed.

(** X29.  [n] calls of [fetchChunk] for a position without a usable chunk
    send [n] chunk requests, one each, and append their [n] requesters, in
    call order, to the one array kept for the position; none of them has
    returned.  Once the chunk is announced and the requests are
    acknowledged, every call returns its own transform of that same
    chunk. *)
Theorem fetchChunk_calls_share_requesters
    (w : W) (pos : list Z) (transforms : list (Chunk -> T))
    (x : ChunkUpdate Payload) :
  wellFormed w →
  (∀ c, chunks (source w) !! gridKey pos = Some c → ¬ state c <= SYSTEM_MEMORY) →
  gridKey (x_chunkGridPosition x) = gridKey pos →
  let first := length (calls w) in
  let n := length transforms in
  let w1 := fetchAll SYSTEM_MEMORY w pos transforms in
  let w2 := chunkReady SYSTEM_MEMORY w1 x in
  let w3 := runFrom w2 (settleEvents (seq first n)) in
  requestsSent w1
  = requestsSent w ++
    replicate n {| req_source := rpcId (source w); req_chunkGridPosition := pos |}
  ∧ requestersOf (source w1) (gridKey pos)
    = requestersOf (source w) (gridKey pos) ++ seq first n
  ∧ ∀ i tr, transforms !! i = Some tr →
      resultOf w1 (first + i) = None
      ∧ resultOf w3 (first + i) = Some (tr (newChunk x)).
Proof.
  intros Hwf Hno Hx first n w1 w2 w3.
  pose proof (existingUsable_None _ _ Hno) as Hnone.
  destruct (fetchAll_waiting pos transforms w Hnone Hwf)
    as (Hsent & Hreq & Hcalls & Hnot & Hwf1).
  fold w1 in Hsent, Hreq, Hcalls, Hnot, Hwf1.
  split; [exact Hsent|]. split; [exact Hreq|].
  assert (Hcall : ∀ i tr, transforms !! i = Some tr →
            calls w1 !! (first + i)%nat
            = Some {| callKey := gridKey pos; callTransform := tr;
                      promise := None; status := AwaitingRpc |}).
  { intros i tr Hi. rewrite Hcalls.
    rewrite lookup_app_r by (unfold first; lia).
    replace (first + i - length (calls w))%nat with i by (unfold first; lia).
    by rewrite list_lookup_fmap, Hi. }
  set (P := fun (id : nat) (v : T) =>
              ∀ i tr, id = (first + i)%nat → transforms !! i = Some tr →
                      v = tr (newChunk x)).
  assert (Hall : ∀ id, id ∈ seq first n →
            ∃ c v, calls w2 !! id = Some c ∧ status c = AwaitingRpc
              ∧ promise c = Some v ∧ P id v).
  { intros id Hid. apply elem_of_seq in Hid as [Hlo Hhi].
    destruct (lookup_lt_is_Some_2 transforms (id - first)) as [tr Htr];
      [unfold n in Hhi; lia|].
    pose proof (Hcall _ _ Htr) as Hc.
    replace (first + (id - first))%nat with id in Hc by lia.
    destruct (chunkReady_call w1 x id _ Hc) as (c' & Hc' & _ & _ & Hs' & Hp').
    rewrite Hx, Hreq in Hp'.
    rewrite decide_True in Hp'
      by (apply elem_of_app; right; apply elem_of_seq; lia).
    exists c', (tr (newChunk x)). repeat split; try done.
    intros i tr' -> Hi.
    replace (first + i - first)%nat with i in Htr by lia. congruence. }
  intros i tr Hi.
  split; [by unfold resultOf; rewrite (Hcall i tr Hi)|].
  destruct (settle_all P (seq first n) (NoDup_seq _ _) w2 Hall (first + i)%nat)
    as (v & Hv & HP).
  { apply elem_of_seq. apply lookup_lt_Some in Hi. unfold n. lia. }
  unfold w3. rewrite Hv. f_equal. by apply (HP i tr).
Qed.

End FetchChunkFacts.

(* ===================================================================== *)
(** * Part III: the statements on concrete inputs                         *)
(* ===================================================================== *)

Section SampleFacts.

Import Samples.

Lemma ascii_compare_lt_trans (x y z : ascii) :
  Ascii.compare x y = Lt → Ascii.compare y z = Lt → Ascii.compare x z = Lt.
Proof.
  unfold Ascii.compare. rewrite !N.compare_lt_iff. lia.
Qed.

Lemma string_compare_le_trans (a : string) :
  ∀ b c, String.compare a b ≠ Gt → String.compare b c ≠ Gt →
         String.compare a c ≠ Gt.
Proof.
  induction a as [|x a IH]; intros [|y b] [|z c]; simpl; try done.
  destruct (Ascii.compare x y) eqn:Hxy; [| |done].
  - apply Ascii.compare_eq_iff in Hxy as ->.
    destruct (Ascii.compare y z); [by apply IH|done|done].
  - destruct (Ascii.compare y z) eqn:Hyz; [| |done].
    + apply Ascii.compare_eq_iff in Hyz as <-. by rewrite Hxy.
    + by rewrite (ascii_compare_lt_trans x y z).
Qed.

Lemma codeUnitCompare_le (a b : string) :
  codeUnitCompare a b <= 0 ↔ String.compare a b ≠ Gt.
Proof.
  unfold codeUnitCompare. destruct (String.compare a b); split; done || lia.
Qed.

Lemma codeUnitCompare_total (a b : string) :
  codeUnitCompare a b <= 0 ∨ codeUnitCompare b a <= 0.
Proof.
  rewrite !codeUnitCompare_le, (String.compare_antisym a b).
  destruct (String.compare b a); simpl; [by left|by right|by left].
Qed.

Lemma codeUnitCompare_trans (a b c : string) :
  codeUnitCompare a b <= 0 → codeUnitCompare b c <= 0 →
  codeUnitCompare a c <= 0.
Proof. rewrite !codeUnitCompare_le. apply string_compare_le_trans. Qed.

End SampleFacts.

(** C10 on the options [abd, b, abc, ab, a] and the prefix [ab], sorted by
    character codes. *)
Lemma getPrefixMatches_complete_sorted_witness :
  (∀ a b, Samples.codeUnitCompare a b <= 0 ∨ Samples.codeUnitCompare b a <= 0)
  ∧ (∀ a b c, Samples.codeUnitCompare a b <= 0 →
              Samples.codeUnitCompare b c <= 0 →
              Samples.codeUnitCompare a c <= 0)
  ∧ Permutation
      (Completion.getPrefixMatches Samples.codeUnitCompare "ab" Samples.options)
      ((fun option => {| Completion.value := option |}) <$>
         List.filter (fun option => String.prefix "ab" option) Samples.options)
  ∧ StronglySorted
      (fun a b => Samples.codeUnitCompare (Completion.value a) (Completion.value b) <= 0)
      (Completion.getPrefixMatches Samples.codeUnitCompare "ab" Samples.options).
Proof.
  split; [exact codeUnitCompare_total|].
  split; [exact codeUnitCompare_trans|].
  exact (proj1 (getPrefixMatches_complete_sorted Samples.codeUnitCompare "ab"
                  Samples.options codeUnitCompare_total codeUnitCompare_trans)).
Defined.

Example getPrefixMatches_sample :
  Completion.getPrefixMatches Samples.codeUnitCompare "ab" Samples.options
  = [{| Completion.value := "ab" |}; {| Completion.value := "abc" |};
     {| Completion.value := "abd" |}].
Proof. reflexivity. Qed.

(** The claim of C7 as the specification has it fails on a layer where
    source 2 is registered once: the [removeSource] that brings its count to
    zero removes the entry, and no reference of source 2 is released; its
    reference count is 1 before and after. *)
Lemma last_removeSource_releases_nothing :
  ¬ (∀ this',
       SourceReferences.removeSource MoreSamples.objects12 2%nat = Return this' →
       RenderLayer.visibleSources (SourceReferences.layer this') !! 2%nat = None
       ∧ SourceReferences.released
           (SourceReferences.references MoreSamples.objects12)
           (SourceReferences.references this') 2%nat).
Proof.
  intros Hclaim.
  destruct (Hclaim _ eq_refl) as [_ (count & Hbefore & Hafter)].
  vm_compute in Hbefore, Hafter.
  injection Hbefore as <-. discriminate Hafter.
Qed.

(** C7 on a layer where source 1 is registered twice and source 2 once:
    removing source 2 drops its entry and empties the cached list, removing
    source 1 leaves it registered once, adding source 1 with transform 30
    registers it three times with that transform, and the chunk sources
    have the reference counts they had. *)
Lemma refCount_add_remove_witness :
  RenderLayer.visibleSources (SourceReferences.layer MoreSamples.objects12)
    !! 2%nat
  = Some {| RenderLayer.source := 2%nat; RenderLayer.refCount := 1;
            RenderLayer.chunkTransform := 20 |}
  ∧ (∃ this',
       SourceReferences.removeSource MoreSamples.objects12 2%nat = Return this'
       ∧ RenderLayer.visibleSources (SourceReferences.layer this') !! 2%nat
         = None
       ∧ RenderLayer.visibleSourcesList_ (SourceReferences.layer this') = []
       ∧ SourceReferences.references this' !! 2%nat = Some 1)
  ∧ RenderLayer.visibleSources
      (SourceReferences.layer
         (SourceReferences.addSource MoreSamples.objects12 1%nat 30)) !! 1%nat
    = Some {| RenderLayer.source := 1%nat; RenderLayer.refCount := 2 + 1;
              RenderLayer.chunkTransform := 30 |}
  ∧ SourceReferences.references
      (SourceReferences.addSource MoreSamples.objects12 1%nat 30) !! 1%nat
    = Some 3.
Proof.
  pose proof (refCount_add_remove MoreSamples.objects12 2%nat 0)
    as (_ & _ & _ & _ & Hlast & Hrefs).
  pose proof (refCount_add_remove MoreSamples.objects12 1%nat 30)
    as (Hadd & _ & Hkeep & _).
  split; [reflexivity|]. split; [|split].
  - destruct (Hlast _ eq_refl eq_refl) as (this' & Hrem & Hnone & _ & Hlist).
    exists this'. split; [exact Hrem|]. split; [exact Hnone|].
    split; [exact Hlist|].
    rewrite (proj1 (Hrefs this' Hrem)). reflexivity.
  - exact (Hadd _ eq_refl).
  - rewrite Hkeep. reflexivity.
Defined.

(** C9 on a 2 x 3 chunk: position (1, 2) is slot 1 + 2 * 2 = 5. *)
Lemma getValueAt_fill_or_linear_witness :
  UncompressedChunk.data Samples.chunk23 = Some [10; 11; 20; 21; 30; 31]
  ∧ (length [1; 2]%N ≤ length (UncompressedChunk.chunkDataSize Samples.chunk23))%nat
  ∧ UncompressedChunk.linearIndex [2; 3]%N [1; 2]%N = 5%N
  ∧ UncompressedChunk.getValueAt Samples.chunk23 [1; 2]%N
    = UncompressedChunk.Number (Some 31).
Proof.
  split; [reflexivity|]. split; [simpl; lia|]. split; [reflexivity|].
  rewrite (proj2 (getValueAt_fill_or_linear Samples.chunk23 [1; 2]%N)
             _ eq_refl ltac:(simpl; lia)).
  reflexivity.
Defined.


(** The claim of C6 as the specification has it fails for the draw
    [1 - 2^-53], the largest double below 1: the sum [1 + r] rounds to 2, and
    the delay of attempt 4 is 10000 ms, which is not below 10000 and not
    5000 times a number below 2. *)
Lemma pickDelay_reaches_the_cap :
  (0 <= 9007199254740991 # 9007199254740992)%Q
  ∧ (9007199254740991 # 9007199254740992 < 1)%Q
  ∧ (Double.round (9007199254740991 # 9007199254740992)
     == 9007199254740991 # 9007199254740992)%Q
  ∧ (Double.round (1 + (9007199254740991 # 9007199254740992)) == 2)%Q
  ∧ (HttpRequest.pickDelay 4 (9007199254740991 # 9007199254740992)
     == 10000)%Q
  ∧ ¬ (HttpRequest.pickDelay 4 (9007199254740991 # 9007199254740992)
       < 10000)%Q.
Proof. repeat split; by vm_compute. Qed.

(** The same on the binary64 numbers of the kernel: the delay of attempt 4
    for that draw is the float 10000, and [HttpRequest.pickDelay] gives what
    the machine gives for draws at both ends of [0, 1) and in between, for
    attempt numbers that are negative, small, and beyond every double. *)
Example pickDelay_agrees_with_binary64 :
  Qred <$> MachineDoubles.valueOf
             (MachineDoubles.pickDelay 4
                (MachineDoubles.scaled 9007199254740991 (-53)))
  = Some 10000%Q
  ∧ forallb MachineDoubles.agrees
      [(4, MachineDoubles.scaled 9007199254740991 (-53));
       (0, MachineDoubles.scaled 9007199254740991 (-53));
       (-1, MachineDoubles.scaled 9007199254740991 (-53));
       (2, MachineDoubles.scaled 3602879701896397 (-55));
       (3, MachineDoubles.scaled 1 (-1074));
       (7, PrimFloat.zero);
       (1, MachineDoubles.scaled 1 (-1));
       (2000, MachineDoubles.scaled 5404319552844595 (-54));
       (-1074, MachineDoubles.scaled 6305039478318694 (-53));
       (-1080, MachineDoubles.scaled 6305039478318694 (-53))]
    = true.
Proof. split; by vm_compute. Qed.

(** C6 on the fourth attempt with a draw of one half: the floor is 4000 ms
    and the delay 6000 ms. *)
Lemma pickDelay_doubling_jitter_cap_witness :
  0 <= 3 ∧ (0 <= 1 # 2)%Q ∧ (1 # 2 < 1)%Q
  ∧ (HttpRequest.pickDelay 3 (1 # 2) == 6000)%Q
  ∧ (HttpRequest.delayFloor 3 <= HttpRequest.pickDelay 3 (1 # 2))%Q
  ∧ (HttpRequest.pickDelay 3 (1 # 2) <= 10000)%Q.
Proof.
  assert (H0 : 0 <= 3) by lia.
  assert (H1 : (0 <= 1 # 2)%Q) by (unfold Qle; simpl; lia).
  assert (H2 : (1 # 2 < 1)%Q) by (unfold Qlt; simpl; lia).
  pose proof (pickDelay_doubling_jitter_cap 3 (1 # 2) H0 H1 H2)
    as (_ & _ & _ & Hfloor & _ & _ & Hcap).
  split; [exact H0|]. split; [exact H1|]. split; [exact H2|].
  split; [by vm_compute|]. split; [exact Hfloor|exact Hcap].
Defined.

Example fetchOk_found :
  HttpRequest.fetchOk Samples.treeGet Samples.samplePathname
    (HttpRequest.UrlString "http://host/data/volume/0.0.0")
    (Some Samples.sampleTree)
  = Return (Samples.File "chunk bytes").
Proof. reflexivity. Qed.

(** C3 on a view of three layers whose ready layers are 2, 1, 3, layer 1
    carrying the error "rank mismatch": the step for layer 1 returns and
    leaves it with no sources and that one error message; the whole update
    returns, as the update over the layers 2 and 3 alone does; layer 2 has
    its two scales and layer 3 its own error message in both, and both
    dispose of the same source. *)
Lemma error_transform_is_per_layer_witness :
  Frontend.layerObjects MoreSamples.threeLayers !! 1%nat
  = Some Samples.brokenLayer
  ∧ Frontend.isSliceViewRenderLayer Samples.brokenLayer = true
  ∧ Frontend.transformError (Frontend.transformValue Samples.brokenLayer)
    = Some "rank mismatch"
  ∧ (1%nat ∉ [2%nat])
  ∧ (1%nat ∉ [3%nat])
  ∧ Frontend.wasDisposed MoreSamples.threeLayers = false
  ∧ Frontend.getVolumetricTransformedSources (Some 0) None id id
      Samples.sampleChunkTransform Samples.sampleGeometry Samples.xyz
      Samples.rankMismatch Samples.oneSource
      [{| Frontend.severity := Frontend.warning; Frontend.message := "stale" |}]
      1%nat
    = Return {| Frontend.transformedSources := [];
                Frontend.messagesAfter :=
                  [{| Frontend.severity := Frontend.error;
                      Frontend.message := "rank mismatch" |}];
                Frontend.disposed := [] |}
  ∧ (∃ this' layer',
      Frontend.updateVisibleLayer (Some 0) None id id
        Samples.sampleChunkTransform Samples.sampleGeometry
        Samples.sampleSerialize 1000 (MoreSamples.threeLayers, false) 1%nat
      = Return (this', true)
      ∧ Frontend.visibleLayers this' !! 1%nat
        = Some (Frontend.errorLayerInfo MoreSamples.threeLayers
                  Samples.brokenLayer 1000 "rank mismatch")
      ∧ Frontend.layerObjects this' !! 1%nat = Some layer'
      ∧ Frontend.registration layer' = Frontend.registration Samples.brokenLayer
      ∧ Frontend.messageChildren layer'
        = Frontend.messageChildren Samples.brokenLayer ++
          [[{| Frontend.severity := Frontend.error;
               Frontend.message := "rank mismatch" |}]]
      ∧ Frontend.agreeOff 1%nat this' MoreSamples.threeLayers)
  ∧ ∃ v1 v2,
      Frontend.updateVisibleLayersNow (Some 0) None id id
        Samples.sampleChunkTransform Samples.sampleGeometry
        Samples.sampleSerialize MoreSamples.threeLayers 1000
        [2%nat; 1%nat; 3%nat]
      = Return (v1, true)
      ∧ Frontend.updateVisibleLayersNow (Some 0) None id id
          Samples.sampleChunkTransform Samples.sampleGeometry
          Samples.sampleSerialize MoreSamples.threeLayers 1000
          [2%nat; 3%nat]
        = Return (v2, true)
      ∧ Frontend.agreeOff 1%nat v1 v2
      ∧ Frontend.disposedSources v1 = Frontend.disposedSources v2
      ∧ Frontend.disposedSources v2 = [5%nat]
      ∧ Frontend.visibleLayers v1 !! 1%nat
        = Some (Frontend.errorLayerInfo MoreSamples.threeLayers
                  Samples.brokenLayer 1000 "rank mismatch")
      ∧ Frontend.visibleLayers v2 !! 1%nat = None
      ∧ (length ∘ Frontend.li_allSources) <$> Frontend.visibleLayers v1 !! 2%nat
        = Some 2%nat
      ∧ (length ∘ Frontend.li_messages) <$> Frontend.visibleLayers v1 !! 3%nat
        = Some 1%nat.
Proof.
  assert (Hk : Frontend.layerObjects MoreSamples.threeLayers !! 1%nat
               = Some Samples.brokenLayer) by reflexivity.
  assert (Hbefore : 1%nat ∉ [2%nat]).
  { intros Hin. apply list_elem_of_singleton in Hin. discriminate Hin. }
  assert (Hafter : 1%nat ∉ [3%nat]).
  { intros Hin. apply list_elem_of_singleton in Hin. discriminate Hin. }
  pose proof (error_transform_is_per_layer (Some 0) None id id
                Samples.sampleChunkTransform Samples.sampleGeometry
                Samples.sampleSerialize MoreSamples.threeLayers false 1%nat
                Samples.brokenLayer 1000 "rank mismatch"
                [{| Frontend.severity := Frontend.warning;
                    Frontend.message := "stale" |}]
                [2%nat] [3%nat] Hk eq_refl eq_refl Hbefore Hafter eq_refl)
    as (Hout & Hstep & Hall).
  split; [exact Hk|]. split; [reflexivity|]. split; [reflexivity|].
  split; [exact Hbefore|]. split; [exact Hafter|]. split; [reflexivity|].
  split; [exact Hout|]. split; [exact Hstep|].
  change ([2%nat] ++ 1%nat :: [3%nat]) with [2%nat; 1%nat; 3%nat] in Hall.
  change ([2%nat] ++ [3%nat]) with [2%nat; 3%nat] in Hall.
  pose (viewOf :=
          fun r : Result string (_ * bool) =>
            match r with
            | Return (v, _) => v
            | Throw _ => MoreSamples.threeLayers
            end).
  pose (v1 := viewOf
                (Frontend.updateVisibleLayersNow (Some 0) None id id
                   Samples.sampleChunkTransform Samples.sampleGeometry
                   Samples.sampleSerialize MoreSamples.threeLayers 1000
                   [2%nat; 1%nat; 3%nat])).
  pose (v2 := viewOf
                (Frontend.updateVisibleLayersNow (Some 0) None id id
                   Samples.sampleChunkTransform Samples.sampleGeometry
                   Samples.sampleSerialize MoreSamples.threeLayers 1000
                   [2%nat; 3%nat])).
  assert (H1 : Frontend.updateVisibleLayersNow (Some 0) None id id
                 Samples.sampleChunkTransform Samples.sampleGeometry
                 Samples.sampleSerialize MoreSamples.threeLayers 1000
                 [2%nat; 1%nat; 3%nat]
               = Return (v1, true)) by reflexivity.
  assert (H2 : Frontend.updateVisibleLayersNow (Some 0) None id id
                 Samples.sampleChunkTransform Samples.sampleGeometry
                 Samples.sampleSerialize MoreSamples.threeLayers 1000
                 [2%nat; 3%nat]
               = Return (v2, true)) by reflexivity.
  rewrite H1, H2 in Hall. destruct Hall as (Hag & Hdis & Hinfo & _).
  exists v1, v2. split; [exact H1|]. split; [exact H2|].
  split; [exact Hag|]. split; [exact Hdis|]. split; [reflexivity|].
  split; [exact Hinfo|]. split; [reflexivity|].
  split; reflexivity.
Defined.

(** C4 on a source whose chunks have 4 channels under a transform whose
    channel dimension [c^] has extent 3. *)
Lemma channel_extent_mismatch_is_error_witness :
  Frontend.transformError Samples.withChannel = None
  ∧ Samples.fourChannelSource ∈ concat [[Samples.fourChannelSource]]
  ∧ Js.index [64; 64; 64; 4] 3 ≠ [3] !! 0%nat
  ∧ Frontend.getVolumetricTransformedSources (Some 0) None id id
      Samples.sampleChunkTransform Samples.sampleGeometry Samples.xyz
      Samples.withChannel Samples.oneSource [] 1%nat
    = Return {| Frontend.transformedSources := [];
                Frontend.messagesAfter :=
                  [{| Frontend.severity := Frontend.error;
                      Frontend.message :=
                        "Cannot render (x" +:+ Frontend.commaNbsp +:+ "y"
                        +:+ Frontend.commaNbsp +:+ "z) cross section: "
                        +:+ "Channel dimension c^ has extent 3 but "
                        +:+ "corresponding chunk dimension has extent 4" |}];
                Frontend.disposed := [5%nat] |}.
Proof.
  assert (Hin : Samples.fourChannelSource ∈ concat [[Samples.fourChannelSource]])
    by (simpl; left).
  assert (Hmis : Js.index [64; 64; 64; 4] 3 ≠ [3] !! 0%nat) by (by intros [=]).
  destruct (channel_extent_mismatch_is_error (Some 0) None id id
              Samples.sampleChunkTransform Samples.sampleGeometry Samples.xyz
              Samples.withChannel Samples.oneSource [] 1%nat
              [[Samples.fourChannelSource]] Samples.fourChannelSource [3]
              0%nat 3 eq_refl eq_refl Hin eq_refl eq_refl
              ltac:(lia) Hmis)
    as (d & c & thrown & Hd & Hc & _ & _ & Hthrown & _ & _ & Hfirst).
  split; [reflexivity|]. split; [exact Hin|]. split; [exact Hmis|].
  assert (d = 0%nat) as -> by lia.
  injection Hc as <-.
  rewrite (Hfirst [] [] eq_refl (Forall_nil_2 _)), Hthrown.
  reflexivity.
Defined.

Lemma idleWorld_wellFormed : FetchChunk.wellFormed Samples.idleWorld.
Proof.
  intros key ids id Hl.
  change (FetchChunk.requesterMap (FetchChunk.source Samples.idleWorld))
    with (∅ : gmap string (list nat)) in Hl.
  by rewrite lookup_empty in Hl.
Qed.

Lemma residentWorld_wellFormed : FetchChunk.wellFormed Samples.residentWorld.
Proof.
  intros key ids id Hl.
  change (FetchChunk.requesterMap (FetchChunk.source Samples.residentWorld))
    with (∅ : gmap string (list nat)) in Hl.
  by rewrite lookup_empty in Hl.
Qed.

(** C1 with SYSTEM_MEMORY numbered 1.  On a source without chunks a call for
    the origin waits: it sends one request, and it returns the state of the
    chunk, 1, once the chunk is announced and the request acknowledged.  On
    the source that already holds the chunk the call returns 1 at once and
    sends nothing. *)
Lemma fetchChunk_immediate_or_waits_witness :
  FetchChunk.wellFormed Samples.idleWorld
  ∧ FetchChunk.wellFormed Samples.residentWorld
  ∧ (FetchChunk.requestsSent
       (FetchChunk.fetchChunk 1 Samples.idleWorld [0; 0; 0] Samples.stateOf)
     = [{| FetchChunk.req_source := Some 7;
           FetchChunk.req_chunkGridPosition := [0; 0; 0] |}]
     ∧ FetchChunk.resultOf
         (FetchChunk.fetchChunk 1 Samples.idleWorld [0; 0; 0] Samples.stateOf)
         0%nat = None
     ∧ FetchChunk.resultOf
         (FetchChunk.run 1
            (FetchChunk.fetchChunk 1 Samples.idleWorld [0; 0; 0] Samples.stateOf)
            [FetchChunk.ChunkReady Samples.origin; FetchChunk.RpcResolved 0%nat;
             FetchChunk.Resume 0%nat])
         0%nat = Some 1)
  ∧ (FetchChunk.resultOf
       (FetchChunk.fetchChunk 1 Samples.residentWorld [0; 0; 0] Samples.stateOf)
       0%nat = Some 1
     ∧ FetchChunk.requestsSent
         (FetchChunk.fetchChunk 1 Samples.residentWorld [0; 0; 0] Samples.stateOf)
       = []).
Proof.
  split; [exact idleWorld_wellFormed|].
  split; [exact residentWorld_wellFormed|].
  split.
  - destruct (proj2 (fetchChunk_immediate_or_waits 1 Samples.idleWorld [0; 0; 0]
                       Samples.stateOf idleWorld_wellFormed))
      as (_ & Hsent & Hnone & _ & Hlive).
    { intros c Hc.
      change (FetchChunk.chunks (FetchChunk.source Samples.idleWorld))
        with (∅ : gmap string (FetchChunk.SliceViewChunk unit)) in Hc.
      by rewrite lookup_empty in Hc. }
    split; [exact Hsent|]. split; [exact Hnone|].
    exact (Hlive Samples.origin eq_refl).
  - destruct (proj1 (fetchChunk_immediate_or_waits 1 Samples.residentWorld
                       [0; 0; 0] Samples.stateOf residentWorld_wellFormed)
                (FetchChunk.newSliceViewChunk 1 Samples.origin))
      as (Hres & _ & Hsent & _).
    + vm_compute. reflexivity.
    + simpl. lia.
    + split; [exact Hres|exact Hsent].
Defined.

(** X29 for two calls on an idle source with SYSTEM_MEMORY numbered 1: two
    requests, requesters 0 and 1 in that order, and both calls return their
    own transform of the one chunk. *)
Lemma fetchChunk_calls_share_requesters_witness :
  FetchChunk.wellFormed Samples.idleWorld
  ∧ FetchChunk.gridKey (FetchChunk.x_chunkGridPosition Samples.origin)
    = FetchChunk.gridKey [0; 0; 0]
  ∧ let w1 := FetchChunk.fetchAll 1 Samples.idleWorld [0; 0; 0]
                [Samples.stateOf; fun chunk => Samples.stateOf chunk + 100] in
    let w2 := FetchChunk.chunkReady 1 w1 Samples.origin in
    let w3 := FetchChunk.run 1 w2 (FetchChunk.settleEvents [0; 1]%nat) in
    length (FetchChunk.requestsSent w1) = 2%nat
    ∧ FetchChunk.requestersOf (FetchChunk.source w1) "0,0,0" = [0; 1]%nat
    ∧ FetchChunk.resultOf w3 0%nat = Some 1
    ∧ FetchChunk.resultOf w3 1%nat = Some 101.
Proof.
  split; [exact idleWorld_wellFormed|]. split; [reflexivity|].
  destruct (fetchChunk_calls_share_requesters 1 Samples.idleWorld [0; 0; 0]
              [Samples.stateOf; fun chunk => Samples.stateOf chunk + 100]
              Samples.origin idleWorld_wellFormed)
    as (Hsent & Hreq & Hres).
  { intros c Hc.
    change (FetchChunk.chunks (FetchChunk.source Samples.idleWorld))
      with (∅ : gmap string (FetchChunk.SliceViewChunk unit)) in Hc.
    by rewrite lookup_empty in Hc. }
  { reflexivity. }
  cbv zeta. split; [by rewrite Hsent|].
  split; [exact Hreq|].
  split.
  - exact (proj2 (Hres 0%nat _ eq_refl)).
  - exact (proj2 (Hres 1%nat _ eq_refl)).
Defined.

(* ===================================================================== *)
(** * Part IV: further properties of the same code                        *)
(* ===================================================================== *)

(** ** sliceview/renderlayer.ts *)

Section RenderLayerRunsFacts.

Import RenderLayer RenderLayerRuns.

Context {Source : Type} `{Countable Source} {ChunkTransformParameters : Type}.

Abbreviation RLayer := (SliceViewRenderLayer Source ChunkTransformParameters).

(** X1.  [removeSource] throws exactly when the source is not registered, and
    neither [addSource] nor a successful [removeSource] touches the entry of
    any other source. *)
Theorem addSource_removeSource_frame (this : RLayer) (s : Source)
    (ct : ChunkTransformParameters) :
  ((∃ e, removeSource this s = Throw e) ↔ visibleSources this !! s = None)
  ∧ (∀ s', s' ≠ s →
       visibleSources (addSource this s ct) !! s' = visibleSources this !! s')
  ∧ (∀ this' s', s' ≠ s → removeSource this s = Return this' →
       visibleSources this' !! s' = visibleSources this !! s').
Proof.
  split; [|split].
  - unfold removeSource. destruct (visibleSources this !! s) as [info|].
    + split; [|done]. intros [e He]. by case_decide.
    + split; [done|]. intros _. by eexists.
  - intros s' Hne. by apply addSource_other.
  - intros this' s' Hne Hrem. by eapply removeSource_other.
Qed.

(** X2.  Entries filed under their own source with a count of at least one,
    and a cached list that names registered sources only, are kept by
    [addSource] and by every [removeSource] that returns. *)
Theorem registered_preserved (this : RLayer) (s : Source)
    (ct : ChunkTransformParameters) :
  registered this →
  registered (addSource this s ct)
  ∧ ∀ this', removeSource this s = Return this' → registered this'.
Proof.
  intros [Hent Hlist]. split.
  - unfold addSource. destruct (visibleSources this !! s) as [info|] eqn:Hs.
    + split; simpl.
      * intros k i Hk. destruct (decide (k = s)) as [->|Hne].
        -- rewrite lookup_insert_eq in Hk. injection Hk as <-. simpl.
           destruct (Hent s info Hs). split; [done|lia].
        -- rewrite lookup_insert_ne in Hk by done. by apply Hent.
      * intros x Hx. destruct (decide (x = s)) as [->|Hne].
        -- rewrite lookup_insert_eq. by eexists.
        -- rewrite lookup_insert_ne by done. by apply Hlist.
    + split; simpl.
      * intros k i Hk. destruct (decide (k = s)) as [->|Hne].
        -- rewrite lookup_insert_eq in Hk. injection Hk as <-. simpl. split; [done|lia].
        -- rewrite lookup_insert_ne in Hk by done. by apply Hent.
      * intros x Hx. by apply elem_of_nil in Hx.
  - intros this'. unfold removeSource.
    destruct (visibleSources this !! s) as [info|] eqn:Hs; [|done].
    case_decide; intros [= <-]; split; simpl.
    + intros k i Hk. destruct (decide (k = s)) as [->|Hne].
      * rewrite lookup_insert_eq in Hk. injection Hk as <-. simpl.
        destruct (Hent s info Hs). split; [done|lia].
      * rewrite lookup_insert_ne in Hk by done. by apply Hent.
    + intros x Hx. destruct (decide (x = s)) as [->|Hne].
      * rewrite lookup_insert_eq. by eexists.
      * rewrite lookup_insert_ne by done. by apply Hlist.
    + intros k i Hk. destruct (decide (k = s)) as [->|Hne].
      * by rewrite lookup_delete_eq in Hk.
      * rewrite lookup_delete_ne in Hk by done. by apply Hent.
    + intros x Hx. by apply elem_of_nil in Hx.
Qed.

Lemma addTimes_count (n : nat) (this : RLayer) s ct :
  (0 < n)%nat →
  visibleSources (addTimes n s ct this) !! s
  = Some {| source := match visibleSources this !! s with
                      | Some info => source info
                      | None => s
                      end;
            refCount := match visibleSources this !! s with
                        | Some info => refCount info + Z.of_nat n
                        | None => Z.of_nat n
                        end;
            chunkTransform := ct |}.
Proof.
  induction n as [|n IH]; intros Hn; [lia|].
  unfold addTimes in *. simpl.
  destruct n as [|n].
  - simpl. unfold addSource.
    destruct (visibleSources this !! s) as [info|]; simpl;
      by rewrite lookup_insert_eq.
  - unfold addSource at 1. rewrite IH by lia. simpl.
    rewrite lookup_insert_eq.
    destruct (visibleSources this !! s); do 2 f_equal; lia.
Qed.

Lemma addTimes_other (n : nat) (this : RLayer) s s' ct :
  s' ≠ s →
  visibleSources (addTimes n s ct this) !! s' = visibleSources this !! s'.
Proof.
  intros Hne. induction n as [|n IH]; [done|].
  unfold addTimes in *. simpl. by rewrite addSource_other.
Qed.

Lemma removeSource_decrement (this : RLayer) s info :
  visibleSources this !! s = Some info → refCount info ≠ 1 →
  removeSource this s
  = Return {| visibleSources :=
                <[s := {| source := source info; refCount := refCount info - 1;
                          chunkTransform := chunkTransform info |}]>
                  (visibleSources this);
              visibleSourcesList_ := visibleSourcesList_ this |}.
Proof. intros Hs Hne. unfold removeSource. by rewrite Hs, decide_True. Qed.

Lemma removeSource_last (this : RLayer) s info :
  visibleSources this !! s = Some info → refCount info = 1 →
  removeSource this s
  = Return {| visibleSources := delete s (visibleSources this);
              visibleSourcesList_ := [] |}.
Proof.
  intros Hs Hone. unfold removeSource.
  by rewrite Hs, decide_False by (by intros ?).
Qed.

Lemma removeTimes_S (n : nat) (this : RLayer) s :
  removeTimes (S n) s this
  = (this' ← removeSource this s; removeTimes n s this').
Proof. reflexivity. Qed.

Lemma removeTimes_down (n : nat) :
  ∀ (this : RLayer) s info,
    visibleSources this !! s = Some info → refCount info = Z.of_nat (S n) →
    ∃ this', removeTimes (S n) s this = Return this'
      ∧ visibleSources this' = delete s (visibleSources this)
      ∧ visibleSourcesList_ this' = [].
Proof.
  induction n as [|n IH]; intros this s info Hs Hc.
  - rewrite removeTimes_S, (removeSource_last this s info Hs) by lia.
    by eexists.
  - rewrite removeTimes_S, (removeSource_decrement this s info Hs) by lia.
    match goal with
    | |- ∃ _, (Return ?x ≫= _) = _ ∧ _ =>
        change (Return x ≫= _) with (removeTimes (S n) s x);
        destruct (IH x s
                    {| source := source info; refCount := refCount info - 1;
                       chunkTransform := chunkTransform info |})
          as (this' & Hrem & Hmap & Hlist)
    end.
    { simpl. apply lookup_insert_eq. }
    { simpl. lia. }
    exists this'. split; [exact Hrem|]. split; [|done].
    rewrite Hmap. simpl. by rewrite delete_insert_eq.
Qed.

(** X3.  Registering a source that was not registered [n] times gives it the
    count [n]; removing it [n] times then succeeds and leaves the map of
    visible sources as it was before, and one more removal throws. *)
Theorem addTimes_removeTimes (n : nat) (this : RLayer) (s : Source)
    (ct : ChunkTransformParameters) :
  (0 < n)%nat →
  visibleSources this !! s = None →
  (refCount <$> visibleSources (addTimes n s ct this) !! s) = Some (Z.of_nat n)
  ∧ ∃ this',
      removeTimes n s (addTimes n s ct this) = Return this'
      ∧ visibleSources this' = visibleSources this
      ∧ visibleSourcesList_ this' = []
      ∧ ∃ e, removeSource this' s = Throw e.
Proof.
  intros Hn Hnone.
  pose proof (addTimes_count n this s ct Hn) as Hc. rewrite Hnone in Hc.
  split; [by rewrite Hc|].
  destruct n as [|n]; [lia|].
  destruct (removeTimes_down n (addTimes (S n) s ct this) s _ Hc eq_refl)
    as (this' & Hrem & Hmap & Hlist).
  exists this'. split; [exact Hrem|].
  assert (Hsame : visibleSources this' = visibleSources this).
  { rewrite Hmap. apply map_eq. intros k.
    destruct (decide (k = s)) as [->|Hne].
    - by rewrite lookup_delete_eq, Hnone.
    - rewrite lookup_delete_ne by done. by apply addTimes_other. }
  split; [exact Hsame|]. split; [exact Hlist|].
  unfold removeSource. rewrite Hsame, Hnone. by eexists.
Qed.

End RenderLayerRunsFacts.

(** ** sliceview/uncompressed_chunk_format.ts *)

Section ChunkPositionFacts.

Import UncompressedChunk ChunkPositions.

Lemma strideOf_cons (n : N) (size : list N) (i : nat) :
  strideOf (n :: size) (S i) = (n * strideOf size i)%N.
Proof. reflexivity. Qed.

Lemma sum_scaled (n : N) (l : list N) :
  foldr N.add 0%N ((fun x => (n * x)%N) <$> l) = (n * foldr N.add 0%N l)%N.
Proof. induction l as [|x l IH]; csimpl; [lia|]. rewrite IH. lia. Qed.

(** The index of a position, one dimension at a time. *)
Lemma linearIndex_cons (n p : N) (size pos : list N) :
  linearIndex (n :: size) (p :: pos) = (p + n * linearIndex size pos)%N.
Proof.
  unfold linearIndex. rewrite imap_cons. cbn [foldr].
  change (strideOf (n :: size) 0) with 1%N.
  rewrite <- sum_scaled, fmap_imap.
  rewrite (imap_ext
             ((fun (i : nat) (p0 : N) => (strideOf (n :: size) i * p0)%N) ∘ S)
             (fun i => (fun x => (n * x)%N) ∘
                       (fun p0 => (strideOf size i * p0)%N)) pos).
  - lia.
  - intros i x _. simpl. rewrite strideOf_cons. lia.
Qed.

Lemma linearIndex_nil (size : list N) : linearIndex size [] = 0%N.
Proof. reflexivity. Qed.

Lemma linearIndex_bound (size pos : list N) :
  inChunk size pos → (linearIndex size pos < numElements size)%N.
Proof.
  induction 1 as [|p n pos size Hp _ IH]; [done|].
  rewrite linearIndex_cons. unfold numElements in *. simpl. nia.
Qed.

Lemma linearIndex_inj (size pos pos' : list N) :
  inChunk size pos → inChunk size pos' →
  linearIndex size pos = linearIndex size pos' → pos = pos'.
Proof.
  intros Hin. revert pos'.
  induction Hin as [|p n pos size Hp _ IH]; intros pos' Hin' Heq.
  - by inversion Hin'.
  - inversion Hin' as [|p' n' pos0 size0 Hp' Hrest]; subst.
    rewrite !linearIndex_cons in Heq.
    assert (Hdm : (linearIndex size pos = linearIndex size pos0 ∧ p = p')%N).
    { apply (N.div_mod_unique n); lia. }
    destruct Hdm as [HL ->]. f_equal. by apply IH.
Qed.

Context {Elem : Type}.

(** X4.  For a position inside the chunk the loop of [getValueAt] ends on an
    index below the number of elements.  So on a buffer with one slot per
    element every type but UINT64 reads a slot that exists, and on a buffer
    with two slots per element UINT64 reads two slots that exist: the
    answer is never [undefined]. *)
Theorem getValueAt_inside_chunk
    (chunk : UncompressedVolumeChunk Elem) (dataPosition : list N)
    (d : list Elem) :
  data chunk = Some d →
  inChunk (chunkDataSize chunk) dataPosition →
  (∃ index, computeIndex dataPosition (chunkDataSize chunk) = Some index
            ∧ (index < numElements (chunkDataSize chunk))%N)
  ∧ (chunkFormat_dataType chunk ≠ UINT64 →
     N.of_nat (length d) = numElements (chunkDataSize chunk) →
     ∃ x, getValueAt chunk dataPosition = Number (Some x))
  ∧ (chunkFormat_dataType chunk = UINT64 →
     N.of_nat (length d) = (2 * numElements (chunkDataSize chunk))%N →
     ∃ low high, getValueAt chunk dataPosition = Uint64 (Some low) (Some high)).
Proof.
  intros Hd Hin.
  pose proof (linearIndex_bound _ _ Hin) as Hb.
  pose proof (Forall2_length _ _ _ Hin) as Hlen.
  pose proof (computeIndex_linearIndex dataPosition (chunkDataSize chunk)
                ltac:(lia)) as Hidx.
  split; [eauto|]. split.
  - intros Hty Hsz.
    destruct (lookup_lt_is_Some_2 d
                (N.to_nat (linearIndex (chunkDataSize chunk) dataPosition))
                ltac:(lia)) as [x Hx].
    exists x. unfold getValueAt. rewrite Hd, Hidx.
    destruct (chunkFormat_dataType chunk); simpl; rewrite ?Hx; done.
  - intros Hty Hsz.
    destruct (lookup_lt_is_Some_2 d
                (N.to_nat (linearIndex (chunkDataSize chunk) dataPosition * 2))
                ltac:(lia)) as [lo Hlo].
    destruct (lookup_lt_is_Some_2 d
                (N.to_nat (linearIndex (chunkDataSize chunk) dataPosition * 2 + 1))
                ltac:(lia)) as [hi Hhi].
    exists lo, hi. unfold getValueAt. rewrite Hd, Hidx, Hty. simpl.
    by rewrite Hlo, Hhi.
Qed.

(** X5.  Two positions inside the chunk on which the loop of [getValueAt]
    ends with the same index are the same position: different voxels are
    read from different slots. *)
Theorem computeIndex_injective (chunkDataSize0 pos pos' : list N) :
  inChunk chunkDataSize0 pos → inChunk chunkDataSize0 pos' →
  computeIndex pos chunkDataSize0 = computeIndex pos' chunkDataSize0 →
  pos = pos'.
Proof.
  intros Hin Hin' Heq.
  rewrite !computeIndex_linearIndex in Heq
    by (erewrite Forall2_length by eassumption; lia).
  injection Heq as Heq. by eapply linearIndex_inj.
Qed.

End ChunkPositionFacts.

(** ** util/http_request.ts *)

Section PathFacts.

Import HttpRequest Paths.

Lemma splitSlash_nonempty (path : string) : splitSlash path ≠ [].
Proof.
  destruct path as [|c rest]; simpl; [done|].
  destruct (Ascii.eqb c "/"); [done|]. by destruct (splitSlash rest).
Qed.

Lemma join_cons_cons (sep p q : string) (rest : list string) :
  join sep (p :: q :: rest) = p +:+ sep +:+ join sep (q :: rest).
Proof. reflexivity. Qed.

Lemma join_String (sep : string) (c : ascii) (p : string) (ps : list string) :
  join sep (String c p :: ps) = String c (join sep (p :: ps)).
Proof. by destruct ps. Qed.

Lemma splitSlash_noSlash (path : string) : Forall (fun p => noSlash p = true) (splitSlash path).
Proof.
  induction path as [|c rest IH]; simpl; [by repeat constructor|].
  destruct (Ascii.eqb c "/") eqn:Hc; [by constructor|].
  destruct (splitSlash rest) as [|p ps]; [by repeat constructor; simpl; rewrite Hc|].
  apply Forall_cons in IH as [Hp Hps].
  constructor; [|done]. simpl. by rewrite Hc.
Qed.

Lemma splitSlash_component (c r : string) :
  noSlash c = true →
  splitSlash (c +:+ "/" +:+ r) = c :: splitSlash r.
Proof.
  induction c as [|a c IH]; simpl; [done|].
  intros [Ha Hc]%andb_prop. apply negb_true_iff in Ha. rewrite Ha.
  by rewrite IH.
Qed.

Lemma splitSlash_single (c : string) : noSlash c = true → splitSlash c = [c].
Proof.
  induction c as [|a c IH]; simpl; [done|].
  intros [Ha Hc]%andb_prop. apply negb_true_iff in Ha. rewrite Ha.
  by rewrite IH.
Qed.

Lemma join_splitSlash (path : string) : join "/" (splitSlash path) = path.
Proof.
  induction path as [|c rest IH]; simpl; [done|].
  pose proof (splitSlash_nonempty rest) as Hne.
  destruct (Ascii.eqb_spec c "/") as [->|Hc].
  - destruct (splitSlash rest) as [|p ps]; [done|].
    by rewrite join_cons_cons, IH.
  - destruct (splitSlash rest) as [|p ps]; [done|].
    by rewrite join_String, IH.
Qed.

Lemma splitSlash_of_join (components : list string) :
  components ≠ [] → Forall (fun p => noSlash p = true) components →
  splitSlash (join "/" components) = components.
Proof.
  intros Hne Hall. induction Hall as [|c cs Hc Hcs IH]; [done|].
  destruct cs as [|c' cs].
  - simpl. by apply splitSlash_single.
  - rewrite join_cons_cons, splitSlash_component by done.
    by rewrite IH.
Qed.

(** X6.  Splitting a path at its slashes and joining the pieces with slashes
    gives the path back; no piece contains a slash; and a non-empty list of
    slash-free components, joined with slashes, splits into that list. *)
Theorem splitSlash_join (path : string) (components : list string) :
  join "/" (splitSlash path) = path
  ∧ Forall (fun p => noSlash p = true) (splitSlash path)
  ∧ (components ≠ [] → Forall (fun p => noSlash p = true) components →
     splitSlash (join "/" components) = components).
Proof.
  split; [apply join_splitSlash|].
  split; [apply splitSlash_noSlash|apply splitSlash_of_join].
Qed.

Context {Value E : Type}.
Variable getProperty : Value -> string -> Result E (option Value).
Variable pathname : string -> option string.

(** X7.  When the path of the URL is made of slash-free components joined
    with slashes, [getFile] walks the file tree along the components that
    are not empty, except the first of them: empty components (doubled,
    leading or trailing slashes) and the first component make no difference
    to what is found. *)
Theorem getFile_components (input : string) (components : list string)
    (fileTree : option Value) :
  pathname input = Some (join "/" components) →
  components ≠ [] → Forall (fun p => noSlash p = true) components →
  getFile getProperty pathname input fileTree
  = reading (walk getProperty fileTree
               (drop 1 (List.filter nonEmpty components))).
Proof.
  intros Hpath Hne Hall. unfold getFile, pathParts.
  by rewrite Hpath, splitSlash_of_join.
Qed.

Lemma walk_undefined (parts : list string) :
  walk getProperty None parts = Return None.
Proof. by destruct parts. Qed.

Lemma walk_app (parts1 parts2 : list string) :
  ∀ res : option Value,
    walk getProperty res (parts1 ++ parts2)
    = (res' ← walk getProperty res parts1; walk getProperty res' parts2).
Proof.
  induction parts1 as [|part parts1 IH]; intros res; simpl; [done|].
  destruct res as [node|]; [|by destruct parts2].
  destruct (getProperty node part) as [[child|]|e]; simpl;
    [apply IH|by destruct parts2|done].
Qed.

(** X8.  Walking a path is walking its first part and then the rest, so a
    value is reached only through values that are reached; and [fetchOk]
    returns exactly what the walk reaches, be it a folder, a stored response
    or a member of one; it throws the 404 [HttpError] exactly when the URL
    is valid and the walk ends at [undefined], a [TypeError] exactly when
    the URL is not valid, and otherwise what a property read of the walk
    throws. *)
Theorem fetchOk_outcomes (input : RequestInfo)
    (fileTree : option Value) (parts1 parts2 : list string) :
  walk getProperty fileTree (parts1 ++ parts2)
  = (res ← walk getProperty fileTree parts1; walk getProperty res parts2)
  ∧ (∀ r, walk getProperty fileTree (parts1 ++ parts2) = Return (Some r) →
          ∃ r1, walk getProperty fileTree parts1 = Return (Some r1))
  ∧ (∀ r, fetchOk getProperty pathname input fileTree = Return r
          ↔ ∃ path, pathname (toString input) = Some path
                    ∧ walk getProperty fileTree (pathParts path)
                      = Return (Some r))
  ∧ (∀ e, fetchOk getProperty pathname input fileTree = Throw (Http e)
          ↔ (∃ path, pathname (toString input) = Some path
                     ∧ walk getProperty fileTree (pathParts path)
                       = Return None)
            ∧ e = {| url := urlOf input; status := 404;
                     statusText := "File not found" |})
  ∧ (fetchOk getProperty pathname input fileTree = Throw TypeError
     ↔ pathname (toString input) = None)
  ∧ (∀ e, fetchOk getProperty pathname input fileTree = Throw (ReadError e)
          ↔ ∃ path, pathname (toString input) = Some path
                    ∧ walk getProperty fileTree (pathParts path) = Throw e).
Proof.
  split; [apply walk_app|]. split.
  - intros r. rewrite walk_app.
    destruct (walk getProperty fileTree parts1) as [[r1|]|e]; simpl.
    + intros _. by exists r1.
    + by rewrite walk_undefined.
    + done.
  - unfold fetchOk, getFile.
    destruct (pathname (toString input)) as [path|]; simpl.
    + destruct (walk getProperty fileTree (pathParts path))
        as [[r0|]|e0] eqn:Hw0; simpl.
      * split; [|split; [|split]].
        -- intros r. split.
           ++ intros [= <-]. by exists path.
           ++ intros (p & [= <-] & Hw). congruence.
        -- intros e. split; [intros [=]|].
           intros [(p & [= <-] & Hw) _]. congruence.
        -- split; intros [=].
        -- intros e. split; [intros [=]|].
           intros (p & [= <-] & Hw). congruence.
      * split; [|split; [|split]].
        -- intros r. split; [intros [=]|].
           intros (p & [= <-] & Hw). congruence.
        -- intros e. split.
           ++ intros [= <-]. split; [by exists path|done].
           ++ intros [_ ->]. done.
        -- split; intros [=].
        -- intros e. split; [intros [=]|].
           intros (p & [= <-] & Hw). congruence.
      * split; [|split; [|split]].
        -- intros r. split; [intros [=]|].
           intros (p & [= <-] & Hw). congruence.
        -- intros e. split; [intros [=]|].
           intros [(p & [= <-] & Hw) _]. congruence.
        -- split; intros [=].
        -- intros e. split.
           ++ intros [= <-]. by exists path.
           ++ intros (p & [= <-] & Hw). congruence.
    + split; [|split; [|split]].
      * intros r. split; [intros [=]|]. by intros (p & [=] & _).
      * intros e. split; [intros [=]|]. by intros [(p & [=] & _) _].
      * done.
      * intros e. split; [intros [=]|]. by intros (p & [=] & _).
Qed.

End PathFacts.

Section PickDelayFacts.

Import HttpRequest.
Local Open Scope Q_scope.

(** The first factor of [pickDelay] for any attempt number. *)
Let base (n : Z) : Q :=
  Qmin (Double.round (Double.round (2 ^ n) * minDelayMilliseconds))
       (Double.round (maxDelayMilliseconds / 2)).

Lemma base_range (n : Z) : 0 <= base n ∧ base n <= 5000.
Proof.
  unfold base. split.
  - apply Q.min_glb; [|by vm_compute].
    apply round_nonneg.
    pose proof (round_nonneg (2 ^ n) (Qlt_le_weak _ _ (pow2_pos n))).
    unfold minDelayMilliseconds. nra.
  - apply Qle_trans with (Double.round (maxDelayMilliseconds / 2));
      [apply Q.le_min_r|by vm_compute].
Qed.

Lemma base_mono (n m : Z) : (n <= m)%Z → base n <= base m.
Proof.
  intros Hnm. unfold base. apply Q.min_le_compat_r.
  pose proof (round_nonneg (2 ^ n) (Qlt_le_weak _ _ (pow2_pos n))) as H0.
  assert (H1 : Double.round (2 ^ n) <= Double.round (2 ^ m)).
  { apply round_mono; [apply Qlt_le_weak, pow2_pos|by apply pow2_le]. }
  unfold minDelayMilliseconds. apply round_mono; nra.
Qed.

(** X9.  The schedule of [pickDelay] for a draw [r] in [0, 1) and integer
    attempt numbers: the delay does not decrease with the attempt number;
    from attempt 4 on it is the product, in doubles, of 5000 and [1 + r];
    for attempt numbers that are not negative it is at least 500 ms; it is
    never negative and never above 10000 ms; and for a negative attempt
    number it is at most 500 ms. *)
Theorem pickDelay_schedule (n m : Z) (r : Q) :
  0 <= r → r < 1 →
  ((n <= m)%Z → pickDelay n r <= pickDelay m r)
  ∧ ((4 <= n)%Z → pickDelay n r
                  == Double.round (5000 * Double.round (1 + r)))
  ∧ ((0 <= n)%Z → 500 <= pickDelay n r)
  ∧ 0 <= pickDelay n r
  ∧ pickDelay n r <= 10000
  ∧ ((n < 0)%Z → pickDelay n r <= 500).
Proof.
  intros Hr0 Hr1.
  destruct (jitter_range r Hr0 Hr1) as [Hs1 Hs2].
  destruct (base_range n) as [Hb0 Hb1].
  assert (Hunfold : ∀ k, pickDelay k r = Double.round (base k * Double.round (1 + r)))
    by reflexivity.
  set (s := Double.round (1 + r)) in *.
  split; [|split; [|split; [|split; [|split]]]].
  - intros Hnm. rewrite !Hunfold.
    pose proof (base_mono n m Hnm). apply round_mono; nra.
  - intros Hn.
    destruct (pickDelay_between n r ltac:(lia) Hr0 Hr1) as (Hp & _).
    rewrite Hp. fold s.
    pose proof (delayFloor_capped n Hn) as Hd.
    apply round_comp; [rewrite Hd; nra|by rewrite Hd].
  - intros Hn.
    destruct (pickDelay_between n r Hn Hr0 Hr1) as (_ & Hlow & _).
    destruct (delayFloor_values n Hn) as (d & Hd & Hd1 & _).
    rewrite Hd in Hlow. lra.
  - rewrite Hunfold. apply round_nonneg. nra.
  - rewrite Hunfold.
    apply Qle_trans with (Double.round 10000); [|by vm_compute].
    apply round_mono; nra.
  - intros Hn. rewrite Hunfold.
    pose proof (base_mono n (-1) ltac:(lia)) as Hmono.
    assert (Hhalf : base (-1) == 250) by (by vm_compute).
    apply Qle_trans with (Double.round 500); [|by vm_compute].
    apply round_mono; nra.
Qed.

End PickDelayFacts.

(** ** util/completion.ts *)

Section SortFilterFacts.

Context {A : Type} (cmp : A -> A -> Z).
Hypothesis cmp_trans : ∀ a b c, cmp a b <= 0 → cmp b c <= 0 → cmp a c <= 0.

Lemma sortInsert_front x l :
  Forall (fun z => cmp x z <= 0) l → sortInsert cmp x l = x :: l.
Proof.
  destruct 1 as [|z l Hz _]; [done|]. simpl.
  by destruct (Z.leb_spec (cmp x z) 0); [|lia].
Qed.

Lemma filter_sortInsert (q : A -> bool) x l :
  StronglySorted (fun a b => cmp a b <= 0) l →
  List.filter q (sortInsert cmp x l)
  = if q x then sortInsert cmp x (List.filter q l) else List.filter q l.
Proof.
  induction 1 as [|y l Hs IH Hall]; simpl.
  - by destruct (q x).
  - destruct (Z.leb_spec (cmp x y) 0) as [Hle|Hgt]; simpl.
    + destruct (q x) eqn:Hqx; [|done].
      destruct (q y) eqn:Hqy; simpl.
      * by destruct (Z.leb_spec (cmp x y) 0); [|lia].
      * symmetry. apply sortInsert_front.
        apply Forall_forall. intros z Hz%list_elem_of_In%filter_In.
        destruct Hz as [Hz%list_elem_of_In _].
        rewrite Forall_forall in Hall. eapply cmp_trans; eauto.
    + rewrite IH. destruct (q y) eqn:Hqy; [|done].
      destruct (q x); simpl; [|done].
      by destruct (Z.leb_spec (cmp x y) 0); [lia|].
Qed.

End SortFilterFacts.

Lemma filter_sort {A : Type} (cmp : A -> A -> Z) (q : A -> bool) (l : list A) :
  (∀ a b, cmp a b <= 0 ∨ cmp b a <= 0) →
  (∀ a b c, cmp a b <= 0 → cmp b c <= 0 → cmp a c <= 0) →
  List.filter q (sort cmp l) = sort cmp (List.filter q l).
Proof.
  intros Htotal Htrans. induction l as [|x l IH]; [done|].
  change (sort cmp (x :: l)) with (sortInsert cmp x (sort cmp l)).
  rewrite filter_sortInsert by (done || by apply sort_sorted).
  simpl. destruct (q x); [|done]. by rewrite IH.
Qed.

Lemma prefix_trans (a : string) :
  ∀ b c, String.prefix a b = true → String.prefix b c = true →
         String.prefix a c = true.
Proof.
  induction a as [|x a IH]; intros [|y b] [|z c]; simpl; try done.
  destruct (ascii_dec x y) as [->|]; [|done].
  destruct (ascii_dec y z) as [->|]; [|done].
  destruct (ascii_dec z z); [|done]. apply IH.
Qed.

Lemma filter_fmap_list {A B : Type} (f : A -> B) (q : B -> bool) (l : list A) :
  List.filter q (f <$> l) = f <$> List.filter (fun x => q (f x)) l.
Proof.
  induction l as [|x l IH]; [done|].
  rewrite fmap_cons. simpl. destruct (q (f x)); by rewrite IH.
Qed.

Lemma filter_filter_list {A : Type} (p q : A -> bool) (l : list A) :
  (∀ x, q x = true → p x = true) →
  List.filter q (List.filter p l) = List.filter q l.
Proof.
  intros Himp. induction l as [|x l IH]; simpl; [done|].
  destruct (p x) eqn:Hp; simpl.
  - destruct (q x); by rewrite IH.
  - destruct (q x) eqn:Hq; [|done]. apply Himp in Hq. congruence.
Qed.

Section CompletionMoreFacts.

Import Completion.

Variable defaultStringCompare : string -> string -> Z.

Lemma getPrefixMatches_unfold (prefix : string) (options : list string) :
  getPrefixMatches defaultStringCompare prefix options
  = sort (fun a b => defaultStringCompare (value a) (value b))
      ((fun option => {| value := option |}) <$>
         List.filter (fun option => String.prefix prefix option) options).
Proof.
  unfold getPrefixMatches, startsWith.
  by rewrite (push_loop_filter (fun o => String.prefix prefix o)
                (fun o => {| value := o |})).
Qed.

(** X10.  Whatever the comparator, every completion returned by
    [getPrefixMatches] starts with the prefix, there are as many completions
    as options that start with it, and for the empty prefix the completion
    values are the options, rearranged. *)
Theorem getPrefixMatches_only_matches (prefix : string) (options : list string) :
  Forall (fun c => String.prefix prefix (value c) = true)
    (getPrefixMatches defaultStringCompare prefix options)
  ∧ length (getPrefixMatches defaultStringCompare prefix options)
    = length (List.filter (fun option => String.prefix prefix option) options)
  ∧ Permutation (value <$> getPrefixMatches defaultStringCompare "" options)
      options.
Proof.
  rewrite !getPrefixMatches_unfold. split; [|split].
  - rewrite sort_perm. apply Forall_fmap, Forall_forall.
    intros o Ho%list_elem_of_In%filter_In. by destruct Ho.
  - by rewrite sort_perm, length_fmap.
  - rewrite sort_perm, <- list_fmap_compose.
    assert (Hall : List.filter (fun option => String.prefix "" option) options
                   = options).
    { induction options as [|o os IH]; simpl; [done|].
      destruct o; simpl; by rewrite IH. }
    rewrite Hall. clear Hall.
    induction options as [|o os IH]; simpl; [done|]. by constructor.
Qed.

(** X11.  Narrowing: for a total and transitive comparator, the completions
    for a prefix [longer] are those completions for any prefix [shorter] of
    it that start with [longer], in the same order. *)
Theorem getPrefixMatches_narrow (shorter longer : string) (options : list string) :
  (∀ a b, defaultStringCompare a b <= 0 ∨ defaultStringCompare b a <= 0) →
  (∀ a b c, defaultStringCompare a b <= 0 → defaultStringCompare b c <= 0 →
            defaultStringCompare a c <= 0) →
  String.prefix shorter longer = true →
  getPrefixMatches defaultStringCompare longer options
  = List.filter (fun c => String.prefix longer (value c))
      (getPrefixMatches defaultStringCompare shorter options).
Proof.
  intros Htotal Htrans Hpre. rewrite !getPrefixMatches_unfold.
  rewrite filter_sort by eauto. f_equal.
  rewrite filter_fmap_list. f_equal. simpl.
  rewrite filter_filter_list; [done|].
  intros o Ho. by eapply prefix_trans.
Qed.

(** X12.  For a comparator that is a total order on strings, the result of
    [getPrefixMatches] does not depend on the order in which the iterable
    yields the options. *)
Theorem getPrefixMatches_order_independent
    (prefix : string) (options options' : list string) :
  (∀ a b, defaultStringCompare a b <= 0 ∨ defaultStringCompare b a <= 0) →
  (∀ a b c, defaultStringCompare a b <= 0 → defaultStringCompare b c <= 0 →
            defaultStringCompare a c <= 0) →
  (∀ a b, defaultStringCompare a b <= 0 → defaultStringCompare b a <= 0 → a = b) →
  Permutation options options' →
  getPrefixMatches defaultStringCompare prefix options
  = getPrefixMatches defaultStringCompare prefix options'.
Proof.
  intros Htotal Htrans Hanti Hperm. rewrite !getPrefixMatches_unfold.
  apply (StronglySorted_unique_strong
           (fun a b => defaultStringCompare (value a) (value b) <= 0)).
  - intros [a] [b] _ _ Hab Hba. simpl in *. f_equal. by apply Hanti.
  - apply sort_sorted; eauto.
  - apply sort_sorted; eauto.
  - rewrite !sort_perm. apply fmap_Permutation.
    clear -Hperm. induction Hperm; simpl.
    + done.
    + destruct (String.prefix prefix x); by rewrite IHHperm.
    + destruct (String.prefix prefix x), (String.prefix prefix y);
        done || apply perm_swap.
    + by etrans.
Qed.

End CompletionMoreFacts.

(** ** sliceview/frontend.ts: what [getVolumetricTransformedSources] returns *)

Lemma mapM_Forall2 {E A B : Type} (f : A -> Result E B) (l : list A) :
  ∀ r, mapM f l = Return r → Forall2 (fun x y => f x = Return y) l r.
Proof.
  induction l as [|x l IH]; simpl; intros r.
  - intros [= <-]. constructor.
  - destruct (f x) as [y|e] eqn:Hx; simpl; [|done].
    destruct (mapM f l) as [ys|e]; simpl; [|done].
    intros [= <-]. constructor; [done|]. by apply IH.
Qed.

Section TransformedSourcesMoreFacts.

Import Frontend.

Context {Num : Type}.
Variables (zero NaN : Num) (fround : Num -> Num).
Context {SourceId : Type} `{Countable SourceId}.
Context {ChunkTransformParameters : Type}.
Variable channelToChunkDimensionIndices : ChunkTransformParameters -> list Z.
Variable getChunkTransformParameters :
  @RenderLayerTransformOrError Num -> list Num ->
  Result string ChunkTransformParameters.
Context {DisplayGeometry : Type}.
Variable displayGeometry :
  DisplayDimensionRenderInfo -> @RenderLayerTransformOrError Num ->
  @SliceViewSingleResolutionSource Num SourceId -> ChunkTransformParameters ->
  Result string DisplayGeometry.
Context {LayerRef : Type} `{Countable LayerRef}.

Abbreviation gvts' :=
  (getVolumetricTransformedSources zero NaN fround
     channelToChunkDimensionIndices getChunkTransformParameters
     displayGeometry (LayerRef := LayerRef)).

Abbreviation gts' :=
  (getTransformedSource channelToChunkDimensionIndices
     getChunkTransformParameters displayGeometry (LayerRef := LayerRef)).

(** The channel loop returns only if every mapped channel dimension has the
    extent of its chunk dimension. *)
Lemma checkChannelDimensions_returns
    (transform : @RenderLayerTransformOrError Num) size indices start :
  checkChannelDimensions transform size start indices = Return tt →
  ∀ channelDim chunkDim,
    indices !! channelDim = Some chunkDim → chunkDim ≠ -1 →
    index size chunkDim = channelSpaceShape transform !! (start + channelDim)%nat.
Proof.
  intros Hret channelDim chunkDim Hl Hne.
  destruct (decide (index size chunkDim
                    = channelSpaceShape transform !! (start + channelDim)%nat))
    as [|Hmis]; [done|].
  destruct (checkChannelDimensions_throws transform size indices start
              channelDim chunkDim Hl Hne Hmis) as (d & c & _ & _ & _ & _ & Ht).
  congruence.
Qed.

(** X13.  A transformed source that [getTransformedSource] returns belongs to
    the layer and to the chunk source it was made from, carries the chunk
    transform that [getChunkTransformParameters] returned, takes each clip
    bound from the candidate when the candidate has one and from the voxel
    bounds of the chunk source otherwise, and every channel dimension that is
    mapped to a chunk dimension has the extent of that chunk dimension. *)
Theorem getTransformedSource_returns
    (info0 : DisplayDimensionRenderInfo)
    (transform : @RenderLayerTransformOrError Num) (layer : LayerRef)
    (s : SliceViewSingleResolutionSource)
    (ts : FrontendTransformedSource) :
  gts' info0 transform layer s = Return ts →
  ts_renderLayer ts = layer
  ∧ ts_source ts = chunkSource s
  ∧ getChunkTransformParameters transform (chunkToMultiscaleTransform s)
    = Return (ts_chunkTransform ts)
  ∧ ts_lowerClipBound ts
    = default (lowerVoxelBound (spec (chunkSource s))) (lowerClipBound s)
  ∧ ts_upperClipBound ts
    = default (upperVoxelBound (spec (chunkSource s))) (upperClipBound s)
  ∧ ∀ channelDim chunkDim,
      channelToChunkDimensionIndices (ts_chunkTransform ts) !! channelDim
      = Some chunkDim →
      chunkDim ≠ -1 →
      index (chunkDataSize (spec (chunkSource s))) chunkDim
      = channelSpaceShape transform !! channelDim.
Proof.
  unfold getTransformedSource.
  destruct (getChunkTransformParameters transform (chunkToMultiscaleTransform s))
    as [ct|e] eqn:Hct; simpl; [|done].
  destruct (checkChannelDimensions transform (chunkDataSize (spec (chunkSource s)))
              0 (channelToChunkDimensionIndices ct)) as [[]|e] eqn:Hch;
    simpl; [|done].
  destruct (displayGeometry info0 transform s ct) as [g|e]; simpl; [|done].
  intros [= <-]. simpl. repeat split; try done.
  intros channelDim chunkDim Hl Hne.
  by apply (checkChannelDimensions_returns _ _ _ _ Hch channelDim chunkDim).
Qed.

(** X14.  [getVolumetricTransformedSources] leaves by exception only when
    [getSources] throws.  When it returns, the message list holds nothing
    that it held before, and either it holds exactly one error, no
    transformed source is returned, and the chunk sources disposed of are
    none (the transform is an error) or all candidates; or it holds no
    message, no chunk source is disposed of, and the result has one
    transformed source for every candidate, scale by scale and in order. *)
Theorem getVolumetricTransformedSources_outcomes
    (info0 : DisplayDimensionRenderInfo)
    (transform : @RenderLayerTransformOrError Num)
    (getSources : SliceViewSourceOptions ->
                  Result string (list (list SliceViewSingleResolutionSource)))
    (messages : MessageList) (layer : LayerRef) :
  (∀ e, gvts' info0 transform getSources messages layer = Throw e →
     transformError transform = None
     ∧ getSources (sourceOptions zero NaN fround info0 transform) = Throw e)
  ∧ (∀ o, gvts' info0 transform getSources messages layer = Return o →
       (∃ reported,
          transformedSources o = []
          ∧ messagesAfter o = [{| severity := error; message := reported |}]
          ∧ ((transformError transform = Some reported ∧ disposed o = [])
             ∨ ∃ allSources,
                 transformError transform = None
                 ∧ getSources (sourceOptions zero NaN fround info0 transform)
                   = Return allSources
                 ∧ disposed o
                   = (fun s => sourceId (chunkSource s)) <$> concat allSources))
       ∨ (messagesAfter o = [] ∧ disposed o = []
          ∧ ∃ allSources,
              transformError transform = None
              ∧ getSources (sourceOptions zero NaN fround info0 transform)
                = Return allSources
              ∧ Forall2
                  (Forall2 (fun s ts => gts' info0 transform layer s = Return ts))
                  allSources (transformedSources o))).
Proof.
  unfold getVolumetricTransformedSources.
  destruct (transformError transform) as [e0|] eqn:Herr.
  { split; [done|]. intros o [= <-]. left. exists e0. simpl. eauto. }
  destruct (getSources (sourceOptions zero NaN fround info0 transform))
    as [allSources|e0] eqn:Hsrc; simpl.
  2: { split; [|done]. by intros e [= ->]. }
  destruct (mapM (mapM (gts' info0 transform layer)) allSources)
    as [result|e0] eqn:Hmap.
  - split; [done|]. intros o [= <-]. right. simpl. repeat split.
    exists allSources. repeat split.
    apply mapM_Forall2 in Hmap.
    eapply Forall2_impl; [exact Hmap|]. intros l r Hl. by apply mapM_Forall2.
  - split; [done|]. intros o [= <-]. left. eexists. simpl.
    repeat split. right. by exists allSources.
Qed.

End TransformedSourcesMoreFacts.

(** ** sliceview/frontend.ts: what [updateVisibleLayersNow] leaves behind *)

Section VisibleLayerMoreFacts.

Import Frontend ViewReads.

Context {Num : Type}.
Variables (zero NaN : Num) (fround : Num -> Num).
Context {SourceId : Type} `{Countable SourceId}.
Context {ChunkTransformParameters : Type}.
Variable channelToChunkDimensionIndices : ChunkTransformParameters -> list Z.
Variable getChunkTransformParameters :
  @RenderLayerTransformOrError Num -> list Num ->
  Result string ChunkTransformParameters.
Context {DisplayGeometry : Type}.
Variable displayGeometry :
  DisplayDimensionRenderInfo -> @RenderLayerTransformOrError Num ->
  @SliceViewSingleResolutionSource Num SourceId -> ChunkTransformParameters ->
  Result string DisplayGeometry.
Context {LayerRef : Type} `{Countable LayerRef}.
Context {Serialized : Type}.
Variable serializeTransformedSource :
  @FrontendTransformedSource Num SourceId ChunkTransformParameters
    DisplayGeometry LayerRef -> Serialized.

Abbreviation View' :=
  (@SliceView Num SourceId _ _ ChunkTransformParameters DisplayGeometry
     LayerRef _ _ Serialized).

Abbreviation updateLayer' :=
  (updateVisibleLayer zero NaN fround channelToChunkDimensionIndices
     getChunkTransformParameters displayGeometry serializeTransformedSource).

Abbreviation updateLoop' :=
  (updateVisibleLayersLoop zero NaN fround channelToChunkDimensionIndices
     getChunkTransformParameters displayGeometry serializeTransformedSource).

Abbreviation updateNow' :=
  (updateVisibleLayersNow zero NaN fround channelToChunkDimensionIndices
     getChunkTransformParameters displayGeometry serializeTransformedSource).

(** One iteration that returns. *)
Lemma updateLayer_returns (v v' : View') (c c' : bool) (k : LayerRef) (now : Z) :
  updateLayer' now (v, c) k = Return (v', c') →
  let b := isSliceViewLayer (layerObjects v) k in
  (visibleLayerList v' = visibleLayerList v ++ (if b then [k] else [])
   ∧ c' = (c || b)
   ∧ msg_layerId <$> rpcInvoked v'
     = (msg_layerId <$> rpcInvoked v)
       ++ (if b then [layerRpcId (layerObjects v) k] else [])
   ∧ msg_id <$> rpcInvoked v'
     = (msg_id <$> rpcInvoked v) ++ (if b then [sliceViewRpcId v] else []))
  ∧ ((∀ k', isSliceViewLayer (layerObjects v') k'
            = isSliceViewLayer (layerObjects v) k')
     ∧ (∀ k', layerRpcId (layerObjects v') k' = layerRpcId (layerObjects v) k')
     ∧ sliceViewRpcId v' = sliceViewRpcId v
     ∧ projectionDisplayDimensionRenderInfo v'
       = projectionDisplayDimensionRenderInfo v
     ∧ viewChangedDispatched v' = viewChangedDispatched v
     ∧ visibleSourcesStale v' = visibleSourcesStale v)
  ∧ (∀ k', k' ≠ k → visibleLayers v' !! k' = visibleLayers v !! k')
  ∧ (if b
     then ∃ layerInfo,
            visibleLayers v' !! k = Some layerInfo
            ∧ li_lastSeenGeneration layerInfo = now
            ∧ li_displayDimensionRenderInfo layerInfo
              = projectionDisplayDimensionRenderInfo v
     else visibleLayers v' = visibleLayers v).
Proof.
  unfold updateVisibleLayer, isSliceViewLayer.
  destruct (layerObjects v !! k) as [layer|] eqn:Hk; simpl.
  2: { intros [= <- <-]. rewrite !app_nil_r, orb_false_r. done. }
  destruct (isSliceViewRenderLayer layer) eqn:Hslice; simpl.
  2: { intros [= <- <-]. rewrite !app_nil_r, orb_false_r. done. }
  unfold getTransformedSources.
  destruct (getVolumetricTransformedSources _ _ _ _ _ _ _ _ _ _ _)
    as [outcome|e0]; simpl; [|done].
  intros [= <- <-]. simpl. rewrite orb_true_r, !fmap_app. simpl.
  split; [|split; [|split]].
  - unfold layerRpcId. by rewrite Hk.
  - repeat split; try done.
    + intros k'. destruct (decide (k' = k)) as [->|Hne].
      * by rewrite lookup_insert_eq, Hk.
      * by rewrite lookup_insert_ne.
    + intros k'. unfold layerRpcId. destruct (decide (k' = k)) as [->|Hne].
      * by rewrite lookup_insert_eq, Hk.
      * by rewrite lookup_insert_ne.
  - intros k' Hne. by rewrite lookup_insert_ne.
  - eexists. rewrite lookup_insert_eq. done.
Qed.

Lemma updateLoop_returns (now : Z) (ready : list LayerRef) :
  ∀ (v v' : View') (c c' : bool),
  updateLoop' now (v, c) ready = Return (v', c') →
  let shown := List.filter (isSliceViewLayer (layerObjects v)) ready in
  (visibleLayerList v' = visibleLayerList v ++ shown
   ∧ c' = match shown with [] => c | _ => true end
   ∧ msg_layerId <$> rpcInvoked v'
     = (msg_layerId <$> rpcInvoked v)
       ++ (layerRpcId (layerObjects v) <$> shown)
   ∧ msg_id <$> rpcInvoked v'
     = (msg_id <$> rpcInvoked v)
       ++ replicate (length shown) (sliceViewRpcId v))
  ∧ (viewChangedDispatched v' = viewChangedDispatched v
     ∧ visibleSourcesStale v' = visibleSourcesStale v)
  ∧ (∀ k, k ∉ shown → visibleLayers v' !! k = visibleLayers v !! k)
  ∧ (∀ k, k ∈ shown →
       ∃ layerInfo,
         visibleLayers v' !! k = Some layerInfo
         ∧ li_lastSeenGeneration layerInfo = now
         ∧ li_displayDimensionRenderInfo layerInfo
           = projectionDisplayDimensionRenderInfo v).
Proof.
  induction ready as [|k0 rest IH]; intros v v' c c'.
  - intros [= <- <-]. simpl. rewrite !app_nil_r.
    repeat split; try done. intros k Hk. by apply elem_of_nil in Hk.
  - rewrite updateLoop_cons.
    destruct (updateLayer' now (v, c) k0) as [[v1 c1]|e1] eqn:Hstep; [|done].
    change (Return (v1, c1) ≫= _) with (updateLoop' now (v1, c1) rest).
    intros Hloop.
    apply updateLayer_returns in Hstep
      as ((Hl1 & Hc1 & Hm1 & Hi1) & (Hf & Hr & Hid & Hproj & Hvc & Hst)
          & Hframe1 & Hk0).
    apply IH in Hloop as ((Hl & Hc & Hm & Hi) & (Hvc' & Hst') & Hframe & Hnew).
    assert (Hshown : List.filter (isSliceViewLayer (layerObjects v1)) rest
                     = List.filter (isSliceViewLayer (layerObjects v)) rest).
    { clear -Hf. induction rest as [|x rest IHr]; simpl; [done|].
      by rewrite Hf, IHr. }
    assert (Hrpc : layerRpcId (layerObjects v1)
                     <$> List.filter (isSliceViewLayer (layerObjects v)) rest
                   = layerRpcId (layerObjects v)
                       <$> List.filter (isSliceViewLayer (layerObjects v)) rest).
    { apply list_fmap_ext. intros ? x _. apply Hr. }
    rewrite Hshown in *. clear Hshown. rewrite Hrpc in Hm. clear Hrpc.
    simpl.
    destruct (isSliceViewLayer (layerObjects v) k0) eqn:Hb.
    + split; [|split; [|split]].
      * rewrite Hl, Hl1, Hc, Hc1, Hm, Hm1, Hi, Hi1, Hid, <- !(assoc_L (++)).
        rewrite orb_true_r. simpl. repeat split; try done.
        by destruct (List.filter _ rest).
      * split; congruence.
      * intros k Hk. apply not_elem_of_cons in Hk as [Hne Hk].
        rewrite Hframe by done. by apply Hframe1.
      * intros k Hk.
        destruct (decide (k ∈ List.filter (isSliceViewLayer (layerObjects v)) rest))
          as [Hin|Hnotin].
        { destruct (Hnew k Hin) as (li & ? & ? & ?). exists li.
          repeat split; congruence. }
        apply elem_of_cons in Hk as [->|Hk]; [|done].
        destruct Hk0 as (li & Hli & Hgen & Hdim).
        exists li. rewrite Hframe by done. done.
    + rewrite app_nil_r in Hl1, Hm1, Hi1. rewrite orb_false_r in Hc1.
      split; [|split; [|split]].
      * rewrite Hl, Hl1, Hc, Hc1, Hm, Hm1, Hi, Hi1, Hid. done.
      * split; congruence.
      * intros k Hk. rewrite Hframe by done. by rewrite Hk0.
      * intros k Hk. destruct (Hnew k Hk) as (li & ? & ? & ?). exists li.
        repeat split; congruence.
Qed.

(** X15.  On a disposed view [updateVisibleLayersNow] returns false and does
    nothing.  Otherwise, when it returns: the list of visible layers is
    rebuilt as the ready slice-view layers in order; the result is true
    exactly when there is one; one message per such layer is handed to
    [rpc.invoke], in order, with the id of the view and the id of the layer;
    [viewChanged] is dispatched once more; the visible sources are marked
    stale when the result is true and left as they are otherwise; each such
    layer has an entry stamped with this update; and the entry of every
    other layer, ready or not, is neither changed nor removed. *)
Theorem updateVisibleLayersNow_returns
    (this : View') (now : Z) (readyRenderLayers : list LayerRef) :
  (wasDisposed this = true →
   updateNow' this now readyRenderLayers = Return (this, false))
  ∧ (wasDisposed this = false →
     ∀ (this' : View') (changed : bool),
       updateNow' this now readyRenderLayers = Return (this', changed) →
       let shown :=
         List.filter (isSliceViewLayer (layerObjects this)) readyRenderLayers in
       visibleLayerList this' = shown
       ∧ (changed = true ↔ shown ≠ [])
       ∧ msg_layerId <$> rpcInvoked this'
         = (msg_layerId <$> rpcInvoked this)
           ++ (layerRpcId (layerObjects this) <$> shown)
       ∧ msg_id <$> rpcInvoked this'
         = (msg_id <$> rpcInvoked this)
           ++ replicate (length shown) (sliceViewRpcId this)
       ∧ viewChangedDispatched this' = S (viewChangedDispatched this)
       ∧ visibleSourcesStale this' = (changed || visibleSourcesStale this)
       ∧ (∀ k, k ∈ shown →
            ∃ layerInfo,
              visibleLayers this' !! k = Some layerInfo
              ∧ li_lastSeenGeneration layerInfo = now
              ∧ li_displayDimensionRenderInfo layerInfo
                = projectionDisplayDimensionRenderInfo this)
       ∧ (∀ k, k ∉ shown →
            visibleLayers this' !! k = visibleLayers this !! k)).
Proof.
  unfold updateVisibleLayersNow. split; intros Hd; rewrite Hd; [done|].
  intros this' changed.
  match goal with
  | |- context [updateVisibleLayersLoop _ _ _ _ _ _ _ _ (?v, false) _] =>
      set (this0 := v)
  end.
  destruct (updateLoop' now (this0, false) readyRenderLayers)
    as [[v1 c1]|e1] eqn:Hloop; simpl; [|done].
  intros [= <- <-]. simpl.
  apply updateLoop_returns in Hloop
    as ((Hl & Hc & Hm & Hi) & (Hvc & Hst) & Hframe & Hnew).
  simpl in *.
  repeat split; try done.
  - rewrite Hc. by destruct (List.filter _ _).
  - rewrite Hc. by destruct (List.filter _ _).
  - by rewrite Hvc.
  - rewrite Hst. by destruct c1.
Qed.

End VisibleLayerMoreFacts.

(** ** sliceview/frontend.ts: [SliceView.getTransformedSources] *)

Section RegisterSourcesFacts.

Import Frontend ViewReads.

Context {Num : Type}.
Variables (zero NaN : Num) (fround : Num -> Num).
Context {SourceId : Type} `{Countable SourceId}.
Context {ChunkTransformParameters : Type}.
Variable channelToChunkDimensionIndices : ChunkTransformParameters -> list Z.
Variable getChunkTransformParameters :
  @RenderLayerTransformOrError Num -> list Num ->
  Result string ChunkTransformParameters.
Context {DisplayGeometry : Type}.
Variable displayGeometry :
  DisplayDimensionRenderInfo -> @RenderLayerTransformOrError Num ->
  @SliceViewSingleResolutionSource Num SourceId -> ChunkTransformParameters ->
  Result string DisplayGeometry.
Context {LayerRef : Type} `{Countable LayerRef}.
Context {Serialized : Type}.

Abbreviation Registration :=
  (RenderLayer.SliceViewRenderLayer SourceId ChunkTransformParameters).

Abbreviation TransformedSource :=
  (@FrontendTransformedSource Num SourceId ChunkTransformParameters
     DisplayGeometry LayerRef).

Lemma addSource_refCountOf (reg : Registration) (s s' : SourceId)
    (ct : ChunkTransformParameters) :
  refCountOf (RenderLayer.addSource reg s ct) s'
  = refCountOf reg s' + (if decide (s' = s) then 1 else 0).
Proof.
  unfold refCountOf, RenderLayer.addSource.
  destruct (decide (s' = s)) as [->|Hne].
  - destruct (RenderLayer.visibleSources reg !! s); simpl;
      by rewrite lookup_insert_eq.
  - destruct (RenderLayer.visibleSources reg !! s); simpl;
      rewrite lookup_insert_ne by done; lia.
Qed.

Lemma registerLoop_refCountOf (l : list TransformedSource) (s : SourceId) :
  ∀ reg : Registration,
  refCountOf
    (fold_left
       (fun reg tsource =>
          RenderLayer.addSource reg (sourceId (ts_source tsource))
            (ts_chunkTransform tsource)) l reg) s
  = refCountOf reg s
    + Z.of_nat (length (List.filter
                          (fun tsource =>
                             bool_decide (sourceId (ts_source tsource) = s)) l)).
Proof.
  induction l as [|ts l IH]; intros reg; simpl; [lia|].
  rewrite IH, addSource_refCountOf.
  destruct (decide (s = sourceId (ts_source ts))) as [->|Hne].
  - rewrite bool_decide_eq_true_2 by done. simpl. lia.
  - rewrite bool_decide_eq_false_2 by done. lia.
Qed.

(** X16.  When [SliceView.getTransformedSources] returns, the layer holds,
    for every chunk source, as many more references as the returned array
    names that source; when an error was reported the registrations of the
    layer are as they were; and nothing else of the layer has changed. *)
Theorem getTransformedSources_registers
    (this : @SliceView Num SourceId _ _ ChunkTransformParameters DisplayGeometry
              LayerRef _ _ Serialized)
    (layerRef : LayerRef)
    (layer layer' : @RenderLayerObject Num SourceId _ _ ChunkTransformParameters)
    (messages : MessageList)
    (outcome : @TransformedSourcesOutcome Num SourceId ChunkTransformParameters
                 DisplayGeometry LayerRef) :
  getTransformedSources zero NaN fround channelToChunkDimensionIndices
    getChunkTransformParameters displayGeometry this layerRef layer messages
  = Return (outcome, layer') →
  (∀ s, refCountOf (registration layer') s
        = refCountOf (registration layer) s
          + Z.of_nat (length (List.filter
                                (fun tsource =>
                                   bool_decide (sourceId (ts_source tsource) = s))
                                (concat (transformedSources outcome)))))
  ∧ (messagesAfter outcome ≠ [] → registration layer' = registration layer)
  ∧ isSliceViewRenderLayer layer' = isSliceViewRenderLayer layer
  ∧ rpcId layer' = rpcId layer
  ∧ transformValue layer' = transformValue layer
  ∧ transformChangedCount layer' = transformChangedCount layer
  ∧ messageChildren layer' = messageChildren layer
  ∧ layerRefCount layer' = layerRefCount layer.
Proof.
  unfold getTransformedSources.
  destruct (getVolumetricTransformedSources _ _ _ _ _ _ _ _ _ _ _)
    as [o|e0] eqn:Hg; simpl; [|done].
  intros [= <- <-]. simpl. split; [|split; [|done]].
  - intros s. apply registerLoop_refCountOf.
  - intros Hmsg. unfold getVolumetricTransformedSources in Hg.
    destruct (transformError (transformValue layer)).
    { by injection Hg as <-. }
    destruct (multiscaleGetSources layer _) as [allSources|]; simpl in Hg; [|done].
    destruct (mapM _ allSources); injection Hg as <-; [|done].
    by simpl in Hmsg.
Qed.

End RegisterSourcesFacts.

(** ** sliceview/frontend.ts: the matrix handed to [getSources] *)

Section MultiscaleToViewFacts.

Import Frontend.

Context {Num : Type}.
Variables (zero NaN : Num) (fround : Num -> Num).

(** A sequence of stores [out[j] = g(j)]: a position that holds [g] of
    itself keeps doing so, and a position stored to holds it. *)
Lemma store_keep (g : nat -> Num) (out : list Num) (j j' : nat) :
  out !! j' = Some (g j') → <[j := g j]> out !! j' = Some (g j').
Proof.
  intros Hj'. destruct (decide (j = j')) as [->|Hne].
  - apply list_lookup_insert_eq. by eapply lookup_lt_Some.
  - by rewrite list_lookup_insert_ne.
Qed.

Lemma store_new (g : nat -> Num) (out : list Num) (j : nat) :
  (j < length out)%nat → <[j := g j]> out !! j = Some (g j).
Proof. intros Hlt. by apply list_lookup_insert_eq. Qed.

Lemma index_of_nat {A : Type} (arr : list A) (n : nat) :
  index arr (Z.of_nat n) = arr !! n.
Proof.
  unfold index. destruct (Z.ltb_spec (Z.of_nat n) 0); [lia|].
  by rewrite Nat2Z.id.
Qed.

Lemma readEntry_display (m : list Num) (layerRank chunkDim displayDim : nat) :
  readEntry NaN m layerRank chunkDim (displayToLayerDimensionIndices !! displayDim)
  = if decide (displayDim < 3)%nat
    then default NaN (m !! ((layerRank + 1) * chunkDim + displayDim)%nat)
    else NaN.
Proof.
  unfold readEntry.
  assert (Hl : displayToLayerDimensionIndices !! displayDim
               = if decide (displayDim < 3)%nat
                 then Some (Z.of_nat displayDim) else None).
  { by destruct displayDim as [|[|[|d]]]. }
  rewrite Hl. destruct (decide (displayDim < 3)%nat); [|done].
  rewrite <- Nat2Z.inj_add, index_of_nat.
  by destruct (m !! _).
Qed.

Section Loops.

Variables (displayRank0 chunkRank layerRank : nat) (m : list Num).

(** The value the loops store at a position of the result. *)
Let entry (j : nat) : Num :=
  fround (readEntry NaN m layerRank (j / displayRank0)
            (displayToLayerDimensionIndices !! (j mod displayRank0)%nat)).

Let inner (displayDim : nat) (out : list Num) (n : nat) : list Num :=
  fold_left
    (fun out chunkDim =>
       <[(displayRank0 * chunkDim + displayDim)%nat :=
           fround (readEntry NaN m layerRank chunkDim
                     (displayToLayerDimensionIndices !! displayDim))]> out)
    (seq 0 n) out.

Let outer (out : list Num) (n : nat) : list Num :=
  fold_left
    (fun out displayDim =>
       if decide (displayToLayerDimensionIndices !! displayDim = Some (-1))
       then out else inner displayDim out chunkRank)
    (seq 0 n) out.

Lemma entry_at (displayDim chunkDim : nat) :
  (displayDim < displayRank0)%nat →
  entry (displayRank0 * chunkDim + displayDim)
  = fround (readEntry NaN m layerRank chunkDim
              (displayToLayerDimensionIndices !! displayDim)).
Proof.
  intros Hlt. unfold entry.
  replace (displayRank0 * chunkDim + displayDim)%nat
    with (displayDim + chunkDim * displayRank0)%nat by lia.
  rewrite Nat.div_add by lia. rewrite Nat.Div0.mod_add.
  rewrite Nat.div_small, Nat.mod_small by done. done.
Qed.

Lemma inner_good (displayDim : nat) (out : list Num) (n : nat) :
  (displayDim < displayRank0)%nat →
  length (inner displayDim out n) = length out
  ∧ (∀ j, out !! j = Some (entry j) →
          inner displayDim out n !! j = Some (entry j))
  ∧ (∀ chunkDim, (chunkDim < n)%nat →
       (displayRank0 * chunkDim + displayDim < length out)%nat →
       inner displayDim out n !! (displayRank0 * chunkDim + displayDim)%nat
       = Some (entry (displayRank0 * chunkDim + displayDim))).
Proof.
  intros Hlt. unfold inner. induction n as [|n (IHlen & IHkeep & IHnew)].
  - simpl. repeat split; try done. lia.
  - rewrite seq_S, fold_left_app. simpl.
    rewrite <- (entry_at displayDim n) by done.
    split; [by rewrite length_insert|]. split.
    + intros j Hj. by apply store_keep, IHkeep.
    + intros chunkDim Hc Hb.
      destruct (decide (chunkDim = n)) as [->|Hne].
      * apply store_new. by rewrite IHlen.
      * apply store_keep, IHnew; [lia|done].
Qed.

Lemma skip_never (displayDim : nat) :
  displayToLayerDimensionIndices !! displayDim ≠ Some (-1).
Proof. by destruct displayDim as [|[|[|d]]]. Qed.

Lemma outer_good (out : list Num) (n : nat) :
  (n ≤ displayRank0)%nat →
  length (outer out n) = length out
  ∧ (∀ j, out !! j = Some (entry j) → outer out n !! j = Some (entry j))
  ∧ (∀ displayDim chunkDim, (displayDim < n)%nat → (chunkDim < chunkRank)%nat →
       (displayRank0 * chunkDim + displayDim < length out)%nat →
       outer out n !! (displayRank0 * chunkDim + displayDim)%nat
       = Some (entry (displayRank0 * chunkDim + displayDim))).
Proof.
  unfold outer. induction n as [|n IH]; intros Hle.
  - simpl. repeat split; try done. lia.
  - destruct IH as (IHlen & IHkeep & IHnew); [lia|].
    rewrite seq_S, fold_left_app. simpl.
    rewrite decide_False by apply skip_never.
    match goal with
    | |- context [inner n ?o chunkRank] =>
        destruct (inner_good n o chunkRank ltac:(lia)) as (Hlen & Hkeep & Hnew)
    end.
    split; [by rewrite Hlen|]. split.
    + intros j Hj. by apply Hkeep, IHkeep.
    + intros displayDim chunkDim Hd Hc Hb.
      destruct (decide (displayDim = n)) as [->|Hne].
      * apply Hnew; [done|]. by rewrite IHlen.
      * apply Hkeep, IHnew; [lia|done|done].
Qed.

(** X17.  The matrix passed to [getSources] has [displayRank * chunkRank]
    entries, and none of them is left at its initial zero: the entry of
    display dimension [displayDim] and chunk dimension [chunkDim], stored
    column by column, is the rounded entry of [modelToRenderLayerTransform]
    for the same two dimensions, and the rounded [NaN] where the model
    matrix has no such entry or the display dimension is past the third. *)
Theorem computeMultiscaleToViewTransform_entries :
  length (computeMultiscaleToViewTransform zero NaN fround
            displayRank0 chunkRank layerRank m)
  = (displayRank0 * chunkRank)%nat
  ∧ ∀ displayDim chunkDim,
      (displayDim < displayRank0)%nat → (chunkDim < chunkRank)%nat →
      computeMultiscaleToViewTransform zero NaN fround
        displayRank0 chunkRank layerRank m
        !! (displayRank0 * chunkDim + displayDim)%nat
      = Some (fround
                (if decide (displayDim < 3)%nat
                 then default NaN
                        (m !! ((layerRank + 1) * chunkDim + displayDim)%nat)
                 else NaN)).
Proof.
  change (computeMultiscaleToViewTransform zero NaN fround
            displayRank0 chunkRank layerRank m)
    with (outer (replicate (displayRank0 * chunkRank) zero) displayRank0).
  destruct (outer_good (replicate (displayRank0 * chunkRank) zero) displayRank0
              ltac:(lia)) as (Hlen & _ & Hnew).
  rewrite length_replicate in Hlen, Hnew. split; [done|].
  intros displayDim chunkDim Hd Hc.
  rewrite Hnew by (done || nia).
  by rewrite entry_at, readEntry_display.
Qed.

End Loops.

End MultiscaleToViewFacts.

(** ** sliceview/frontend.ts: the calls of [fetchChunk] in flight *)

Section FetchChunkRunsFacts.

Import FetchChunk FetchChunkRuns.

Context {Payload T RpcError : Type}.
Variable SYSTEM_MEMORY : Z.

Abbreviation World' := (World Payload T RpcError).
Abbreviation Call' := (Call Payload T RpcError).
Abbreviation Source' := (SliceViewChunkSource Payload).
Abbreviation step' := (step SYSTEM_MEMORY (T := T) (RpcError := RpcError)).
Abbreviation run' := (run SYSTEM_MEMORY (T := T) (RpcError := RpcError)).

(** *** Counting the calls in flight *)

Lemma pendingCalls_app (l : list Call') (c : Call') :
  pendingCalls (l ++ [c]) = pendingCalls l + (if isPending c then 1 else 0).
Proof.
  unfold pendingCalls. rewrite List.filter_app, length_app. simpl.
  destruct (isPending c); simpl; lia.
Qed.

Lemma pendingCalls_insert (l : list Call') :
  ∀ (id : nat) (c c' : Call'),
    l !! id = Some c →
    pendingCalls (<[id := c']> l)
    = pendingCalls l - (if isPending c then 1 else 0)
      + (if isPending c' then 1 else 0).
Proof.
  unfold pendingCalls.
  induction l as [|x l IH]; intros [|id] c c' Hl; simpl in *; try done.
  - injection Hl as ->. destruct (isPending c), (isPending c'); simpl; lia.
  - specialize (IH id c c' Hl). destruct (isPending x); simpl; lia.
Qed.

Lemma invokeRequester_pending (chunk : SliceViewChunk Payload) (w : World')
    (j : nat) :
  source (invokeRequester chunk w j) = source w
  ∧ pendingCalls (calls (invokeRequester chunk w j)) = pendingCalls (calls w).
Proof.
  unfold invokeRequester. destruct (calls w !! j) as [c|] eqn:Hc; [|done].
  simpl. split; [done|]. rewrite (pendingCalls_insert _ _ c) by done.
  unfold isPending. simpl. lia.
Qed.

Lemma invokeAll_pending (chunk : SliceViewChunk Payload) (ids : list nat) :
  ∀ w : World',
    pendingCalls (calls (fold_left (invokeRequester chunk) ids w))
    = pendingCalls (calls w).
Proof.
  induction ids as [|j ids IH]; intros w; simpl; [done|].
  rewrite IH. apply invokeRequester_pending.
Qed.

Lemma settle_balance (w : World') (id : nat) (c : Call')
    (o : Result RpcError T) :
  calls w !! id = Some c → isPending c = true →
  refCount (source (settle w id c o)) - pendingCalls (calls (settle w id c o))
  = refCount (source w) - pendingCalls (calls w).
Proof.
  intros Hc Hp. unfold settle, setCall. simpl.
  rewrite (pendingCalls_insert _ _ c) by done. rewrite Hp.
  unfold isPending. simpl. lia.
Qed.

Lemma step_balance (w : World') (ev : Event Payload T RpcError) :
  refCount (source (step' w ev)) - pendingCalls (calls (step' w ev))
  = refCount (source w) - pendingCalls (calls w).
Proof.
  destruct ev as [pos tr|id|id e|id|x]; simpl.
  - unfold fetchChunk.
    destruct (existingUsable _ _ _); simpl; rewrite pendingCalls_app;
      unfold isPending; simpl; lia.
  - unfold rpcResolved. destruct (calls w !! id) as [c|] eqn:Hc; [|done].
    destruct (status c) eqn:Hs; try done. unfold setCall. simpl.
    rewrite (pendingCalls_insert _ _ c) by done.
    unfold isPending. rewrite Hs. simpl. lia.
  - unfold rpcRejected. destruct (calls w !! id) as [c|] eqn:Hc; [|done].
    destruct (status c) eqn:Hs; try done.
    apply settle_balance; [done|]. unfold isPending. by rewrite Hs.
  - unfold resume. destruct (calls w !! id) as [c|] eqn:Hc; [|done].
    destruct (status c) eqn:Hs; try done.
    destruct (promise c); [|done].
    apply settle_balance; [done|]. unfold isPending. by rewrite Hs.
  - unfold chunkReady. rewrite invokeAll_pending.
    by destruct (invokeAll_source (Payload := Payload) (T := T)
                   (RpcError := RpcError)
                   (newSliceViewChunk SYSTEM_MEMORY x)
                   (requestersOf (source w) (gridKey (x_chunkGridPosition x)))
                   {| source :=
                        {| rpcId := rpcId (source w);
                           chunks := <[gridKey (x_chunkGridPosition x) :=
                                         newSliceViewChunk SYSTEM_MEMORY x]>
                                       (chunks (source w));
                           chunkRequesters := chunkRequesters (source w);
                           refCount := refCount (source w) |};
                      calls := calls w;
                      requestsSent := requestsSent w;
                      notified := notified w |}) as (-> & _ & _).
Qed.

(** X18.  References are balanced: whatever happens, the reference count of
    the chunk source moves with the number of calls of [fetchChunk] that
    have not settled, so that each waiting call holds one reference and
    gives it back when it returns or throws.  Started without references
    and calls, the source holds as many references as calls are in
    flight. *)
Theorem fetchChunk_references_balanced
    (w : World') (events : list (Event Payload T RpcError)) :
  refCount (source (run' w events)) - pendingCalls (calls (run' w events))
  = refCount (source w) - pendingCalls (calls w)
  ∧ ∀ rpcId0,
      refCount (source (run' (emptyWorld rpcId0) events))
      = pendingCalls (calls (run' (emptyWorld rpcId0) events)).
Proof.
  assert (Hrun : ∀ (w : World') events,
            refCount (source (run' w events))
            - pendingCalls (calls (run' w events))
            = refCount (source w) - pendingCalls (calls w)).
  { clear. intros w events. revert w.
    induction events as [|ev events IH]; intros w; [done|].
    unfold run in *. simpl. rewrite IH. apply step_balance. }
  split; [apply Hrun|]. intros rpcId0.
  specialize (Hrun (emptyWorld rpcId0) events). simpl in Hrun.
  change (pendingCalls []) with 0 in Hrun. lia.
Qed.

End FetchChunkRunsFacts.

(** ** sliceview/frontend.ts: the requester arrays *)

Section WaitersFacts.

Import FetchChunk FetchChunkRuns.

Context {Payload T RpcError : Type}.
Variable SYSTEM_MEMORY : Z.

Abbreviation World'' := (World Payload T RpcError).
Abbreviation Call'' := (Call Payload T RpcError).
Abbreviation Source'' := (SliceViewChunkSource Payload).

Lemma requesterMap_finallyBlock (this : Source'') (key : string) (r : nat) :
  requesterMap (finallyBlock this key r)
  = if decide (length (spliceOut r (requestersOf this key)) = 0%nat)
    then delete key (requesterMap this)
    else <[key := spliceOut r (requestersOf this key)]> (requesterMap this).
Proof.
  unfold finallyBlock, requesterMap at 1. simpl.
  set (map1 := if decide (length _ = 0%nat) then _ else _).
  destruct (decide (size map1 = 0%nat)) as [Hz|]; [|done].
  apply map_size_empty_iff in Hz. by rewrite Hz.
Qed.

Lemma requestersOf_finallyBlock (this : Source'') (key key' : string) (r : nat) :
  requestersOf (finallyBlock this key r) key'
  = if decide (key' = key) then spliceOut r (requestersOf this key)
    else requestersOf this key'.
Proof.
  unfold requestersOf at 1. rewrite requesterMap_finallyBlock.
  destruct (decide (length _ = 0%nat)) as [Hz|Hnz];
    destruct (decide (key' = key)) as [->|Hne].
  - rewrite lookup_delete_eq. simpl. symmetry. by apply nil_length_inv.
  - by rewrite lookup_delete_ne.
  - by rewrite lookup_insert_eq.
  - by rewrite lookup_insert_ne.
Qed.

(** When the requester is in the array, once, [indexOf] finds it and
    [splice] removes it and nothing else. *)
Lemma spliceOut_exact (r : nat) (entry : list nat) :
  NoDup entry → r ∈ entry →
  NoDup (spliceOut r entry)
  ∧ ∀ x, x ∈ spliceOut r entry ↔ x ∈ entry ∧ x ≠ r.
Proof.
  intros Hnd Hin. unfold spliceOut.
  destruct (list_find _ entry) as [[i y]|] eqn:Hf.
  - apply list_find_Some in Hf as (Hi & -> & _).
    rewrite delete_take_drop.
    rewrite <- (take_drop_middle entry i r Hi) in Hnd.
    apply NoDup_app in Hnd as (Hnd1 & Hdis & Hnd2).
    apply NoDup_cons in Hnd2 as [Hr2 Hnd2].
    split.
    + apply NoDup_app. split; [done|]. split; [|done].
      intros x Hx1 Hx2. apply (Hdis x Hx1). by right.
    + intros x. rewrite <- (take_drop_middle entry i r Hi) at 3.
      rewrite !elem_of_app, elem_of_cons. split.
      * intros [Hx|Hx].
        -- split; [by left|]. intros ->. apply (Hdis r Hx). by left.
        -- split; [by right; right|]. by intros ->.
      * intros [[Hx|[->|Hx]] Hne]; [by left|done|by right].
  - apply list_find_None in Hf. rewrite Forall_forall in Hf.
    by destruct (Hf r Hin).
Qed.

Lemma waitersExact_settle (w : World'') (id : nat) (c : Call'')
    (o : Result RpcError T) :
  waitersExact w → calls w !! id = Some c → isPending c = true →
  waitersExact (settle w id c o).
Proof.
  intros (Hnd & Hex & Hne & Hmap) Hc Hp.
  assert (Hin : id ∈ requestersOf (source w) (callKey c)).
  { apply Hex. by exists c. }
  destruct (spliceOut_exact id _ (Hnd (callKey c)) Hin) as [Hnd' Hex'].
  unfold settle, setCall. split; [|split; [|split]]; simpl.
  - intros key. rewrite requestersOf_finallyBlock.
    destruct (decide (key = callKey c)); [done|apply Hnd].
  - intros key id'. rewrite requestersOf_finallyBlock.
    destruct (decide (id' = id)) as [->|Hid].
    + rewrite list_lookup_insert_eq by (by eapply lookup_lt_Some).
      split.
      * destruct (decide (key = callKey c)) as [->|Hk].
        -- intros [_ ?]%Hex'. done.
        -- intros (c0 & Hc0 & Hk0 & _)%Hex. congruence.
      * intros (c0 & [= <-] & _ & Hp0). done.
    + rewrite list_lookup_insert_ne by done.
      destruct (decide (key = callKey c)) as [->|Hk].
      * rewrite Hex', Hex. split; [by intros [? _]|by intros ?].
      * apply Hex.
  - intros key ids. rewrite requesterMap_finallyBlock.
    destruct (decide (length _ = 0%nat)) as [Hz|Hnz].
    + intros [_ Hl]%lookup_delete_Some. by eapply Hne.
    + intros [[_ <-]|[_ Hl]]%lookup_insert_Some.
      * intros Hnil. by rewrite Hnil in Hnz.
      * by eapply Hne.
  - unfold finallyBlock. simpl.
    destruct (decide (size _ = 0%nat)) as [|Hsz]; [done|].
    intros [= Hm]. rewrite Hm in Hsz. by rewrite map_size_empty in Hsz.
Qed.

(** The arrays stay exact when the source keeps its requesters and each call
    keeps its key and whether it is in flight. *)
Lemma waitersExact_calls (w w' : World'') :
  chunkRequesters (source w') = chunkRequesters (source w) →
  (∀ key id,
     (∃ c, calls w' !! id = Some c ∧ callKey c = key ∧ isPending c = true)
     ↔ (∃ c, calls w !! id = Some c ∧ callKey c = key ∧ isPending c = true)) →
  waitersExact w → waitersExact w'.
Proof.
  intros Hsrc Hcalls (Hnd & Hex & Hne & Hmap).
  unfold waitersExact, requestersOf, requesterMap in *. rewrite Hsrc.
  split; [done|]. split; [|done].
  intros key id. by rewrite Hcalls.
Qed.

Lemma waitersExact_fetchChunk (w : World'') (pos : list Z)
    (tr : SliceViewChunk Payload -> T) :
  waitersExact w → waitersExact (fetchChunk SYSTEM_MEMORY w pos tr).
Proof.
  intros (Hnd & Hex & Hne & Hmap).
  assert (Hold : ∀ key id, id ∈ requestersOf (source w) key →
                           (id < length (calls w))%nat).
  { intros key id (c & Hc & _)%Hex. by eapply lookup_lt_Some. }
  unfold fetchChunk.
  destruct (existingUsable _ _ _) as [chunk|].
  - split; [|split; [|split]]; simpl; try done.
    intros key id. rewrite Hex. split.
    + intros (c & Hc & ?). exists c. split; [|done].
      by apply lookup_app_l_Some.
    + intros (c & Hc & Hk & Hp).
      apply lookup_app_Some in Hc as [Hc|[_ Hc]]; [by exists c|].
      apply list_lookup_singleton_Some in Hc as [_ <-]. done.
  - set (key0 := gridKey pos).
    assert (Hreq : ∀ key,
              requestersOf
                {| rpcId := rpcId (source w); chunks := chunks (source w);
                   chunkRequesters :=
                     Some (<[key0 := requestersOf (source w) key0
                                     ++ [length (calls w)]]>
                             (requesterMap (source w)));
                   refCount := refCount (source w) + 1 |} key
              = if decide (key = key0)
                then requestersOf (source w) key0 ++ [length (calls w)]
                else requestersOf (source w) key).
    { intros key. unfold requestersOf at 1, requesterMap at 1. simpl.
      destruct (decide (key = key0)) as [->|Hk].
      - by rewrite lookup_insert_eq.
      - by rewrite lookup_insert_ne. }
    split; [|split; [|split]]; simpl.
    + intros key. rewrite Hreq. destruct (decide (key = key0)); [|apply Hnd].
      apply NoDup_app. split; [apply Hnd|]. split; [|apply NoDup_singleton].
      intros x Hx ->%list_elem_of_singleton. apply Hold in Hx. lia.
    + intros key id. rewrite Hreq. split.
      * destruct (decide (key = key0)) as [->|Hk].
        -- intros [Hin| ->%list_elem_of_singleton]%elem_of_app.
           ++ apply Hex in Hin as (c & Hc & ?). exists c. split; [|done].
              by apply lookup_app_l_Some.
           ++ eexists. split.
              ** rewrite lookup_app_r by lia. by rewrite Nat.sub_diag.
              ** done.
        -- intros (c & Hc & ?)%Hex. exists c. split; [|done].
           by apply lookup_app_l_Some.
      * intros (c & Hc & Hk & Hp).
        apply lookup_app_Some in Hc as [Hc|[Hlen Hc]].
        -- assert (Hin : id ∈ requestersOf (source w) key).
           { apply Hex. by exists c. }
           destruct (decide (key = key0)) as [->|]; [|done].
           apply elem_of_app. by left.
        -- apply list_lookup_singleton_Some in Hc as [Hid <-].
           simpl in Hk. subst key. rewrite decide_True by done.
           apply elem_of_app. right. apply list_elem_of_singleton. lia.
    + intros key ids. unfold requesterMap at 1. simpl.
      intros [[_ <-]|[_ Hl]]%lookup_insert_Some.
      * by destruct (requestersOf (source w) key0).
      * by eapply Hne.
    + intros [= Hm].
      apply (f_equal (fun m : gmap string (list nat) => m !! key0)) in Hm.
      by rewrite lookup_insert_eq, lookup_empty in Hm.
Qed.

Lemma waitersExact_step (w : World'') (ev : Event Payload T RpcError) :
  waitersExact w → waitersExact (step SYSTEM_MEMORY w ev).
Proof.
  intros Hw. destruct ev as [pos tr|id|id e|id|x]; simpl.
  - by apply waitersExact_fetchChunk.
  - unfold rpcResolved. destruct (calls w !! id) as [c|] eqn:Hc; [|done].
    destruct (status c) eqn:Hs; try done.
    apply (waitersExact_calls w); [done| |done].
    intros key id'. unfold setCall. simpl.
    destruct (decide (id' = id)) as [->|Hne].
    + rewrite list_lookup_insert_eq by (by eapply lookup_lt_Some).
      rewrite Hc. split.
      * intros (c0 & [= <-] & Hk & _). exists c. simpl in Hk.
        unfold isPending. by rewrite Hs.
      * intros (c0 & [= <-] & Hk & _). by eexists.
    + by rewrite list_lookup_insert_ne.
  - unfold rpcRejected. destruct (calls w !! id) as [c|] eqn:Hc; [|done].
    destruct (status c) eqn:Hs; try done.
    apply waitersExact_settle; [done|done|]. unfold isPending. by rewrite Hs.
  - unfold resume. destruct (calls w !! id) as [c|] eqn:Hc; [|done].
    destruct (status c) eqn:Hs; try done.
    destruct (promise c); [|done].
    apply waitersExact_settle; [done|done|]. unfold isPending. by rewrite Hs.
  - unfold chunkReady. simpl.
    match goal with
    | |- waitersExact (fold_left (invokeRequester ?ch) ?ids ?w0) =>
        pose proof (invokeAll_source ch ids w0) as (Hsrc & _ & Hlen);
        pose proof (invokeAll_call ch ids w0) as Hcall;
        set (w1 := fold_left (invokeRequester ch) ids w0) in *
    end.
    simpl in *.
    apply (waitersExact_calls w); [by rewrite Hsrc| |done].
    intros key id. split.
    + intros (c' & Hc' & Hk & Hp).
      assert (Hlt : (id < length (calls w))%nat).
      { rewrite <- Hlen. by eapply lookup_lt_Some. }
      destruct (lookup_lt_is_Some_2 _ _ Hlt) as [c Hc].
      destruct (Hcall id c Hc) as (c1 & Hc1 & Hk1 & _ & Hs1 & _).
      exists c. split; [done|].
      assert (c1 = c') as -> by congruence.
      unfold isPending in *. rewrite <- Hs1, <- Hk1. done.
    + intros (c & Hc & Hk & Hp).
      destruct (Hcall id c Hc) as (c1 & Hc1 & Hk1 & _ & Hs1 & _).
      exists c1. split; [done|].
      unfold isPending in *. rewrite Hs1, Hk1. done.
Qed.

Lemma waitersExact_run (events : list (Event Payload T RpcError)) :
  ∀ w : World'', waitersExact w → waitersExact (run SYSTEM_MEMORY w events).
Proof.
  induction events as [|ev events IH]; intros w Hw; [done|].
  unfold run in *. simpl. by apply IH, waitersExact_step.
Qed.

Lemma waitersExact_empty (rpcId0 : option Z) :
  waitersExact (emptyWorld (Payload := Payload) (T := T) (RpcError := RpcError)
                  rpcId0).
Proof.
  split; [|split; [|split]]; simpl; try done.
  - intros key. apply NoDup_nil_2.
  - intros key id. split.
    + by intros ?%elem_of_nil.
    + by intros (c & ? & _).
Qed.

(** X20.  Started idle, a chunk source keeps its requester arrays exact
    whatever happens: the array of a key holds, once each, the numbers of the
    calls for that key that have not settled, no array is empty and no empty
    map is kept.  So a call that returned or threw has left no requester
    behind, [indexOf] in the [finally] block always finds the requester of
    its own call, and when no call is in flight [chunkRequesters] is
    [undefined] again. *)
Theorem fetchChunk_requesters_are_the_calls_in_flight
    (rpcId0 : option Z) (events : list (Event Payload T RpcError)) :
  let w := run SYSTEM_MEMORY (emptyWorld (T := T) rpcId0) events in
  waitersExact w
  ∧ (∀ id c, calls w !! id = Some c → isPending c = false →
       ∀ key, id ∉ requestersOf (source w) key)
  ∧ (∀ id c, calls w !! id = Some c → isPending c = true →
       ∃ i, list_find (fun r => r = id) (requestersOf (source w) (callKey c))
            = Some (i, id))
  ∧ (pendingCalls (calls w) = 0 → chunkRequesters (source w) = None).
Proof.
  intros w.
  assert (Hw : waitersExact w).
  { apply waitersExact_run, waitersExact_empty. }
  split; [done|]. destruct Hw as (Hnd & Hex & Hne & Hmap).
  split; [|split].
  - intros id c Hc Hp key (c' & Hc' & _ & Hp')%Hex. congruence.
  - intros id c Hc Hp.
    assert (Hin : id ∈ requestersOf (source w) (callKey c)).
    { apply Hex. by exists c. }
    destruct (list_find (fun r => r = id) (requestersOf (source w) (callKey c)))
      as [[i y]|] eqn:Hf.
    + apply list_find_Some in Hf as Hf'. destruct Hf' as (_ & -> & _).
      by exists i.
    + apply list_find_None in Hf. rewrite Forall_forall in Hf.
      by destruct (Hf id Hin).
  - intros Hzero.
    destruct (chunkRequesters (source w)) as [m|] eqn:Hm; [|done].
    exfalso.
    destruct (map_choose_or_empty m) as [(key & ids & Hl)|Hem];
      [|by subst m].
    assert (Hl' : requesterMap (source w) !! key = Some ids).
    { unfold requesterMap. by rewrite Hm. }
    pose proof (Hne key ids Hl') as Hnil.
    destruct ids as [|id ids]; [done|].
    assert (Hin : id ∈ requestersOf (source w) key).
    { unfold requestersOf. rewrite Hl'. simpl. by left. }
    apply Hex in Hin as (c & Hc & _ & Hp).
    clear -Hc Hp Hzero. unfold pendingCalls in Hzero.
    assert (Hcin : c ∈ List.filter isPending (calls w)).
    { apply list_elem_of_In, filter_In. split; [|done].
      apply list_elem_of_In. by eapply list_elem_of_lookup_2. }
    destruct (List.filter isPending (calls w)); [|simpl in Hzero; lia].
    by apply elem_of_nil in Hcin.
Qed.

End WaitersFacts.

(** ** datasource/index.ts *)

Section StringFacts.

Import DataSource.

Lemma append_String (c : ascii) (a b : string) :
  String c a +:+ b = String c (a +:+ b).
Proof. reflexivity. Qed.

Lemma append_empty (b : string) : EmptyString +:+ b = b.
Proof. reflexivity. Qed.

Lemma span_eq (p : ascii -> bool) (s : string) :
  ∀ a b, span p s = (a, b) →
    s = a +:+ b ∧ allChars p a = true
    ∧ match b with String c _ => p c = false | EmptyString => True end.
Proof.
  induction s as [|c s IH]; intros a b; simpl.
  - by intros [= <- <-].
  - destruct (p c) eqn:Hc.
    + destruct (span p s) as [a' b']. intros [= <- <-].
      destruct (IH a' b' eq_refl) as (-> & Ha & Hb). simpl.
      by rewrite Hc, Ha.
    + intros [= <- <-]. simpl. by rewrite Hc.
Qed.

Lemma span_app (p : ascii -> bool) (a b : string) :
  allChars p a = true →
  match b with String c _ => p c = false | EmptyString => True end →
  span p (a +:+ b) = (a, b).
Proof.
  intros Ha Hb. induction a as [|c a IH]; simpl in *.
  - destruct b as [|c b]; [done|]. simpl. by rewrite Hb.
  - apply andb_true_iff in Ha as [-> Ha]. by rewrite IH.
Qed.

Lemma prefix_dropString (a : string) :
  ∀ s, String.prefix a s = true → s = a +:+ dropString (String.length a) s.
Proof.
  induction a as [|c a IH]; intros [|d s]; simpl; try done.
  destruct (ascii_dec c d) as [->|]; [|done].
  intros Hp. rewrite append_String. f_equal. by apply IH.
Qed.

Lemma prefix_app (a s : string) : String.prefix a (a +:+ s) = true.
Proof.
  induction a as [|c a IH]; simpl; [by destruct s|].
  by destruct (ascii_dec c c).
Qed.

Lemma dropString_app (a s : string) : dropString (String.length a) (a +:+ s) = s.
Proof. induction a as [|c a IH]; simpl; [by destruct s|done]. Qed.

Lemma dropString_ge (n : nat) :
  ∀ s, (String.length s ≤ n)%nat → dropString n s = EmptyString.
Proof.
  induction n as [|n IH]; intros [|c s] Hle; simpl in *; try done; try lia.
  apply IH. lia.
Qed.

Lemma dropString_length (n : nat) :
  ∀ s, String.length (dropString n s) = (String.length s - n)%nat.
Proof. induction n as [|n IH]; intros [|c s]; simpl; try done; lia. Qed.

Lemma substring_all (s : string) : String.substring 0 (String.length s) s = s.
Proof. induction s as [|c s IH]; simpl; [done|]. by rewrite IH. Qed.

Lemma substring_dropString (n : nat) :
  ∀ s, String.substring n (String.length s - n) s = dropString n s.
Proof.
  induction n as [|n IH]; intros s.
  - rewrite Nat.sub_0_r. simpl. apply substring_all.
  - destruct s as [|c s]; simpl; [done|]. apply IH.
Qed.

Lemma substring_none (n : nat) : ∀ s, String.substring n 0 s = EmptyString.
Proof. induction n as [|n IH]; intros [|c s]; simpl; done. Qed.

Lemma substring_from (s : string) (n : nat) :
  substring s (Z.of_nat n) None = dropString n s.
Proof.
  unfold substring.
  destruct (decide (n ≤ String.length s)%nat) as [Hle|Hgt].
  - replace (Z.min (Z.max 0 (Z.min (Z.of_nat n) (Z.of_nat (String.length s))))
               (Z.of_nat (String.length s))) with (Z.of_nat n) by lia.
    replace (Z.max (Z.max 0 (Z.min (Z.of_nat n) (Z.of_nat (String.length s))))
               (Z.of_nat (String.length s))) with (Z.of_nat (String.length s))
      by lia.
    rewrite Nat2Z.id, <- Nat2Z.inj_sub, Nat2Z.id by done.
    apply substring_dropString.
  - replace (Z.min (Z.max 0 (Z.min (Z.of_nat n) (Z.of_nat (String.length s))))
               (Z.of_nat (String.length s))) with (Z.of_nat (String.length s))
      by lia.
    replace (Z.max (Z.max 0 (Z.min (Z.of_nat n) (Z.of_nat (String.length s))))
               (Z.of_nat (String.length s))) with (Z.of_nat (String.length s))
      by lia.
    rewrite Nat2Z.id, Z.sub_diag. simpl.
    rewrite dropString_ge by lia. apply substring_none.
Qed.

Lemma take_dropString (n : nat) :
  ∀ s, String.substring 0 n s +:+ dropString n s = s.
Proof.
  induction n as [|n IH]; intros [|c s]; simpl; try done.
  rewrite append_String. by rewrite IH.
Qed.

Lemma substring_to (s : string) (n : nat) :
  substring s 0 (Some (Z.of_nat n)) = String.substring 0 n s.
Proof.
  unfold substring.
  replace (Z.min (Z.max 0 (Z.min 0 (Z.of_nat (String.length s))))
             (Z.max 0 (Z.min (Z.of_nat n) (Z.of_nat (String.length s)))))
    with 0 by lia.
  rewrite Z.sub_0_r. simpl.
  replace (Z.max (Z.max 0 (Z.min 0 (Z.of_nat (String.length s))))
             (Z.max 0 (Z.min (Z.of_nat n) (Z.of_nat (String.length s)))))
    with (Z.of_nat (Nat.min n (String.length s))) by lia.
  rewrite Nat2Z.id. clear.
  revert n. induction s as [|c s IH]; intros [|n]; simpl; try done.
  by rewrite IH.
Qed.

Lemma dotStar_app (a b : string) :
  dotStar (a +:+ b) = dotStar a && dotStar b.
Proof.
  induction a as [|c a IH]; simpl; [done|].
  rewrite IH. by destruct (isLineTerminator c).
Qed.

Lemma allChars_dotStar (s : string) :
  allChars isProtocolChar s = true → dotStar s = true.
Proof.
  induction s as [|c s IH]; simpl; [done|].
  intros [Hc Hs]%andb_true_iff. rewrite IH by done.
  rewrite andb_true_r. apply negb_true_iff.
  destruct (isLineTerminator c) eqn:Hl; [|done].
  exfalso. revert Hc Hl. clear.
  unfold isProtocolChar, isLetter, inRange, isLineTerminator.
  destruct c as [[] [] [] [] [] [] [] []]; by vm_compute.
Qed.

Lemma isLetter_protocolChar (c : ascii) :
  isLetter c = true → isProtocolChar c = true.
Proof. unfold isProtocolChar. by intros ->. Qed.

(** The pattern captures a name exactly for the strings that are a name,
    a colon, two slashes and a rest without line terminator. *)
Lemma protocolPattern_name (url name rest : string) :
  protocolPattern url = Some (Some name, rest)
  ↔ url = name +:+ "://" +:+ rest
    ∧ isProtocolName name = true ∧ dotStar rest = true.
Proof.
  split.
  - unfold protocolPattern.
    assert (Hskip : ∀ u : string,
              (if dotStar u then Some (None, u) else None)
              ≠ Some (Some name, rest)).
    { intros u. by destruct (dotStar u). }
    destruct url as [|c url']; [by intros ?%Hskip|].
    destruct (isLetter c) eqn:Hc; [|by intros ?%Hskip].
    destruct (span isProtocolChar (String c url')) as [a b] eqn:Hspan.
    destruct (String.prefix "://" b) eqn:Hpre; [|by intros ?%Hskip].
    destruct (dotStar (substring b 3 None)) eqn:Hdot; [|by intros ?%Hskip].
    intros [= <- <-].
    apply span_eq in Hspan as (Hurl & Ha & _).
    apply prefix_dropString in Hpre. simpl in Hpre.
    change 3 with (Z.of_nat 3) in *. rewrite substring_from in *.
    rewrite Hurl. rewrite Hpre at 1. split; [done|]. split; [|done].
    destruct a as [|c' a].
    + rewrite append_empty in Hurl. rewrite Hpre in Hurl.
      injection Hurl as -> _. by vm_compute in Hc.
    + rewrite append_String in Hurl. injection Hurl as <- _. simpl in *.
      apply andb_true_iff in Ha as [_ Ha]. by rewrite Hc, Ha.
  - intros (-> & Hname & Hdot). unfold protocolPattern.
    destruct name as [|c name]; [done|]. simpl in Hname.
    apply andb_true_iff in Hname as [Hc Hname].
    rewrite append_String, Hc, <- append_String.
    rewrite span_app.
    + rewrite prefix_app.
      change 3 with (Z.of_nat (String.length "://")).
      rewrite substring_from, dropString_app. by rewrite Hdot.
    + simpl. by rewrite isLetter_protocolChar, Hname.
    + done.
Qed.

Lemma protocolPattern_skip (u : string) :
  ∀ r, (if dotStar u then Some (None, u) else None)
       = Some (@None string, r) → r = u ∧ dotStar u = true.
Proof. intros r. destruct (dotStar u); [by intros [= <-]|done]. Qed.

Lemma protocolPattern_skipped (url rest : string) :
  protocolPattern url = Some (None, rest) → rest = url ∧ dotStar url = true.
Proof.
  unfold protocolPattern.
  destruct url as [|c url']; [apply protocolPattern_skip|].
  destruct (isLetter c); [|apply protocolPattern_skip].
  destruct (span _ _) as [a b].
  destruct (String.prefix _ _); [|apply protocolPattern_skip].
  destruct (dotStar (substring b 3 None)); [done|apply protocolPattern_skip].
Qed.

Lemma protocolName_dotStar (name : string) :
  isProtocolName name = true → dotStar name = true.
Proof.
  destruct name as [|c name]; [done|]. simpl.
  intros [Hc Hname]%andb_true_iff.
  apply (allChars_dotStar (String c name)). simpl.
  by rewrite isLetter_protocolChar, Hname.
Qed.

Lemma protocolPattern_null (url : string) :
  protocolPattern url = None ↔ dotStar url = false.
Proof.
  split.
  - intros Hm. destruct (dotStar url) eqn:Hdot; [|done].
    unfold protocolPattern in Hm. rewrite Hdot in Hm.
    destruct url as [|c url']; [done|].
    destruct (isLetter c); [|done].
    destruct (span _ _) as [a b]. destruct (String.prefix _ _); [|done].
    by destruct (dotStar (substring b 3 None)).
  - intros Hdot.
    destruct (protocolPattern url) as [[[name|] rest]|] eqn:Hm; [| |done].
    + apply protocolPattern_name in Hm as (-> & Hname & Hrest).
      rewrite !dotStar_app, Hrest in Hdot.
      by rewrite (protocolName_dotStar _ Hname) in Hdot.
    + apply protocolPattern_skipped in Hm as [_ Hm]. congruence.
Qed.


(** *** Occurrences of a search string *)

Lemma dropString_S (k : nat) (c : ascii) (s : string) :
  dropString (S k) (String c s) = dropString k s.
Proof. reflexivity. Qed.

Lemma dropString_dropString (a : nat) :
  ∀ b s, dropString a (dropString b s) = dropString (b + a) s.
Proof.
  intros b. induction b as [|b IH]; intros s; [done|].
  destruct s as [|c s]; simpl; [by destruct a|]. apply IH.
Qed.

Lemma lastIndexOfFrom_spec (search : string) (s : string) :
  ∀ i,
    match lastIndexOfFrom search s i with
    | Some j =>
        ∃ k, j = (i + k)%nat ∧ (k ≤ String.length s)%nat
          ∧ String.prefix search (dropString k s) = true
          ∧ ∀ k', (k < k' ≤ String.length s)%nat →
                  String.prefix search (dropString k' s) = false
    | None =>
        ∀ k, (k ≤ String.length s)%nat →
             String.prefix search (dropString k s) = false
    end.
Proof.
  induction s as [|c s IH]; intros i.
  - cbn [lastIndexOfFrom].
    destruct (String.prefix search EmptyString) eqn:Hp.
    + exists 0%nat. repeat split; try done; try lia. simpl. lia.
    + intros k Hk. simpl in Hk. by replace k with 0%nat by lia.
  - cbn [lastIndexOfFrom]. specialize (IH (S i)).
    destruct (lastIndexOfFrom search s (S i)) as [j|].
    + destruct IH as (k & -> & Hk & Hp & Hlast).
      exists (S k). repeat split; try done; try (simpl; lia).
      intros [|k'] Hk'; [lia|]. rewrite dropString_S. apply Hlast.
      simpl in Hk'. lia.
    + destruct (String.prefix search (String c s)) eqn:Hp.
      * exists 0%nat. repeat split; try done; try lia.
        intros [|k'] Hk'; [lia|]. rewrite dropString_S. apply IH.
        simpl in Hk'. lia.
      * intros [|k] Hk; [done|]. rewrite dropString_S. apply IH.
        simpl in Hk. lia.
Qed.

Lemma indexOfFrom_none (search : string) (s : string) :
  ∀ i,
    (∀ k, (k ≤ String.length s)%nat →
          String.prefix search (dropString k s) = false) →
    indexOfFrom search s i = None.
Proof.
  induction s as [|c s IH]; intros i Hno.
  - pose proof (Hno 0%nat ltac:(done)) as H0. simpl in *. by rewrite H0.
  - pose proof (Hno 0%nat ltac:(lia)) as H0. cbn [indexOfFrom].
    cbn [dropString] in H0. rewrite H0. apply IH.
    intros k Hk. apply (Hno (S k)). simpl. lia.
Qed.

Lemma prefix_empty (s : string) : String.prefix EmptyString s = true.
Proof. by destruct s. Qed.

Lemma substring_shift (k m : nat) :
  ∀ s, String.substring k m s = String.substring 0 m (dropString k s).
Proof.
  induction k as [|k IH]; intros s; [done|].
  destruct s as [|c s]; simpl; [by destruct m|]. apply IH.
Qed.

Lemma substring_range (s : string) (a b : nat) :
  (a ≤ b ≤ String.length s)%nat →
  substring s (Z.of_nat a) (Some (Z.of_nat b)) = String.substring a (b - a) s.
Proof.
  intros Hab. unfold substring.
  replace (Z.max 0 (Z.min (Z.of_nat a) (Z.of_nat (String.length s))))
    with (Z.of_nat a) by lia.
  replace (Z.max 0 (Z.min (Z.of_nat b) (Z.of_nat (String.length s))))
    with (Z.of_nat b) by lia.
  rewrite Z.min_l, Z.max_r by lia.
  by rewrite Nat2Z.id, <- Nat2Z.inj_sub, Nat2Z.id by lia.
Qed.

End StringFacts.

Section SeparatorFacts.

Import DataSource.

(** The separator that [findSourceGroupBasedOnSeparator] uses. *)
Lemma findSourceGroup_cases (path sep : string) :
  match lastIndexOfFrom sep path 0 with
  | Some k =>
      lastIndexOf path sep = Z.of_nat k
      ∧ (k ≤ String.length path)%nat
      ∧ String.prefix sep (dropString k path) = true
      ∧ ∀ k', (k < k' ≤ String.length path)%nat →
              String.prefix sep (dropString k' path) = false
  | None =>
      lastIndexOf path sep = -1
      ∧ ∀ k, (k ≤ String.length path)%nat →
             String.prefix sep (dropString k path) = false
  end.
Proof.
  unfold lastIndexOf. pose proof (lastIndexOfFrom_spec sep path 0) as Hspec.
  destruct (lastIndexOfFrom sep path 0) as [j|]; [|done].
  destruct Hspec as (k & -> & Hk & Hp & Hlast). done.
Qed.

(** X21.  [findSourceGroupBasedOnSeparator] and
    [suggestLayerNameBasedOnSeparator] split the path: the prefix of the
    length that the first returns, followed by the name that the second
    returns, is the path.  The length is 0 exactly when the separator does
    not occur, and then the name is the whole path.  Otherwise, for a
    separator of one character, as the guessed separators are, the prefix
    ends with the separator and the name does not contain it. *)
Theorem separator_splits_path (path : string) (separator : option string) :
  let sep :=
    match separator with
    | Some separator => separator
    | None => if decide (indexOf path "/" = -1) then ":" else "/"
    end in
  let group := findSourceGroupBasedOnSeparator path separator in
  let name := suggestLayerNameBasedOnSeparator path separator in
  0 <= group <= Z.of_nat (String.length path) + 1
  ∧ substring path 0 (Some group) +:+ name = path
  ∧ (group = 0 ↔ lastIndexOf path sep = -1)
  ∧ (group = 0 → name = path)
  ∧ (group ≠ 0 → String.length sep = 1%nat →
     substring path (group - 1) (Some group) = sep
     ∧ indexOf name sep = -1).
Proof.
  intros sep group name.
  assert (Hgroup : group = if decide (lastIndexOf path sep = -1) then 0
                           else lastIndexOf path sep + 1) by done.
  assert (Hname : name = substring path group None) by done.
  clearbody group name sep.
  pose proof (findSourceGroup_cases path sep) as Hcases.
  destruct (lastIndexOfFrom sep path 0) as [k|].
  - destruct Hcases as (Hlast & Hk & Hp & Hafter).
    rewrite Hlast in Hgroup. rewrite decide_False in Hgroup by lia.
    replace group with (Z.of_nat (S k)) in * by lia. clear Hgroup.
    rewrite substring_from in Hname. subst name.
    split; [lia|]. split; [by rewrite substring_to, take_dropString|].
    split; [lia|]. split; [lia|]. intros _ Hlen.
    destruct sep as [|c [|d sep]]; try done.
    assert (Hlt : (k < String.length path)%nat).
    { destruct (decide (k < String.length path)%nat); [done|].
      rewrite dropString_ge in Hp by lia. done. }
    split.
    + replace (Z.of_nat (S k) - 1) with (Z.of_nat k) by lia.
      rewrite substring_range by lia.
      replace (S k - k)%nat with 1%nat by lia.
      rewrite substring_shift.
      destruct (dropString k path) as [|c' rest]; [done|]. simpl in Hp.
      destruct (ascii_dec c c') as [->|]; [|done]. simpl. by destruct rest.
    + unfold indexOf. rewrite indexOfFrom_none; [done|].
      intros k' Hk'. rewrite dropString_dropString.
      rewrite dropString_length in Hk'. apply Hafter. lia.
  - destruct Hcases as (Hlast & Hno).
    rewrite Hlast in Hgroup. rewrite decide_True in Hgroup by done.
    subst group. change 0 with (Z.of_nat 0) in Hname.
    rewrite substring_from in Hname. simpl in Hname. subst name.
    split; [lia|]. split.
    { change (Some 0) with (Some (Z.of_nat 0)). rewrite substring_to.
      apply (take_dropString 0). }
    split; [done|]. split; done.
Qed.

End SeparatorFacts.

Section RegistryFacts.

Import DataSource.

Lemma mapGet_mapSet {V : Type} (m : list (string * V)) (key key' : string)
    (value : V) :
  mapGet (mapSet m key value) key'
  = if decide (key' = key) then Some value else mapGet m key'.
Proof.
  destruct (decide (key' = key)) as [->|Hne].
  - induction m as [|[k v] m IH]; simpl.
    + by rewrite decide_True.
    + destruct (decide (k = key)) as [->|Hk]; simpl.
      * by rewrite decide_True.
      * by rewrite decide_False.
  - induction m as [|[k v] m IH]; simpl.
    + by rewrite decide_False.
    + destruct (decide (k = key)) as [->|Hk]; simpl.
      * by rewrite !decide_False.
      * by rewrite IH.
Qed.

Lemma mapSet_keys {V : Type} (m : list (string * V)) (key : string)
    (value : V) :
  (mapSet m key value).*1
  = if decide (key ∈ m.*1) then m.*1 else m.*1 ++ [key].
Proof.
  induction m as [|[k v] m IH].
  - done.
  - cbn [mapSet]. destruct (decide (k = key)) as [->|Hk].
    + rewrite !fmap_cons. cbn [fst]. by rewrite decide_True by left.
    + rewrite !fmap_cons, IH. cbn [fst].
      destruct (decide (key ∈ m.*1)) as [Hin|Hnotin].
      * by rewrite decide_True by (by right).
      * rewrite decide_False; [done|].
        intros [?|?]%elem_of_cons; done.
Qed.

Lemma getProvider_Return (this : DataSourceProviderRegistry)
    (url providerUrl protocol : string) (p : DataSourceProvider) :
  getProvider this url = Return (p, providerUrl, protocol)
  ↔ url = protocol +:+ "://" +:+ providerUrl
    ∧ isProtocolName protocol = true ∧ dotStar providerUrl = true
    ∧ mapGet (dataSources this) protocol = Some p.
Proof.
  unfold getProvider. split.
  - destruct (protocolPattern url) as [[[name|] rest]|] eqn:Hm; try done.
    apply protocolPattern_name in Hm as (-> & Hname & Hrest).
    destruct (mapGet (dataSources this) name) as [factory|] eqn:Hget; [|done].
    by intros [= <- <- <-].
  - intros (Hurl & Hname & Hrest & Hget).
    assert (Hm : protocolPattern url = Some (Some protocol, providerUrl)).
    { by apply protocolPattern_name. }
    by rewrite Hm, Hget.
Qed.

(** X22.  [getProvider] returns a provider exactly for the URLs that are a
    protocol name, a colon, two slashes and a rest without line terminator,
    where the name is registered: it returns the provider registered under
    the name, the rest and the name, so that the URL can be put together
    again from what is returned.  Every other URL makes it throw one of its
    two errors, the second only for a well-formed URL whose protocol is not
    registered. *)
Theorem getProvider_outcomes (this : DataSourceProviderRegistry) (url : string) :
  (∀ p providerUrl protocol,
     getProvider this url = Return (p, providerUrl, protocol)
     ↔ url = protocol +:+ "://" +:+ providerUrl
       ∧ isProtocolName protocol = true ∧ dotStar providerUrl = true
       ∧ mapGet (dataSources this) protocol = Some p)
  ∧ (∀ e, getProvider this url = Throw e →
       e = Error formMessage
       ∨ ∃ protocol providerUrl,
           url = protocol +:+ "://" +:+ providerUrl
           ∧ isProtocolName protocol = true
           ∧ mapGet (dataSources this) protocol = None
           ∧ e = Error (unsupportedMessage protocol)).
Proof.
  split; [intros p providerUrl protocol; apply getProvider_Return|].
  intros e. unfold getProvider.
  destruct (protocolPattern url) as [[[name|] rest]|] eqn:Hm;
    [|intros [= <-]; by left..].
  apply protocolPattern_name in Hm as (-> & Hname & Hrest).
  destruct (mapGet (dataSources this) name) as [factory|] eqn:Hget; [done|].
  intros [= <-]. right. by exists name, rest.
Qed.

(** X23.  [register] files the provider under the name: afterwards
    [getProvider] returns it for every well-formed URL of that protocol,
    whatever was registered under the name before, and behaves as before on
    every URL that does not start with the name, a colon and two slashes.
    The names keep their order, and a new name goes to the end. *)
Theorem register_getProvider (this : DataSourceProviderRegistry)
    (name : string) (dataSource : DataSourceProvider) :
  (∀ path, isProtocolName name = true → dotStar path = true →
     getProvider (register this name dataSource) (name +:+ "://" +:+ path)
     = Return (dataSource, path, name))
  ∧ (∀ url, (∀ path, url ≠ name +:+ "://" +:+ path) →
       getProvider (register this name dataSource) url = getProvider this url)
  ∧ (dataSources (register this name dataSource)).*1
    = if decide (name ∈ (dataSources this).*1) then (dataSources this).*1
      else (dataSources this).*1 ++ [name].
Proof.
  split; [|split].
  - intros path Hname Hpath. apply getProvider_Return.
    repeat split; try done. simpl. rewrite mapGet_mapSet.
    by rewrite decide_True.
  - intros url Hother. unfold getProvider.
    destruct (protocolPattern url) as [[[protocol|] rest]|] eqn:Hm; try done.
    apply protocolPattern_name in Hm as (-> & _ & _).
    simpl. rewrite mapGet_mapSet. rewrite decide_False; [done|].
    intros ->. by apply (Hother rest).
  - apply mapSet_keys.
Qed.

Section WithCompare.

Variable defaultStringCompare : string -> string -> Z.

Lemma getPrefixMatchesWithDescriptions_unfold {T : Type}
    (prefix : string) (options : list T)
    (getValue : T -> string) (getDescription : T -> option string) :
  Completion.getPrefixMatchesWithDescriptions defaultStringCompare prefix
    options getValue getDescription
  = sort (fun a b =>
            defaultStringCompare (Completion.valueD a) (Completion.valueD b))
      ((fun option =>
          {| Completion.valueD := getValue option;
             Completion.description := getDescription option |})
         <$> List.filter (fun option => String.prefix prefix (getValue option))
               options).
Proof.
  unfold Completion.getPrefixMatchesWithDescriptions, Completion.startsWith.
  by rewrite (push_loop_filter (fun o => String.prefix prefix (getValue o))
                (fun o => {| Completion.valueD := getValue o;
                             Completion.description := getDescription o |})).
Qed.

(** X24.  [completeUrl] on a URL with a line terminator is rejected with the
    [TypeError] of reading the missing match; on a URL that starts with a
    protocol name, a colon and two slashes it is rejected with [null]; and
    when it is fulfilled the URL is neither of the two, the offset is 0 and
    the completions are, rearranged, one per registered name whose
    [name://] starts with the URL, with the description of its provider. *)
Theorem completeUrl_outcomes (this : DataSourceProviderRegistry) (url : string) :
  (dotStar url = false →
   completeUrl defaultStringCompare this url = Throw TypeError)
  ∧ (∀ protocol providerUrl,
       url = protocol +:+ "://" +:+ providerUrl →
       isProtocolName protocol = true → dotStar providerUrl = true →
       completeUrl defaultStringCompare this url = Throw ThrownNull)
  ∧ (∀ result,
       completeUrl defaultStringCompare this url = Return result →
       offset result = 0
       ∧ Permutation (completions result)
           ((fun entry =>
               {| Completion.valueD := fst entry +:+ "://";
                  Completion.description := description (snd entry) |})
              <$> List.filter
                    (fun entry => String.prefix url (fst entry +:+ "://"))
                    (dataSources this))
       ∧ dotStar url = true
       ∧ ∀ protocol providerUrl,
           isProtocolName protocol = true →
           url ≠ protocol +:+ "://" +:+ providerUrl).
Proof.
  unfold completeUrl. split; [|split].
  - intros Hdot%protocolPattern_null. by rewrite Hdot.
  - intros protocol providerUrl Hurl Hname Hrest.
    assert (Hm : protocolPattern url = Some (Some protocol, providerUrl)).
    { by apply protocolPattern_name. }
    by rewrite Hm.
  - intros result.
    destruct (protocolPattern url) as [[[name|] rest]|] eqn:Hm; try done.
    intros [= <-]. simpl.
    apply protocolPattern_skipped in Hm as Hskip. destruct Hskip as [-> Hdot].
    split; [done|]. split.
    { rewrite getPrefixMatchesWithDescriptions_unfold. apply sort_perm. }
    split; [done|].
    intros protocol providerUrl Hname ->.
    rewrite !dotStar_app in Hdot.
    apply andb_true_iff in Hdot as [_ [_ Hrest]%andb_true_iff].
    assert (Hm' : protocolPattern (protocol +:+ "://" +:+ providerUrl)
                  = Some (Some protocol, providerUrl)).
    { by apply protocolPattern_name. }
    congruence.
Qed.

End WithCompare.

Lemma substring_0_app (a : string) :
  ∀ (n : nat) (b : string),
    String.substring 0 (String.length a + n) (a +:+ b)
    = a +:+ String.substring 0 n b.
Proof.
  induction a as [|c a IH]; intros n b; [done|].
  rewrite !append_String. simpl. by rewrite IH.
Qed.

Lemma length_append (a b : string) :
  String.length (a +:+ b) = (String.length a + String.length b)%nat.
Proof. induction a as [|c a IH]; [done|]. rewrite append_String. simpl. lia. Qed.

Lemma indexOfFrom_occurs (search : string) (n : nat) :
  ∀ s i, String.prefix search (dropString n s) = true →
         (n ≤ String.length s)%nat →
         indexOfFrom search s i ≠ None.
Proof.
  induction n as [|n IH]; intros s i Hp Hn.
  - destruct s as [|c s]; simpl in *; by rewrite Hp.
  - destruct s as [|c s]; [simpl in Hn; lia|]. cbn [indexOfFrom].
    destruct (String.prefix search (String c s)); [done|].
    apply IH; [done|]. simpl in Hn. lia.
Qed.

Lemma endsWith_slash (path : string) :
  endsWith path "/" = true →
  (1 ≤ String.length path)%nat
  ∧ String.prefix "/" (dropString (String.length path - 1) path) = true
  ∧ indexOf path "/" ≠ -1.
Proof.
  unfold endsWith. intros [Hl He]%andb_true_iff.
  apply Nat.leb_le in Hl. simpl in Hl, He.
  apply String.eqb_eq in He. rewrite substring_shift in He.
  assert (Hpre : String.prefix "/"
                   (dropString (String.length path - 1) path) = true).
  { destruct (dropString (String.length path - 1) path) as [|c rest];
      [done|]. simpl in He. injection He as -> _. by destruct rest. }
  split; [done|]. split; [done|].
  unfold indexOf.
  pose proof (indexOfFrom_occurs "/" _ path 0%nat Hpre ltac:(lia)) as Hocc.
  destruct (indexOfFrom "/" path 0); [lia|done].
Qed.

Lemma append_assoc (a b c : string) : (a +:+ b) +:+ c = a +:+ b +:+ c.
Proof. induction a as [|x a IH]; [done|]. by rewrite !append_String, IH. Qed.

(** The prefix of a URL that reaches [n] characters into its path. *)
Lemma url_prefix (protocol path : string) (n : nat) :
  substring (protocol +:+ "://" +:+ path) 0
    (Some (Z.of_nat n + Z.of_nat (String.length protocol) + 3))
  +:+ dropString n path
  = protocol +:+ "://" +:+ path.
Proof.
  replace (Z.of_nat n + Z.of_nat (String.length protocol) + 3)
    with (Z.of_nat (String.length (protocol +:+ "://") + n)).
  2: { rewrite length_append. simpl. lia. }
  rewrite substring_to, <- (append_assoc protocol "://" path).
  rewrite substring_0_app, !append_assoc.
  by rewrite take_dropString.
Qed.

(** X25.  For a URL whose provider leaves the two helpers to the registry:
    when the path does not end with a slash, [findSourceGroup] and
    [suggestLayerName] split the URL, the protocol and its colon and
    slashes lying in the group; when the path ends with a slash,
    [findSourceGroup] returns the length of the whole URL. *)
Theorem registry_splits_url (this : DataSourceProviderRegistry)
    (url path protocol : string) (p : DataSourceProvider) :
  getProvider this url = Return (p, path, protocol) →
  findSourceGroup_ p = None → suggestLayerName_ p = None →
  ∃ group,
    findSourceGroup this url = Return group
    ∧ Z.of_nat (String.length protocol) + 3 <= group
      <= Z.of_nat (String.length url)
    ∧ (endsWith path "/" = true → group = Z.of_nat (String.length url))
    ∧ (endsWith path "/" = false →
       ∃ name,
         suggestLayerName this url = Return name
         ∧ substring url 0 (Some group) +:+ name = url).
Proof.
  intros Hget Hfind Hsuggest.
  pose proof Hget as (Hurl & Hname & Hdot & Hmap)%getProvider_Return.
  unfold findSourceGroup, suggestLayerName. rewrite Hget. simpl.
  rewrite Hfind, Hsuggest. simpl.
  eexists. split; [reflexivity|].
  unfold suggestLayerNameBasedOnSeparator, findSourceGroupBasedOnSeparator.
  set (sep := if decide (indexOf path "/" = -1) then ":" else "/").
  pose proof (findSourceGroup_cases path sep) as Hcases.
  assert (Hlen : String.length url
                 = (String.length protocol + 3 + String.length path)%nat).
  { rewrite Hurl, !length_append. simpl. lia. }
  assert (Hsep : sep = "/" ∨ sep = ":").
  { unfold sep. destruct (decide _); auto. }
  assert (Hslash : endsWith path "/" = true →
                   sep = "/" ∧ (1 ≤ String.length path)%nat
                   ∧ String.prefix "/"
                       (dropString (String.length path - 1) path) = true).
  { intros (Hl & Hpre & Hidx)%endsWith_slash.
    split; [|done]. unfold sep. by rewrite decide_False. }
  destruct (lastIndexOfFrom sep path 0) as [k|].
  - destruct Hcases as (Hlast & Hk & Hp & Hafter).
    rewrite Hlast. rewrite decide_False by lia.
    assert (Hlt : (k < String.length path)%nat).
    { destruct (decide (k < String.length path)%nat); [done|].
      rewrite dropString_ge in Hp by lia. by destruct Hsep as [-> | ->]. }
    split; [lia|]. split.
    + intros (Hs & Hl & Hpre)%Hslash. rewrite Hs in *.
      destruct (decide (k = String.length path - 1)%nat) as [->|Hne]; [lia|].
      rewrite (Hafter (String.length path - 1)%nat) in Hpre by lia. done.
    + intros Hends. rewrite Hends. eexists. split; [reflexivity|].
      fold sep. rewrite Hlast. rewrite decide_False by lia.
      replace (Z.of_nat k + 1) with (Z.of_nat (S k)) by lia.
      rewrite substring_from, Hurl. apply url_prefix.
  - destruct Hcases as (Hlast & Hno).
    rewrite Hlast. rewrite decide_True by done.
    split; [lia|]. split.
    + intros (Hs & Hl & Hpre)%Hslash. rewrite Hs in *.
      rewrite (Hno (String.length path - 1)%nat) in Hpre by lia. done.
    + intros Hends. rewrite Hends. eexists. split; [reflexivity|].
      fold sep. rewrite Hlast. rewrite decide_True by done.
      change 0 with (Z.of_nat 0).
      rewrite substring_from, Hurl. apply url_prefix.
Qed.

End RegistryFacts.

(** ** util/completion.ts: completions with descriptions *)

Section CompletionStableFacts.

Import Completion.

Variable defaultStringCompare : string -> string -> Z.

Lemma sort_same_key {A : Type} (cmp : A -> A -> Z) (l : list A) :
  (∀ a b, a ∈ l → b ∈ l → cmp a b <= 0) → sort cmp l = l.
Proof.
  induction l as [|x l IH]; intros Hle; [done|].
  change (sort cmp (x :: l)) with (sortInsert cmp x (sort cmp l)).
  rewrite IH.
  - apply sortInsert_front. apply Forall_forall. intros z Hz.
    apply Hle; [by left|by right].
  - intros a b Ha Hb. apply Hle; by right.
Qed.

Lemma filter_and_list {A : Type} (p q : A -> bool) (l : list A) :
  List.filter q (List.filter p l) = List.filter (fun x => p x && q x) l.
Proof.
  induction l as [|x l IH]; simpl; [done|].
  destruct (p x); simpl; [|done]. destruct (q x); by rewrite IH.
Qed.

(** X26.  For a total and transitive comparator,
    [getPrefixMatchesWithDescriptions] is stable: the completions that share
    a value appear in the order of their options, each with the description
    of its own option. *)
Theorem getPrefixMatchesWithDescriptions_stable {T : Type}
    (prefix : string) (options : list T)
    (getValue : T -> string) (getDescription : T -> option string)
    (key : string) :
  (∀ a b, defaultStringCompare a b <= 0 ∨ defaultStringCompare b a <= 0) →
  (∀ a b c, defaultStringCompare a b <= 0 → defaultStringCompare b c <= 0 →
            defaultStringCompare a c <= 0) →
  List.filter (fun c => String.eqb (valueD c) key)
    (getPrefixMatchesWithDescriptions defaultStringCompare prefix options
       getValue getDescription)
  = (fun option => {| valueD := getValue option;
                      description := getDescription option |})
      <$> List.filter
            (fun option =>
               String.prefix prefix (getValue option)
               && String.eqb (getValue option) key)
            options.
Proof.
  intros Htotal Htrans.
  rewrite getPrefixMatchesWithDescriptions_unfold.
  rewrite filter_sort by eauto.
  rewrite filter_fmap_list, filter_and_list. simpl.
  apply sort_same_key. intros a b Ha Hb.
  assert (Hkey : ∀ c,
            c ∈ (fun option => {| valueD := getValue option;
                                  description := getDescription option |})
                  <$> List.filter
                        (fun option =>
                           String.prefix prefix (getValue option)
                           && String.eqb (getValue option) key)
                        options →
            valueD c = key).
  { intros c (o & -> & Ho)%list_elem_of_fmap_1.
    apply list_elem_of_In, filter_In in Ho as [_ Ho].
    apply andb_true_iff in Ho as [_ Ho]. by apply String.eqb_eq in Ho. }
  rewrite (Hkey a Ha), (Hkey b Hb). by destruct (Htotal key key).
Qed.

End CompletionStableFacts.

(** ** sliceview/uncompressed_chunk_format.ts: [TextureLayout] *)

Section LinearIndexSnoc.

Import UncompressedChunk ChunkPositions.

Lemma linearIndex_snoc (size : list N) :
  ∀ (pos : list N) (n p : N),
    length pos = length size →
    linearIndex (size ++ [n]) (pos ++ [p])
    = (linearIndex size pos + numElements size * p)%N.
Proof.
  induction size as [|a size IH]; intros [|q pos] n p Hlen; try done.
  - rewrite !app_nil_l, linearIndex_cons, linearIndex_nil.
    unfold numElements. simpl. lia.
  - simpl in Hlen. rewrite <- !app_comm_cons, !linearIndex_cons.
    rewrite IH by lia. unfold numElements. simpl. lia.
Qed.

Lemma numElements_snoc (size : list N) (n : N) :
  numElements (size ++ [n]) = (numElements size * n)%N.
Proof. apply product_snoc. Qed.

Lemma inChunk_snoc (size pos : list N) (n p : N) :
  inChunk size pos → (p < n)%N → inChunk (size ++ [n]) (pos ++ [p]).
Proof.
  intros Hin Hp. apply Forall2_app; [done|]. by constructor.
Qed.

Lemma inChunk_snoc_inv (size pos' : list N) (n : N) :
  inChunk (size ++ [n]) pos' →
  ∃ pos p, pos' = pos ++ [p] ∧ inChunk size pos ∧ (p < n)%N.
Proof.
  intros (pos & k & Hpos & Hk & ->)%Forall2_app_inv_r.
  apply Forall2_cons_inv_r in Hk as (p & k' & Hp & Hk' & ->).
  apply Forall2_nil_inv_r in Hk' as ->.
  by exists pos, p.
Qed.

Lemma inChunk_length (size pos : list N) :
  inChunk size pos → length pos = length size.
Proof. apply Forall2_length. Qed.

(** Trailing texture dimensions of extent 1, at coordinate 0, count for
    nothing. *)
Lemma linearIndex_pad (k : nat) (size pos : list N) :
  inChunk size pos →
  inChunk (size ++ replicate k 1%N) (pos ++ replicate k 0%N)
  ∧ linearIndex (size ++ replicate k 1%N) (pos ++ replicate k 0%N)
    = linearIndex size pos
  ∧ numElements (size ++ replicate k 1%N) = numElements size.
Proof.
  intros Hin. induction k as [|k (IHin & IHlin & IHnum)].
  - by rewrite !app_nil_r.
  - rewrite !replicate_S_end, !app_assoc.
    split; [|split].
    + by apply inChunk_snoc.
    + rewrite linearIndex_snoc by by apply inChunk_length. rewrite IHlin. lia.
    + rewrite numElements_snoc, IHnum. lia.
Qed.

End LinearIndexSnoc.

Lemma wrap32_small (x : N) :
  (x < 2 ^ 32)%N → TextureLayouts.wrap32 x = x.
Proof. intros Hx. unfold TextureLayouts.wrap32. by apply N.mod_small. Qed.

Lemma map_seq_S {A : Type} (f : nat -> A) (k : nat) :
  f <$> seq 0 (S k) = (f <$> seq 0 k) ++ [f k].
Proof. by rewrite seq_S, fmap_app. Qed.

Lemma map_seq_ext {A : Type} (f g : nat -> A) (k : nat) :
  (∀ d, (d < k)%nat → f d = g d) → f <$> seq 0 k = g <$> seq 0 k.
Proof.
  intros Hext. apply list_fmap_ext. intros i d Hd%lookup_seq.
  destruct Hd as [-> Hd]. by apply Hext.
Qed.

Lemma map_seq_lookups {A : Type} (l : list A) (x : A) :
  l = (fun d => default x (l !! d)) <$> seq 0 (length l).
Proof.
  apply list_eq. intros d. rewrite list_lookup_fmap.
  destruct (decide (d < length l)%nat) as [Hlt|Hge].
  - rewrite lookup_seq_lt by done. simpl.
    by destruct (lookup_lt_is_Some_2 l d Hlt) as [y ->].
  - rewrite lookup_seq_ge by lia. by rewrite lookup_ge_None_2 by lia.
Qed.

Lemma map_seq_const {A : Type} (f : nat -> A) (x : A) (a k : nat) :
  (∀ d, (a ≤ d < a + k)%nat → f d = x) → f <$> seq a k = replicate k x.
Proof.
  revert a. induction k as [|k IH]; intros a Hf; [done|].
  simpl. rewrite Hf by lia. f_equal. apply IH. intros d Hd. apply Hf. lia.
Qed.

Lemma map_seq_split {A : Type} (f : nat -> A) (k n : nat) :
  (k ≤ n)%nat → f <$> seq 0 n = (f <$> seq 0 k) ++ (f <$> seq k (n - k)).
Proof.
  intros Hk. replace n with (k + (n - k))%nat at 1 by lia.
  by rewrite seq_app, fmap_app.
Qed.

Section TextureLayoutFacts.

Import UncompressedChunk ChunkPositions TextureLayouts.

Variables (gl : GL) (sizes : list N) (tdims : nat).

Let rank : nat := length sizes.
Let numRem : nat :=
  length (List.filter (fun size => negb (size =? 1)%N) sizes).
Let maxT : N :=
  if decide (tdims = 3%nat) then max3dTextureSize gl else maxTextureSize gl.

Hypothesis sizes_uint32 : Forall (fun size => (size < 2 ^ 32)%N) sizes.
Hypothesis maxT_uint32 : (maxT < 2 ^ 32)%N.

(** The stride of chunk dimension [i] along texture dimension [d]. *)
Let strideAt (st : LayoutLoop) (i d : nat) : N :=
  default 0%N (loopStrides st !! (tdims * i + d)%nat).

(** The texture coordinate [d] of a position, from its first [n]
    coordinates. *)
Let coordAt (st : LayoutLoop) (n : nat) (pos : list N) (d : nat) : N :=
  foldr N.add 0%N
    ((fun i => (default 0%N (pos !! i) * strideAt st i d)%N) <$> seq 0 n).

(** The texture dimensions in use, and the coordinates along them. *)
Let shapeL (st : LayoutLoop) : list N :=
  (fun d => default 1%N (loopTextureShape st !! d))
    <$> seq 0 (S (textureDim st)).

Let coordL (st : LayoutLoop) (n : nat) (pos : list N) : list N :=
  coordAt st n pos <$> seq 0 (S (textureDim st)).

(** What holds after [n] iterations, as long as the loop has not left the
    texture. *)
Let Inv (n : nat) (st : LayoutLoop) : Prop :=
  length (loopStrides st) = (rank * tdims)%nat
  ∧ length (loopTextureShape st) = tdims
  ∧ (textureDimSize st < 2 ^ 32)%N
  ∧ loopTextureShape st !! textureDim st = Some (textureDimSize st)
  ∧ (∀ d, (textureDim st < d < tdims)%nat →
          loopTextureShape st !! d = Some 1%N)
  ∧ (∀ j, (tdims * n ≤ j)%nat → default 0%N (loopStrides st !! j) = 0%N)
  ∧ (∀ i d, (i < n)%nat → (textureDim st < d < tdims)%nat →
            strideAt st i d = 0%N)
  ∧ numElements (shapeL st) = numElements (take n sizes)
  ∧ ∀ pos, inChunk (take n sizes) pos →
           inChunk (shapeL st) (coordL st n pos)
           ∧ linearIndex (shapeL st) (coordL st n pos)
             = linearIndex (take n sizes) pos.

Lemma coordAt_S (st : LayoutLoop) (n : nat) (pos : list N) (p : N) (d : nat) :
  length pos = n →
  coordAt st (S n) (pos ++ [p]) d
  = (coordAt st n pos d + p * strideAt st n d)%N.
Proof.
  intros Hlen. unfold coordAt. rewrite map_seq_S, sum_snoc.
  rewrite list_lookup_middle by done. simpl. f_equal.
  f_equal. apply map_seq_ext. intros i Hi.
  by rewrite lookup_app_l by lia.
Qed.

Lemma coordAt_ext (st st' : LayoutLoop) (n : nat) (pos : list N) (d : nat) :
  (∀ i, (i < n)%nat → strideAt st' i d = strideAt st i d) →
  coordAt st' n pos d = coordAt st n pos d.
Proof.
  intros Hext. unfold coordAt. f_equal.
  apply map_seq_ext. intros i Hi. by rewrite Hext.
Qed.

Lemma coordAt_zero (st : LayoutLoop) (n : nat) (pos : list N) (d : nat) :
  (∀ i, (i < n)%nat → strideAt st i d = 0%N) → coordAt st n pos d = 0%N.
Proof.
  intros Hz. unfold coordAt. induction n as [|n IH]; [done|].
  rewrite map_seq_S, sum_snoc.
  rewrite IH by (intros; apply Hz; lia). rewrite Hz by lia. lia.
Qed.

Lemma take_S_sizes (n : nat) (s : N) :
  sizes !! n = Some s → take (S n) sizes = take n sizes ++ [s].
Proof. apply take_S_r. Qed.

(** An iteration that skips the dimension, and what a position gains from
    a dimension without stride. *)
Lemma Inv_skip (n : nat) (st : LayoutLoop) :
  sizes !! n = Some 1%N → Inv n st → Inv (S n) st.
Proof.
  intros Hs (Hlen & Hshape & Htds & Hcur & Hones & Hfresh & Hahead & Hnum & Hpos).
  assert (Hn : ∀ d, (d < tdims)%nat → strideAt st n d = 0%N).
  { intros d Hd. apply Hfresh. lia. }
  split; [done|]. split; [done|]. split; [done|]. split; [done|].
  split; [done|]. split.
  { intros j Hj. apply Hfresh. lia. }
  split.
  { intros i d Hi Hd. destruct (decide (i = n)) as [->|Hne].
    - apply Hn. lia.
    - apply Hahead; lia. }
  rewrite (take_S_sizes n 1) by done. split.
  { rewrite numElements_snoc, Hnum. lia. }
  intros pos' (pos & p & -> & Hin & Hp)%inChunk_snoc_inv.
  assert (p = 0%N) as -> by lia.
  pose proof (inChunk_length _ _ Hin) as Hposlen.
  rewrite length_take in Hposlen.
  assert (Hnr : (n < rank)%nat) by (by eapply lookup_lt_Some).
  assert (Hcoord : coordL st (S n) (pos ++ [0%N]) = coordL st n pos).
  { unfold coordL. apply map_seq_ext. intros d Hd.
    rewrite coordAt_S by (unfold rank in Hnr; lia). lia. }
  rewrite Hcoord. destruct (Hpos pos Hin) as [Hin' Hlin].
  split; [done|]. rewrite Hlin.
  rewrite linearIndex_snoc by by apply inChunk_length. lia.
Qed.


Lemma flat_index_inj (i n d t : nat) :
  (d < tdims)%nat → (t < tdims)%nat →
  (tdims * i + d = tdims * n + t)%nat → i = n ∧ d = t.
Proof.
  intros Hd Ht Heq.
  destruct (lt_eq_lt_dec i n) as [[Hlt| ->]|Hgt]; [nia|lia|nia].
Qed.

(** A store into the strides of chunk dimension [n]. *)
Lemma strideAt_store (st st' : LayoutLoop) (n t : nat) (v : N) :
  loopStrides st' = <[(tdims * n + t)%nat := v]> (loopStrides st) →
  length (loopStrides st) = (rank * tdims)%nat →
  (n < rank)%nat → (t < tdims)%nat →
  strideAt st' n t = v
  ∧ ∀ i d, (d < tdims)%nat → ¬ (i = n ∧ d = t) →
           strideAt st' i d = strideAt st i d.
Proof.
  intros Hst Hlen Hn Ht. unfold strideAt. rewrite Hst. split.
  - rewrite list_lookup_insert_eq; [done|]. rewrite Hlen. nia.
  - intros i d Hd Hne. rewrite list_lookup_insert_ne; [done|].
    intros Heq. symmetry in Heq. by apply flat_index_inj in Heq.
Qed.

Lemma shapeL_split (st : LayoutLoop) :
  shapeL st
  = ((fun d => default 1%N (loopTextureShape st !! d))
       <$> seq 0 (textureDim st))
    ++ [default 1%N (loopTextureShape st !! textureDim st)].
Proof.
  exact (map_seq_S (fun d => default 1%N (loopTextureShape st !! d))
           (textureDim st)).
Qed.

Lemma coordL_split (st : LayoutLoop) (n : nat) (pos : list N) :
  coordL st n pos
  = (coordAt st n pos <$> seq 0 (textureDim st))
    ++ [coordAt st n pos (textureDim st)].
Proof. exact (map_seq_S (coordAt st n pos) (textureDim st)). Qed.

(** An iteration that opens the next texture dimension. *)
Lemma Inv_next (n : nat) (st : LayoutLoop) (s : N) :
  sizes !! n = Some s → (S (textureDim st) < tdims)%nat → Inv n st →
  Inv (S n)
    {| textureDim := S (textureDim st);
       textureDimSize := s;
       loopStrides :=
         <[(tdims * n + S (textureDim st))%nat := wrap32 1]> (loopStrides st);
       loopTextureShape :=
         <[S (textureDim st) := wrap32 s]> (loopTextureShape st) |}.
Proof.
  intros Hs Htd (Hlen & Hshape & Htds & Hcur & Hones & Hfresh & Hahead & Hnum & Hpos).
  set (st' := {| textureDim := S (textureDim st) |}).
  assert (Hnr : (n < rank)%nat) by (by eapply lookup_lt_Some).
  assert (Hs32 : (s < 2 ^ 32)%N).
  { rewrite Forall_forall in sizes_uint32. apply sizes_uint32.
    by eapply list_elem_of_lookup_2. }
  destruct (strideAt_store st st' n (S (textureDim st)) (wrap32 1) eq_refl
              Hlen Hnr Htd) as [Hnew Hold].
  rewrite wrap32_small in Hnew by done.
  assert (Hshape' : ∀ d, (d ≤ textureDim st)%nat →
            default 1%N (loopTextureShape st' !! d)
            = default 1%N (loopTextureShape st !! d)).
  { intros d Hd. simpl. by rewrite list_lookup_insert_ne by lia. }
  assert (Hlast : loopTextureShape st' !! S (textureDim st) = Some s).
  { simpl. rewrite list_lookup_insert_eq by lia. by rewrite wrap32_small. }
  assert (HshapeL : shapeL st' = shapeL st ++ [s]).
  { unfold shapeL. change (textureDim st') with (S (textureDim st)).
    rewrite (map_seq_S _ (S (textureDim st))), Hlast.
    f_equal. apply map_seq_ext. intros d Hd. apply Hshape'. lia. }
  split; [by simpl; rewrite length_insert|].
  split; [by simpl; rewrite length_insert|].
  split; [done|]. split; [done|]. split.
  { intros d Hd. simpl in *. rewrite list_lookup_insert_ne by lia.
    apply Hones. lia. }
  split.
  { intros j Hj. simpl. rewrite list_lookup_insert_ne by nia.
    apply Hfresh. nia. }
  split.
  { intros i d Hi Hd. simpl in Hd. rewrite Hold by lia.
    destruct (decide (i = n)) as [->|Hne].
    - apply Hfresh. lia.
    - apply Hahead; lia. }
  rewrite (take_S_sizes n s) by done. rewrite HshapeL. split.
  { rewrite !numElements_snoc, Hnum. done. }
  intros pos' (pos & p & -> & Hin & Hp)%inChunk_snoc_inv.
  pose proof (inChunk_length _ _ Hin) as Hposlen.
  rewrite length_take in Hposlen.
  assert (Hcoord : coordL st' (S n) (pos ++ [p]) = coordL st n pos ++ [p]).
  { unfold coordL. change (textureDim st') with (S (textureDim st)).
    rewrite (map_seq_S _ (S (textureDim st))). f_equal.
    - apply map_seq_ext. intros d Hd.
      rewrite coordAt_S by (unfold rank in Hnr; lia).
      rewrite (Hold n d) by lia.
      assert (strideAt st n d = 0%N) as -> by (apply Hfresh; lia).
      rewrite (coordAt_ext st st') by (intros; apply Hold; lia). lia.
    - rewrite coordAt_S by (unfold rank in Hnr; lia). rewrite Hnew.
      rewrite (coordAt_ext st st') by (intros; apply Hold; lia).
      rewrite coordAt_zero by (intros; apply Hahead; lia). f_equal. lia. }
  rewrite Hcoord. destruct (Hpos pos Hin) as [Hin' Hlin].
  split; [by apply inChunk_snoc|].
  rewrite !linearIndex_snoc by by apply inChunk_length.
  by rewrite Hlin, Hnum.
Qed.

(** An iteration that stays in the texture dimension. *)
Lemma Inv_same (n : nat) (st : LayoutLoop) (s : N) :
  sizes !! n = Some s → (textureDim st < tdims)%nat →
  (s * textureDimSize st <= maxT)%N → Inv n st →
  Inv (S n)
    {| textureDim := textureDim st;
       textureDimSize := s * textureDimSize st;
       loopStrides :=
         <[(tdims * n + textureDim st)%nat := wrap32 (textureDimSize st)]>
           (loopStrides st);
       loopTextureShape :=
         <[textureDim st := wrap32 (s * textureDimSize st)]>
           (loopTextureShape st) |}.
Proof.
  intros Hs Htd Hmax (Hlen & Hshape & Htds & Hcur & Hones & Hfresh & Hahead & Hnum & Hpos).
  set (st' := {| textureDim := textureDim st |}).
  assert (Hnr : (n < rank)%nat) by (by eapply lookup_lt_Some).
  assert (Hnew32 : (s * textureDimSize st < 2 ^ 32)%N) by lia.
  destruct (strideAt_store st st' n (textureDim st) (wrap32 (textureDimSize st))
              eq_refl Hlen Hnr Htd) as [Hnew Hold].
  rewrite wrap32_small in Hnew by done.
  assert (Hlast : loopTextureShape st' !! textureDim st
                  = Some (s * textureDimSize st)%N).
  { simpl. rewrite list_lookup_insert_eq by lia. by rewrite wrap32_small. }
  assert (HshapeL : shapeL st'
                    = ((fun d => default 1%N (loopTextureShape st !! d))
                         <$> seq 0 (textureDim st))
                      ++ [(s * textureDimSize st)%N]).
  { unfold shapeL. change (textureDim st') with (textureDim st).
    rewrite (map_seq_S _ (textureDim st)), Hlast.
    f_equal. apply map_seq_ext. intros d Hd. simpl.
    by rewrite list_lookup_insert_ne by lia. }
  pose proof (shapeL_split st) as Hsplit. rewrite Hcur in Hsplit.
  simpl in Hsplit.
  split; [by simpl; rewrite length_insert|].
  split; [by simpl; rewrite length_insert|].
  split; [done|]. split; [done|]. split.
  { intros d Hd. simpl in *. rewrite list_lookup_insert_ne by lia.
    by apply Hones. }
  split.
  { intros j Hj. simpl. rewrite list_lookup_insert_ne by nia.
    apply Hfresh. nia. }
  split.
  { intros i d Hi Hd. simpl in Hd. rewrite Hold by lia.
    destruct (decide (i = n)) as [->|Hne].
    - apply Hfresh. lia.
    - apply Hahead; lia. }
  rewrite (take_S_sizes n s) by done. rewrite HshapeL. split.
  { rewrite !numElements_snoc, <- Hnum, Hsplit, numElements_snoc. lia. }
  intros pos' (pos & p & -> & Hin & Hp)%inChunk_snoc_inv.
  pose proof (inChunk_length _ _ Hin) as Hposlen.
  rewrite length_take in Hposlen.
  assert (Hcoord : coordL st' (S n) (pos ++ [p])
                   = (coordAt st n pos <$> seq 0 (textureDim st))
                     ++ [(coordAt st n pos (textureDim st)
                          + p * textureDimSize st)%N]).
  { unfold coordL. change (textureDim st') with (textureDim st).
    rewrite (map_seq_S _ (textureDim st)). f_equal.
    - apply map_seq_ext. intros d Hd.
      rewrite coordAt_S by (unfold rank in Hnr; lia).
      rewrite (Hold n d) by lia.
      assert (strideAt st n d = 0%N) as -> by (apply Hfresh; lia).
      rewrite (coordAt_ext st st') by (intros; apply Hold; lia). lia.
    - rewrite coordAt_S by (unfold rank in Hnr; lia). rewrite Hnew.
      by rewrite (coordAt_ext st st') by (intros; apply Hold; lia). }
  rewrite Hcoord. destruct (Hpos pos Hin) as [Hin' Hlin].
  rewrite Hsplit, coordL_split in Hin', Hlin.
  apply inChunk_snoc_inv in Hin' as (C & c & Hc & HinC & Hclt).
  apply app_inj_tail in Hc as [<- <-].
  rewrite linearIndex_snoc in Hlin by by apply inChunk_length.
  split.
  - apply inChunk_snoc; [done|]. nia.
  - rewrite !linearIndex_snoc by by apply inChunk_length.
    rewrite <- Hlin, <- Hnum, Hsplit, numElements_snoc. lia.
Qed.


Lemma layoutLoop_S (n : nat) :
  layoutLoop gl sizes tdims (S n)
  = layoutStep sizes tdims numRem maxT (layoutLoop gl sizes tdims n) n.
Proof. unfold layoutLoop. by rewrite seq_S, fold_left_app. Qed.

Lemma layoutStep_textureDim (st : LayoutLoop) (n : nat) :
  (textureDim st ≤ textureDim (layoutStep sizes tdims numRem maxT st n))%nat.
Proof.
  unfold layoutStep. destruct (sizes !! n) as [s|]; [|done].
  destruct (decide (s = 1%N)); [done|].
  destruct (decide (_ ∨ _)); simpl; lia.
Qed.

Lemma Inv_init :
  (0 < tdims)%nat → Inv 0 (layoutLoop gl sizes tdims 0).
Proof.
  intros Htd. unfold layoutLoop. cbn [seq fold_left].
  unfold Inv, shapeL, coordL.
  cbn [loopStrides loopTextureShape textureDim textureDimSize].
  rewrite !length_replicate.
  split; [done|]. split; [done|]. split; [done|].
  split; [by apply lookup_replicate_2|]. split.
  { intros d Hd. apply lookup_replicate_2. lia. }
  split.
  { intros j _.
    destruct (replicate (length sizes * tdims) 0%N !! j) as [x|] eqn:Hx;
      [|done].
    by apply lookup_replicate in Hx as [-> _]. }
  split; [intros i d Hi; lia|].
  cbn [seq fmap list_fmap]. rewrite lookup_replicate_2 by done.
  split; [done|].
  intros pos Hin. apply Forall2_nil_inv_r in Hin as ->.
  split; [|done]. repeat constructor.
Qed.

Lemma Inv_loop (n : nat) :
  (n ≤ rank)%nat → (textureDim (layoutLoop gl sizes tdims n) < tdims)%nat →
  Inv n (layoutLoop gl sizes tdims n).
Proof.
  induction n as [|n IH]; intros Hn Htd.
  - apply Inv_init. lia.
  - rewrite layoutLoop_S in *.
    pose proof (layoutStep_textureDim (layoutLoop gl sizes tdims n) n) as Hmono.
    specialize (IH ltac:(lia) ltac:(lia)).
    destruct (lookup_lt_is_Some_2 sizes n ltac:(unfold rank in Hn; lia))
      as [s Hs].
    unfold layoutStep in *. rewrite Hs in *.
    destruct (decide (s = 1%N)) as [->|Hs1]; [by apply Inv_skip|].
    destruct (decide (_ ∨ _)) as [Hnext|Hsame].
    + by apply Inv_next.
    + apply Inv_same; [done|lia| |done].
      destruct (decide
                  (maxT < s * textureDimSize (layoutLoop gl sizes tdims n))%N)
        as [Hgt|]; [|lia].
      destruct Hsame. by left.
Qed.

(** Whatever is stored in [textureShape] went through a [Uint32Array]. *)
Lemma shape_uint32 (n : nat) :
  Forall (fun x => (x < 2 ^ 32)%N)
    (loopTextureShape (layoutLoop gl sizes tdims n)).
Proof.
  assert (Hw : ∀ x, (wrap32 x < 2 ^ 32)%N).
  { intros x. unfold wrap32. by apply N.mod_lt. }
  induction n as [|n IH].
  - unfold layoutLoop. cbn [seq fold_left loopTextureShape].
    apply Forall_replicate. done.
  - rewrite layoutLoop_S. unfold layoutStep.
    destruct (sizes !! n) as [s|]; [|done].
    destruct (decide (s = 1%N)); [done|].
    destruct (decide (_ ∨ _)); simpl; by apply Forall_insert.
Qed.

(** The sum of the first loop of [setupTextureLayout]. *)
Lemma offset_sum (st : LayoutLoop) (pos : list N) (d : nat) (n : nat) :
  length (loopStrides st) = (rank * tdims)%nat →
  length pos = rank → (d < tdims)%nat → (n ≤ rank)%nat →
  fold_left
    (fun sum chunkDim =>
       addNum sum
         (mulNum (pos !! chunkDim)
            (loopStrides st !! (chunkDim * tdims + d)%nat)))
    (seq 0 n) (Some 0%N)
  = Some (coordAt st n pos d).
Proof.
  intros Hlen Hpos Hd. induction n as [|n IH]; intros Hn; [done|].
  rewrite seq_S, fold_left_app, IH by lia. cbn [fold_left].
  unfold coordAt at 2. rewrite map_seq_S, sum_snoc.
  destruct (lookup_lt_is_Some_2 pos n ltac:(lia)) as [p Hp].
  destruct (lookup_lt_is_Some_2 (loopStrides st) (n * tdims + d)
              ltac:(rewrite Hlen; nia)) as [v Hv].
  unfold strideAt. replace (tdims * n)%nat with (n * tdims)%nat by lia.
  simpl. rewrite Hp, Hv. done.
Qed.

(** X27.  Let the extents of the chunk and the texture size limit of the
    context be 32-bit numbers (the two assumptions of this section), and let
    the loop of the [TextureLayout] constructor end on a texture dimension
    that exists.  Then the texture has as many texels as the chunk has
    elements; and for every position inside the chunk the texture
    coordinates that the first loop of [setupTextureLayout] computes from
    the strides lie inside the texture and, read as a position in an array
    of the shape of the texture, have the linear index that [getValueAt]
    computes for the position in the chunk: the shader reads the element
    from the texel it was stored in. *)
Theorem textureLayout_addresses_elements (dataPosition : list N) :
  (textureDim (layoutLoop gl sizes tdims (length sizes)) < tdims)%nat →
  inChunk sizes dataPosition →
  let textureLayout := newTextureLayout gl sizes tdims in
  let offset := fixedPositionOffset textureLayout tdims dataPosition in
  numElements (textureShape textureLayout) = numElements sizes
  ∧ inChunk (textureShape textureLayout) offset
  ∧ linearIndex (textureShape textureLayout) offset
    = linearIndex sizes dataPosition
  ∧ computeIndex offset (textureShape textureLayout)
    = computeIndex dataPosition sizes.
Proof.
  intros Htd Hin textureLayout offset.
  set (st := layoutLoop gl sizes tdims (length sizes)) in *.
  pose proof (Inv_loop (length sizes) ltac:(done) Htd)
    as (Hlen & Hshape & Htds & Hcur & Hones & Hfresh & Hahead & Hnum & Hpos).
  fold st in Hlen, Hshape, Htds, Hcur, Hones, Hfresh, Hahead, Hnum, Hpos.
  rewrite firstn_all in Hnum, Hpos.
  destruct (Hpos dataPosition Hin) as [Hin' Hlin].
  pose proof (Forall2_length _ _ _ Hin) as Hposlen.
  assert (Hshape_eq : textureShape textureLayout
                      = shapeL st
                        ++ replicate (tdims - S (textureDim st)) 1%N).
  { change (textureShape textureLayout) with (loopTextureShape st).
    rewrite (map_seq_lookups (loopTextureShape st) 1%N) at 1.
    rewrite Hshape.
    rewrite (map_seq_split _ (S (textureDim st)) tdims) by lia. f_equal.
    apply map_seq_const. intros d Hd. rewrite Hones by lia. done. }
  assert (Hoffset_eq : offset
                       = coordL st (length sizes) dataPosition
                         ++ replicate (tdims - S (textureDim st)) 0%N).
  { unfold offset, fixedPositionOffset.
    change (strides textureLayout) with (loopStrides st).
    rewrite (map_seq_split _ (S (textureDim st)) tdims) by lia. f_equal.
    - apply map_seq_ext. intros d Hd. rewrite Hposlen.
      rewrite (offset_sum st dataPosition d (length sizes))
        by (done || lia).
      simpl. apply wrap32_small.
      assert (Hc : (coordAt st (length sizes) dataPosition d
                    < default 1%N (loopTextureShape st !! d))%N).
      { eapply (Forall2_lookup_lr _ _ _ d) in Hin'.
        - exact Hin'.
        - unfold coordL. rewrite list_lookup_fmap, lookup_seq_lt by lia. done.
        - unfold shapeL. rewrite list_lookup_fmap, lookup_seq_lt by lia. done. }
      pose proof (shape_uint32 (length sizes)) as H32.
      fold st in H32. rewrite Forall_forall in H32.
      destruct (lookup_lt_is_Some_2 (loopTextureShape st) d ltac:(lia))
        as [x Hx].
      rewrite Hx in Hc. simpl in Hc.
      pose proof (H32 x (list_elem_of_lookup_2 _ _ _ Hx)). lia.
    - apply map_seq_const. intros d Hd. rewrite Hposlen.
      rewrite (offset_sum st dataPosition d (length sizes))
        by (done || lia).
      simpl.
      rewrite (coordAt_zero st (length sizes) dataPosition d)
        by (intros; apply Hahead; lia).
      done. }
  rewrite Hshape_eq, Hoffset_eq.
  destruct (linearIndex_pad (tdims - S (textureDim st)) _ _ Hin')
    as (Hpin & Hplin & Hpnum).
  split; [by rewrite Hpnum|]. split; [done|]. split; [by rewrite Hplin|].
  rewrite !computeIndex_linearIndex.
  - by rewrite Hplin, Hlin.
  - lia.
  - by rewrite (Forall2_length _ _ _ Hpin).
Qed.

End TextureLayoutFacts.

Section TextureLayoutFits.

Import TextureLayouts.

Variables (gl : GL) (sizes : list N) (tdims : nat).

Abbreviation nonUnit := (fun size : N => negb (size =? 1)%N).

Lemma layoutLoop_step (n : nat) :
  layoutLoop gl sizes tdims (S n)
  = layoutStep sizes tdims (length (List.filter nonUnit sizes))
      (if decide (tdims = 3%nat) then max3dTextureSize gl
       else maxTextureSize gl)
      (layoutLoop gl sizes tdims n) n.
Proof. unfold layoutLoop. by rewrite seq_S, fold_left_app. Qed.

(** As long as only unit extents were met the loop is where it started, and
    afterwards it has opened at most one texture dimension less than it met
    extents that are not 1, provided the first of them fits the limit. *)
Lemma layoutLoop_opened (n : nat) :
  Forall (fun size =>
            (size <= if decide (tdims = 3%nat) then max3dTextureSize gl
                     else maxTextureSize gl)%N) sizes →
  (n ≤ length sizes)%nat →
  let met := length (List.filter nonUnit (take n sizes)) in
  (met = 0%nat →
   textureDim (layoutLoop gl sizes tdims n) = 0%nat
   ∧ textureDimSize (layoutLoop gl sizes tdims n) = 1%N)
  ∧ (textureDim (layoutLoop gl sizes tdims n) ≤ met - 1)%nat.
Proof.
  intros Hfit. induction n as [|n IH]; intros Hn met.
  - done.
  - destruct (IH ltac:(lia)) as [Hzero Hle].
    destruct (lookup_lt_is_Some_2 sizes n ltac:(lia)) as [s Hs].
    assert (Hs_fit : (s <= if decide (tdims = 3%nat) then max3dTextureSize gl
                          else maxTextureSize gl)%N).
    { rewrite Forall_forall in Hfit. apply Hfit.
      by eapply list_elem_of_lookup_2. }
    assert (Hmet : met = (length (List.filter nonUnit (take n sizes))
                          + if decide (s = 1%N) then 0 else 1)%nat).
    { unfold met. rewrite (take_S_r _ _ _ Hs), List.filter_app, length_app.
      simpl. destruct (decide (s = 1%N)) as [->|Hne]; [done|].
      by apply N.eqb_neq in Hne as ->. }
    rewrite layoutLoop_step. unfold layoutStep. rewrite Hs.
    destruct (decide (s = 1%N)) as [->|Hs1].
    + rewrite Hmet, Nat.add_0_r. done.
    + destruct (decide (_ ∨ _)) as [Hnext|Hsame]; simpl.
      * split; [lia|].
        destruct (decide (length (List.filter nonUnit (take n sizes)) = 0%nat))
          as [Hz|Hnz]; [|lia].
        destruct (Hzero Hz) as [Htd Htds]. rewrite Htds in Hnext.
        destruct Hnext as [Hgt|[Hne _]]; [lia|done].
      * split; [lia|]. lia.
Qed.

(** X28.  A chunk with at most [textureDims] extents that are not 1, each of
    them within the texture size limit of the context, fits: the loop of the
    [TextureLayout] constructor ends on a texture dimension that exists. *)
Theorem textureLayout_fits :
  (1 ≤ tdims)%nat →
  (length (List.filter nonUnit sizes) ≤ tdims)%nat →
  Forall (fun size =>
            (size <= if decide (tdims = 3%nat) then max3dTextureSize gl
                     else maxTextureSize gl)%N) sizes →
  (textureDim (layoutLoop gl sizes tdims (length sizes)) < tdims)%nat.
Proof.
  intros Htd Hcount Hfit.
  destruct (layoutLoop_opened (length sizes) Hfit ltac:(done)) as [_ Hle].
  rewrite firstn_all in Hle. lia.
Qed.

End TextureLayoutFits.

(* ===================================================================== *)
(** * Part V: the further properties on concrete inputs                   *)
(* ===================================================================== *)

Lemma codeUnitCompare_antisym (a b : string) :
  Samples.codeUnitCompare a b <= 0 → Samples.codeUnitCompare b a <= 0 → a = b.
Proof.
  unfold Samples.codeUnitCompare. rewrite (String.compare_antisym a b).
  destruct (String.compare b a) eqn:Hc; simpl; try lia.
  intros _ _. symmetry. by apply String.compare_eq_iff.
Qed.

Lemma layer12_registered : RenderLayerRuns.registered Samples.layer12.
Proof.
  split.
  - intros k entry. unfold Samples.layer12. simpl.
    rewrite lookup_insert_Some, lookup_singleton_Some.
    intros [[<- <-]|[_ [<- <-]]]; simpl; split; done || lia.
  - intros s. unfold Samples.layer12. simpl.
    rewrite !elem_of_cons, elem_of_nil.
    intros [->|[->|[]]]; by eexists.
Qed.

(** X2 on the layer with source 1 registered twice and source 2 once. *)
Lemma registered_preserved_witness :
  RenderLayerRuns.registered Samples.layer12
  ∧ RenderLayerRuns.registered (RenderLayer.addSource Samples.layer12 3%nat 30)
  ∧ ∀ this', RenderLayer.removeSource Samples.layer12 2%nat = Return this' →
             RenderLayerRuns.registered this'.
Proof.
  split; [exact layer12_registered|]. split.
  - exact (proj1 (registered_preserved Samples.layer12 3%nat 30
                    layer12_registered)).
  - exact (proj2 (registered_preserved Samples.layer12 2%nat 30
                    layer12_registered)).
Defined.

(** X3 on the same layer and source 3, which it does not know: two
    registrations and two removals. *)
Lemma addTimes_removeTimes_witness :
  (0 < 2)%nat
  ∧ RenderLayer.visibleSources Samples.layer12 !! 3%nat = None
  ∧ (RenderLayer.refCount
       <$> RenderLayer.visibleSources
             (RenderLayerRuns.addTimes 2 3%nat 30 Samples.layer12) !! 3%nat)
    = Some 2
  ∧ ∃ this',
      RenderLayerRuns.removeTimes 2 3%nat
        (RenderLayerRuns.addTimes 2 3%nat 30 Samples.layer12)
      = Return this'
      ∧ RenderLayer.visibleSources this'
        = RenderLayer.visibleSources Samples.layer12.
Proof.
  assert (H0 : (0 < 2)%nat) by lia.
  assert (H1 : RenderLayer.visibleSources Samples.layer12 !! 3%nat = None)
    by reflexivity.
  destruct (addTimes_removeTimes 2 Samples.layer12 3%nat 30 H0 H1)
    as (Hcount & this' & Hrem & Hmap & _).
  split; [exact H0|]. split; [exact H1|]. split; [exact Hcount|].
  exists this'. split; [exact Hrem|exact Hmap].
Defined.

(** X4 on the 2 x 3 chunk of bytes and the position (1, 2). *)
Lemma getValueAt_inside_chunk_witness :
  UncompressedChunk.data Samples.chunk23 = Some [10; 11; 20; 21; 30; 31]
  ∧ ChunkPositions.inChunk (UncompressedChunk.chunkDataSize Samples.chunk23)
      [1; 2]%N
  ∧ ∃ x, UncompressedChunk.getValueAt Samples.chunk23 [1; 2]%N
         = UncompressedChunk.Number (Some x).
Proof.
  assert (Hin : ChunkPositions.inChunk
                  (UncompressedChunk.chunkDataSize Samples.chunk23) [1; 2]%N).
  { repeat constructor; simpl; lia. }
  split; [reflexivity|]. split; [exact Hin|].
  exact (proj1 (proj2 (getValueAt_inside_chunk Samples.chunk23 [1; 2]%N _
                         eq_refl Hin))
           ltac:(discriminate) eq_refl).
Defined.

(** X5 on the positions (1, 2) and (1, 2) of a 2 x 3 chunk. *)
Lemma computeIndex_injective_witness :
  ChunkPositions.inChunk [2; 3]%N [1; 2]%N
  ∧ UncompressedChunk.computeIndex [1; 2]%N [2; 3]%N
    = UncompressedChunk.computeIndex [1; 2]%N [2; 3]%N
  ∧ [1; 2]%N = [1; 2]%N.
Proof.
  assert (Hin : ChunkPositions.inChunk [2; 3]%N [1; 2]%N).
  { repeat constructor; simpl; lia. }
  split; [exact Hin|]. split; [reflexivity|].
  exact (computeIndex_injective [2; 3]%N [1; 2]%N [1; 2]%N Hin Hin eq_refl).
Defined.

(** X7 on a URL with a doubled slash: the file is found all the same. *)
Lemma getFile_components_witness :
  Samples.samplePathname "http://host/data//volume/0.0.0"
  = Some (join "/" [""; "data"; ""; "volume"; "0.0.0"])
  ∧ [""; "data"; ""; "volume"; "0.0.0"] ≠ []
  ∧ Forall (fun p => Paths.noSlash p = true)
      [""; "data"; ""; "volume"; "0.0.0"]
  ∧ HttpRequest.getFile Samples.treeGet Samples.samplePathname
      "http://host/data//volume/0.0.0" (Some Samples.sampleTree)
    = Return (Some (Samples.File "chunk bytes")).
Proof.
  assert (H1 : [""; "data"; ""; "volume"; "0.0.0"] ≠ @nil string) by done.
  assert (H2 : Forall (fun p => Paths.noSlash p = true)
                 [""; "data"; ""; "volume"; "0.0.0"])
    by (repeat constructor).
  split; [reflexivity|]. split; [exact H1|]. split; [exact H2|].
  rewrite (getFile_components Samples.treeGet Samples.samplePathname
             "http://host/data//volume/0.0.0"
             [""; "data"; ""; "volume"; "0.0.0"] (Some Samples.sampleTree)
             eq_refl H1 H2).
  reflexivity.
Defined.

(** X8 on three requests: a path that ends in a member of a stored response
    returns that member, a path through [null] throws what the property read
    throws, and a [Request] object is not a URL. *)
Lemma fetchOk_outcomes_witness :
  HttpRequest.fetchOk Samples.treeGet Samples.samplePathname
    (HttpRequest.UrlString "http://host/data/volume/0.0.0/arrayBuffer")
    (Some Samples.sampleTree)
  = Return (Samples.Method "arrayBuffer" "chunk bytes")
  ∧ HttpRequest.fetchOk Samples.treeGet Samples.samplePathname
      (HttpRequest.UrlString "http://host/data/nothing/0.0.0")
      (Some Samples.sampleTree)
    = Throw (HttpRequest.ReadError
               "TypeError: Cannot read properties of null")
  ∧ HttpRequest.fetchOk Samples.treeGet Samples.samplePathname
      (HttpRequest.Request "http://host/data/volume/0.0.0")
      (Some Samples.sampleTree)
    = Throw HttpRequest.TypeError.
Proof.
  pose proof (fetchOk_outcomes Samples.treeGet Samples.samplePathname
                (HttpRequest.UrlString
                   "http://host/data/volume/0.0.0/arrayBuffer")
                (Some Samples.sampleTree) [] [])
    as (_ & _ & Hret & _).
  pose proof (fetchOk_outcomes Samples.treeGet Samples.samplePathname
                (HttpRequest.UrlString "http://host/data/nothing/0.0.0")
                (Some Samples.sampleTree) [] [])
    as (_ & _ & _ & _ & _ & Hread).
  pose proof (fetchOk_outcomes Samples.treeGet Samples.samplePathname
                (HttpRequest.Request "http://host/data/volume/0.0.0")
                (Some Samples.sampleTree) [] [])
    as (_ & _ & _ & _ & Hurl & _).
  split; [|split].
  - apply Hret. eexists. split; reflexivity.
  - apply Hread. eexists. split; reflexivity.
  - apply Hurl. reflexivity.
Defined.

(** X9 on attempts 3 and 5 with a draw of one half: 6000 ms and 7500 ms. *)
Lemma pickDelay_schedule_witness :
  (0 <= 1 # 2)%Q ∧ (1 # 2 < 1)%Q
  ∧ (HttpRequest.pickDelay 3 (1 # 2) == 6000)%Q
  ∧ (HttpRequest.pickDelay 5 (1 # 2) == 7500)%Q
  ∧ (HttpRequest.pickDelay 3 (1 # 2) <= HttpRequest.pickDelay 5 (1 # 2))%Q.
Proof.
  assert (H1 : (0 <= 1 # 2)%Q) by (unfold Qle; simpl; lia).
  assert (H2 : (1 # 2 < 1)%Q) by (unfold Qlt; simpl; lia).
  pose proof (pickDelay_schedule 3 5 (1 # 2) H1 H2) as (Hmono & _).
  split; [exact H1|]. split; [exact H2|].
  split; [by vm_compute|]. split; [by vm_compute|].
  apply Hmono. lia.
Defined.

(** X11 on the options [abd, b, abc, ab, a]: the completions of [ab] are
    those completions of [a] that start with [ab]. *)
Lemma getPrefixMatches_narrow_witness :
  String.prefix "a" "ab" = true
  ∧ Completion.getPrefixMatches Samples.codeUnitCompare "ab" Samples.options
    = List.filter (fun c => String.prefix "ab" (Completion.value c))
        (Completion.getPrefixMatches Samples.codeUnitCompare "a"
           Samples.options).
Proof.
  split; [reflexivity|].
  exact (getPrefixMatches_narrow Samples.codeUnitCompare "a" "ab"
           Samples.options codeUnitCompare_total codeUnitCompare_trans
           eq_refl).
Defined.

(** X12 on the same options and the options in reverse order. *)
Lemma getPrefixMatches_order_independent_witness :
  Permutation Samples.options (reverse Samples.options)
  ∧ Completion.getPrefixMatches Samples.codeUnitCompare "ab" Samples.options
    = Completion.getPrefixMatches Samples.codeUnitCompare "ab"
        (reverse Samples.options).
Proof.
  assert (Hperm : Permutation Samples.options (reverse Samples.options)).
  { symmetry. apply reverse_Permutation. }
  split; [exact Hperm|].
  exact (getPrefixMatches_order_independent Samples.codeUnitCompare "ab"
           Samples.options (reverse Samples.options)
           codeUnitCompare_total codeUnitCompare_trans codeUnitCompare_antisym
           Hperm).
Defined.

(** X13 on a candidate with three channels under a transform whose channel
    space has extent 3: the upper clip bound is the candidate's own, the
    lower one the voxel bound of the chunk source. *)
Lemma getTransformedSource_returns_witness :
  ∃ ts,
    Frontend.getTransformedSource id Samples.sampleChunkTransform
      Samples.sampleGeometry Samples.xyz Samples.withChannel 1%nat
      MoreSamples.threeChannelSource
    = Return ts
    ∧ Frontend.ts_renderLayer ts = 1%nat
    ∧ Frontend.ts_lowerClipBound ts = Some <$> [0; 0; 0; 0]
    ∧ Frontend.ts_upperClipBound ts = Some <$> [100; 100; 100; 3].
Proof.
  eexists. split; [reflexivity|].
  pose proof (getTransformedSource_returns id Samples.sampleChunkTransform
                Samples.sampleGeometry Samples.xyz Samples.withChannel 1%nat
                MoreSamples.threeChannelSource _ eq_refl)
    as (Hlayer & _ & _ & Hlow & Hup & _).
  split; [exact Hlayer|]. split; [exact Hlow|exact Hup].
Defined.

(** X16 on a layer whose two scales share one chunk source: the source is
    registered twice. *)
Lemma getTransformedSources_registers_witness :
  ∃ outcome layer',
    Frontend.getTransformedSources (Some 0) None id id
      Samples.sampleChunkTransform Samples.sampleGeometry
      Samples.sampleView 2%nat MoreSamples.goodLayer []
    = Return (outcome, layer')
    ∧ ViewReads.refCountOf (Frontend.registration layer') 6%nat = 2
    ∧ ViewReads.refCountOf (Frontend.registration layer') 5%nat = 0.
Proof.
  eexists _, _. split; [reflexivity|].
  pose proof (getTransformedSources_registers (Some 0) None id id
                Samples.sampleChunkTransform Samples.sampleGeometry
                (Serialized := nat)
                Samples.sampleView 2%nat MoreSamples.goodLayer _ [] _ eq_refl)
    as (Hcount & _).
  split; [exact (Hcount 6%nat)|exact (Hcount 5%nat)].
Defined.

(** X25 on [local://a/b] in the registry as constructed: the group is
    [local://a/] and the suggested name [b]. *)
Lemma registry_splits_url_witness :
  DataSource.getProvider DataSource.newRegistry "local://a/b"
  = Return (DataSource.LocalDataSourceProvider, "a/b", "local")
  ∧ ∃ group,
      DataSource.findSourceGroup DataSource.newRegistry "local://a/b"
      = Return group
      ∧ Z.of_nat (String.length "local") + 3 <= group
        <= Z.of_nat (String.length "local://a/b")
      ∧ ∃ name,
          DataSource.suggestLayerName DataSource.newRegistry "local://a/b"
          = Return name
          ∧ DataSource.substring "local://a/b" 0 (Some group) +:+ name
            = "local://a/b".
Proof.
  split; [reflexivity|].
  destruct (registry_splits_url DataSource.newRegistry "local://a/b" "a/b"
              "local" DataSource.LocalDataSourceProvider
              eq_refl eq_refl eq_refl)
    as (group & Hgroup & Hbounds & _ & Hname).
  exists group. split; [exact Hgroup|]. split; [exact Hbounds|].
  exact (Hname eq_refl).
Defined.

(** X26 on options of which two have the value [b]: their completions keep
    the order of the options. *)
Lemma getPrefixMatchesWithDescriptions_stable_witness :
  List.filter (fun c => String.eqb (Completion.valueD c) "b")
    (Completion.getPrefixMatchesWithDescriptions Samples.codeUnitCompare ""
       MoreSamples.described fst snd)
  = [{| Completion.valueD := "b"; Completion.description := Some "first b" |};
     {| Completion.valueD := "b"; Completion.description := Some "second b" |}].
Proof.
  rewrite (getPrefixMatchesWithDescriptions_stable Samples.codeUnitCompare ""
             MoreSamples.described fst snd "b"
             codeUnitCompare_total codeUnitCompare_trans).
  reflexivity.
Defined.


(** X27 on a 64 x 64 x 64 chunk with 3 channels in a 3-d texture: the
    channels share the third texture dimension with the third chunk
    dimension, and the position (1, 2, 3, 2) is the texel (1, 2, 131). *)
Lemma textureLayout_addresses_elements_witness :
  (TextureLayouts.textureDim
     (TextureLayouts.layoutLoop LayoutSamples.webgl LayoutSamples.rgbChunk 3 4)
   < 3)%nat
  ∧ ChunkPositions.inChunk LayoutSamples.rgbChunk [1; 2; 3; 2]%N
  ∧ TextureLayouts.textureShape
      (TextureLayouts.newTextureLayout LayoutSamples.webgl
         LayoutSamples.rgbChunk 3)
    = [64; 64; 192]%N
  ∧ TextureLayouts.fixedPositionOffset
      (TextureLayouts.newTextureLayout LayoutSamples.webgl
         LayoutSamples.rgbChunk 3) 3 [1; 2; 3; 2]%N
    = [1; 2; 131]%N
  ∧ UncompressedChunk.linearIndex [64; 64; 192]%N [1; 2; 131]%N
    = UncompressedChunk.linearIndex LayoutSamples.rgbChunk [1; 2; 3; 2]%N.
Proof.
  assert (Hsizes : Forall (fun size => (size < 2 ^ 32)%N) LayoutSamples.rgbChunk)
    by (repeat constructor).
  assert (Hmax : ((if decide (3 = 3)%nat
                   then TextureLayouts.max3dTextureSize LayoutSamples.webgl
                   else TextureLayouts.maxTextureSize LayoutSamples.webgl)
                  < 2 ^ 32)%N) by reflexivity.
  assert (Htd : (TextureLayouts.textureDim
                   (TextureLayouts.layoutLoop LayoutSamples.webgl
                      LayoutSamples.rgbChunk 3 4) < 3)%nat)
    by (vm_compute; lia).
  assert (Hin : ChunkPositions.inChunk LayoutSamples.rgbChunk [1; 2; 3; 2]%N)
    by (repeat constructor).
  split; [exact Htd|]. split; [exact Hin|].
  split; [reflexivity|]. split; [reflexivity|].
  exact (proj1 (proj2 (proj2
           (textureLayout_addresses_elements LayoutSamples.webgl
              LayoutSamples.rgbChunk 3 Hsizes Hmax [1; 2; 3; 2]%N Htd Hin)))).
Defined.

(** X28 on a slab of 64 x 64 x 1 voxels in a 3-d texture. *)
Lemma textureLayout_fits_witness :
  (1 ≤ 3)%nat
  ∧ (length (List.filter (fun size => negb (size =? 1)%N) LayoutSamples.slab)
     ≤ 3)%nat
  ∧ (TextureLayouts.textureDim
       (TextureLayouts.layoutLoop LayoutSamples.webgl LayoutSamples.slab 3
          (length LayoutSamples.slab)) < 3)%nat.
Proof.
  assert (H1 : (1 ≤ 3)%nat) by lia.
  assert (H2 : (length (List.filter (fun size => negb (size =? 1)%N)
                          LayoutSamples.slab) ≤ 3)%nat) by (simpl; lia).
  assert (H3 : Forall
                 (fun size =>
                    (size <= if decide (3 = 3)%nat
                             then TextureLayouts.max3dTextureSize
                                    LayoutSamples.webgl
                             else TextureLayouts.maxTextureSize
                                    LayoutSamples.webgl)%N)
                 LayoutSamples.slab).
  { repeat constructor; by vm_compute. }
  split; [exact H1|]. split; [exact H2|].
  exact (textureLayout_fits LayoutSamples.webgl LayoutSamples.slab 3 H1 H2 H3).
Defined.
